(** * Mission-briefing pipeline ([challenge.three.ts]): a shallow embedding

    The development follows the script function by function.  JavaScript
    numbers are modelled by [JsNumber.number]: exact rationals extended with
    [NaN], [+Infinity] and [-Infinity].  Binary64 rounding and the sign of
    zero are idealised away; everything the script tests explicitly
    ([Number.isNaN], [Number.isFinite], comparisons against [Infinity]) is
    kept.  The value of the threat score depends on the rounding of every
    step; for it [computeThreat] is given a second time over binary64
    numbers, in [Binary64]. *)

From stdpp Require Import gmap strings pretty.
From Stdlib Require Import ZArith QArith Qround Reals Lia Lra Lqa List Bool Ascii String.
Import ListNotations.

(** ** JavaScript numbers *)

Module JsNumber.

Inductive number : Type :=
| NaN
| PInf
| NInf
| Fin (q : Q).

Declare Scope num_scope.
Delimit Scope num_scope with num.
Bind Scope num_scope with number.

Definition of_Z (z : Z) : number := Fin (inject_Z z).

(** [Number.isNaN] and [Number.isFinite]. *)
Definition isNaN (x : number) : bool :=
  match x with NaN => true | _ => false end.

Definition isFinite (x : number) : bool :=
  match x with Fin _ => true | _ => false end.

Definition neg (x : number) : number :=
  match x with
  | NaN => NaN
  | PInf => NInf
  | NInf => PInf
  | Fin q => Fin (- q)
  end.

Definition add (x y : number) : number :=
  match x, y with
  | NaN, _ | _, NaN => NaN
  | PInf, NInf | NInf, PInf => NaN
  | PInf, _ | _, PInf => PInf
  | NInf, _ | _, NInf => NInf
  | Fin a, Fin b => Fin (a + b)
  end.

Definition sub (x y : number) : number := add x (neg y).

(** Sign of an infinity scaled by a finite factor; [0 * Infinity] is [NaN]. *)
Definition scale_inf (a : Q) (pos : bool) : number :=
  match a ?= 0 with
  | Eq => NaN
  | Gt => if pos then PInf else NInf
  | Lt => if pos then NInf else PInf
  end.

Definition mul (x y : number) : number :=
  match x, y with
  | NaN, _ | _, NaN => NaN
  | Fin a, Fin b => Fin (a * b)
  | Fin a, PInf | PInf, Fin a => scale_inf a true
  | Fin a, NInf | NInf, Fin a => scale_inf a false
  | PInf, PInf | NInf, NInf => PInf
  | PInf, NInf | NInf, PInf => NInf
  end.

(** Division; a zero divisor is read as [+0]. *)
Definition div (x y : number) : number :=
  match x, y with
  | NaN, _ | _, NaN => NaN
  | Fin a, Fin b =>
      match b ?= 0 with
      | Eq => match a ?= 0 with Eq => NaN | Gt => PInf | Lt => NInf end
      | _ => Fin (a / b)
      end
  | Fin _, _ => Fin 0
  | PInf, Fin b => if Qle_bool 0 b then PInf else NInf
  | NInf, Fin b => if Qle_bool 0 b then NInf else PInf
  | _, _ => NaN
  end.

(** The relational operators: every comparison with [NaN] is false. *)
Definition lt (x y : number) : bool :=
  match x, y with
  | NaN, _ | _, NaN => false
  | _, NInf => false
  | NInf, _ => true
  | PInf, _ => false
  | _, PInf => true
  | Fin a, Fin b => negb (Qle_bool b a)
  end.

Definition le (x y : number) : bool :=
  match x, y with
  | NaN, _ | _, NaN => false
  | NInf, _ => true
  | _, NInf => false
  | _, PInf => true
  | PInf, _ => false
  | Fin a, Fin b => Qle_bool a b
  end.

Definition gt (x y : number) : bool := lt y x.
Definition ge (x y : number) : bool := le y x.

(** [x === y] on numbers. *)
Definition strict_eq (x y : number) : bool :=
  match x, y with
  | PInf, PInf | NInf, NInf => true
  | Fin a, Fin b => Qeq_bool a b
  | _, _ => false
  end.

(** ToBoolean on a number: [0] and [NaN] are falsy. *)
Definition truthy (x : number) : bool :=
  match x with
  | NaN => false
  | Fin q => negb (Qeq_bool q 0)
  | _ => true
  end.

Definition Math_max (x y : number) : number :=
  match x, y with
  | NaN, _ | _, NaN => NaN
  | _, _ => if lt x y then y else x
  end.

Definition Math_min (x y : number) : number :=
  match x, y with
  | NaN, _ | _, NaN => NaN
  | _, _ => if lt y x then y else x
  end.

(** [Math.round]: nearest integer, halves towards [+Infinity]. *)
Definition Math_round (x : number) : number :=
  match x with
  | Fin q => of_Z (Qfloor (q + (1 # 2)))
  | _ => x
  end.

(** Same number: Leibniz on the special values, [Qeq] on the finite ones. *)
Definition same (x y : number) : Prop :=
  match x, y with
  | NaN, NaN | PInf, PInf | NInf, NInf => True
  | Fin a, Fin b => a == b
  | _, _ => False
  end.

Notation "x + y" := (add x y) : num_scope.
Notation "x - y" := (sub x y) : num_scope.
Notation "x * y" := (mul x y) : num_scope.
Notation "x / y" := (div x y) : num_scope.
Notation "x <? y" := (lt x y) : num_scope.
Notation "x <=? y" := (le x y) : num_scope.
Notation "x >? y" := (gt x y) : num_scope.
Notation "x >=? y" := (ge x y) : num_scope.
Notation "x === y" := (strict_eq x y) (at level 70, no associativity) : num_scope.

(** Integer literals denote finite numbers. *)
Definition of_num_int (n : Number.int) : option number :=
  Some (Fin (Qmake (Z.of_num_int n) 1)).

Definition to_num_int (x : number) : option Number.int :=
  match x with
  | Fin (Qmake z 1) => Some (Z.to_num_int z)
  | _ => None
  end.

Number Notation number of_num_int to_num_int : num_scope.

(** [nondecr x y]: going from [x] to [y] is not a decrease; a [NaN] on
    either side compares as no decrease, as [<] does. *)
Definition nondecr (x y : number) : Prop :=
  isNaN x = true \/ isNaN y = true \/ le x y = true.

End JsNumber.
Import JsNumber.

(** ** Threat scoring

    Over exact numbers: the sum of the six terms is not rounded before
    [Math.round], so where the exact sum is a half or next to one the score
    can differ by 1 from the one the runtime computes (see
    [Binary64.computeThreat]). *)

Module Threat.

Record Buckets : Type := mkBuckets {
  lt3 : number;
  gte3lt4 : number;
  gte4 : number
}.

Record NeoSummary : Type := mkNeoSummary {
  days : number;
  totalCount : number;
  hazardousCount : number;
  maxEstimatedDiameterMeters : number;
  minMissDistanceKm : number;
  buckets : Buckets
}.

Inductive Level : Type := LOW | MEDIUM | HIGH.

Record ThreatAssessment : Type := mkThreat {
  score : number;
  level : Level
}.

Local Open Scope num_scope.

Definition computeThreat (neo : NeoSummary) (issDistanceKm hoursToLaunch : number)
  : ThreatAssessment :=
  let missRisk :=
    if minMissDistanceKm neo === 0
    then 0
    else Math_max 0 (3 - minMissDistanceKm neo / 1000000) in
  let sizeRisk := Math_min 5 (maxEstimatedDiameterMeters neo / 100) in
  let issRisk := Math_max 0 (2 - issDistanceKm / 2000) in
  let launchRisk := Math_max 0 (2 - hoursToLaunch / 24) in
  let score :=
    Math_round
      (hazardousCount neo * 3 +
       totalCount neo * Fin (2 # 10) +
       missRisk * 4 +
       sizeRisk * 2 +
       issRisk * 2 +
       launchRisk * 1) in
  let level :=
    if score >=? 18 then HIGH else if score >=? 10 then MEDIUM else LOW in
  {| score := score; level := level |}.

End Threat.

(** ** Strings and [Number(string)] *)

Module JsString.

Local Open Scope char_scope.
Local Open Scope Z_scope.

Definition code (c : ascii) : Z := Z.of_nat (nat_of_ascii c).

Definition in_range (lo hi : ascii) (c : ascii) : bool :=
  (code lo <=? code c) && (code c <=? code hi).

(** [\d] of a regular expression, and DecimalDigit of the numeric grammar. *)
Definition is_digit (c : ascii) : bool := in_range "0" "9" c.

Definition digit_val (c : ascii) : Z :=
  if in_range "0" "9" c then code c - code "0"
  else if in_range "a" "f" c then code c - code "a" + 10
  else if in_range "A" "F" c then code c - code "A" + 10
  else 0.

Definition is_hex_digit (c : ascii) : bool :=
  in_range "0" "9" c || in_range "a" "f" c || in_range "A" "F" c.

Definition is_octal_digit (c : ascii) : bool := in_range "0" "7" c.
Definition is_binary_digit (c : ascii) : bool := in_range "0" "1" c.

(** White space and line terminators of the ASCII range. *)
Definition is_space (c : ascii) : bool :=
  in_range "009" "013" c || (code c =? 32).

Fixpoint span (p : ascii -> bool) (l : list ascii) : list ascii * list ascii :=
  match l with
  | c :: r =>
      if p c then let (a, b) := span p r in (c :: a, b) else ([], l)
  | [] => ([], [])
  end.

Fixpoint drop_spaces (l : list ascii) : list ascii :=
  match l with
  | c :: r => if is_space c then drop_spaces r else l
  | [] => []
  end.

Definition trim (l : list ascii) : list ascii :=
  rev (drop_spaces (rev (drop_spaces l))).

Definition digits_value (base : Z) (ds : list ascii) : Z :=
  fold_left (fun acc c => base * acc + digit_val c) ds 0.

(** ExponentPart, or nothing, up to the end of the text. *)
Definition parse_exponent (l : list ascii) : option Z :=
  match l with
  | [] => Some 0
  | c :: r =>
      if (code c =? code "e") || (code c =? code "E") then
        let '(sign, r') :=
          match r with
          | "+" :: r' => (1, r')
          | "-" :: r' => (-1, r')
          | _ => (1, r)
          end in
        match span is_digit r' with
        | ((_ :: _) as ds, []) => Some (sign * digits_value 10 ds)
        | _ => None
        end
      else None
  end.

(** StrUnsignedDecimalLiteral without [Infinity]:
    digits [. digits] [exponent], or [. digits [exponent]]. *)
Definition parse_unsigned_decimal (l : list ascii) : option Q :=
  let (ip, r1) := span is_digit l in
  let (fp, r2) :=
    match r1 with
    | "." :: r => span is_digit r
    | _ => ([], r1)
    end in
  match ip ++ fp with
  | [] => None
  | ds =>
      match parse_exponent r2 with
      | Some e =>
          Some (inject_Z (digits_value 10 ds) *
                Qpower (inject_Z 10) (e - Z.of_nat (List.length fp)))%Q
      | None => None
      end
  end.

(** NonDecimalIntegerLiteral: [0x], [0o], [0b] and their upper-case forms. *)
Definition parse_radix (l : list ascii) : option Z :=
  match l with
  | "0" :: p :: ((_ :: _) as ds) =>
      let go (base : Z) (ok : ascii -> bool) :=
        if forallb ok ds then Some (digits_value base ds) else None in
      if (code p =? code "x") || (code p =? code "X") then go 16 is_hex_digit
      else if (code p =? code "o") || (code p =? code "O") then go 8 is_octal_digit
      else if (code p =? code "b") || (code p =? code "B") then go 2 is_binary_digit
      else None
  | _ => None
  end.

Definition Infinity_text : list ascii := list_ascii_of_string "Infinity".

Definition ascii_list_eqb (a b : list ascii) : bool :=
  String.eqb (string_of_list_ascii a) (string_of_list_ascii b).

(** [Number(s)] for a string [s] (StringToNumber): surrounding white space is
    dropped, the empty text is [0], a text outside the numeric grammar is
    [NaN].  The value of a literal is kept exact: rounding to binary64, and
    with it overflow to [Infinity], is not modelled. *)
Definition Number_of_string (s : string) : number :=
  match trim (list_ascii_of_string s) with
  | [] => Fin 0
  | t =>
      match parse_radix t with
      | Some z => of_Z z
      | None =>
          let '(negative, body) :=
            match t with
            | "+" :: r => (false, r)
            | "-" :: r => (true, r)
            | _ => (false, t)
            end in
          if ascii_list_eqb body Infinity_text then
            if negative then NInf else PInf
          else
            match parse_unsigned_decimal body with
            | Some q => Fin (if negative then - q else q)%Q
            | None => NaN
            end
      end
  end.

(** [s.startsWith(p)] and [s.slice(n)] for [0 <= n]. *)
Definition startsWith (s p : string) : bool := String.prefix p s.

Definition slice_from (n : nat) (s : string) : string :=
  String.substring n (String.length s - n) s.

(** [s.slice(0, n)]. *)
Definition slice_to (n : nat) (s : string) : string :=
  string_of_list_ascii (firstn n (list_ascii_of_string s)).

(** ToBoolean on a string. *)
Definition nonempty (s : string) : bool :=
  match s with EmptyString => false | _ => true end.

End JsString.
Import JsString.

(** ** Dates *)

Module JsDate.

Local Open Scope char_scope.
Local Open Scope Z_scope.

Definition is_leap (y : Z) : bool :=
  (y mod 4 =? 0) && (negb (y mod 100 =? 0) || (y mod 400 =? 0)).

Definition days_in_month (y m : Z) : Z :=
  if m =? 2 then (if is_leap y then 29 else 28)
  else if (m =? 4) || (m =? 6) || (m =? 9) || (m =? 11) then 30 else 31.

(** Day number of a proleptic Gregorian date, 1970-01-01 being day 0. *)
Definition days_from_civil (y m d : Z) : Z :=
  let y' := if m <=? 2 then y - 1 else y in
  let era := y' / 400 in
  let yoe := y' - era * 400 in
  let mp := if m <=? 2 then m + 9 else m - 3 in
  let doy := (153 * mp + 2) / 5 + d - 1 in
  let doe := yoe * 365 + yoe / 4 - yoe / 100 + doy in
  era * 146097 + doe - 719468.

(** Year, month and day of month of a day number. *)
Definition civil_from_days (z : Z) : Z * Z * Z :=
  let z := z + 719468 in
  let era := z / 146097 in
  let doe := z - era * 146097 in
  let yoe := (doe - doe / 1460 + doe / 36524 - doe / 146096) / 365 in
  let doy := doe - (365 * yoe + yoe / 4 - yoe / 100) in
  let mp := (5 * doy + 2) / 153 in
  let d := doy - (153 * mp + 2) / 5 + 1 in
  let m := if mp <? 10 then mp + 3 else mp - 9 in
  (yoe + era * 400 + (if m <=? 2 then 1 else 0), m, d).

Definition msPerDay : Z := 86400000.

(** MakeDay with a 0-based month, and TimeClip. *)
Definition MakeDay (year month dt : Z) : Z :=
  days_from_civil (year + month / 12) (month mod 12 + 1) 1 + dt - 1.

Definition TimeClip (t : Z) : option Z :=
  if Z.abs t <=? 8640000000000000 then Some t else None.

(** ToIntegerOrInfinity on a finite number: truncation towards zero. *)
Definition Qtrunc (q : Q) : Z := Z.quot (Qnum q) (Zpos (Qden q)).

(** *** Parsing *)

Definition take_digits (n : nat) (l : list ascii) : option (Z * list ascii) :=
  let ds := firstn n l in
  if (List.length ds =? n)%nat && forallb is_digit ds
  then Some (digits_value 10 ds, skipn n l) else None.

Definition expect (c : ascii) (l : list ascii) : option (list ascii) :=
  match l with
  | x :: r => if Ascii.eqb x c then Some r else None
  | [] => None
  end.

(** Milliseconds of a fraction of a second: its first three digits. *)
Definition fraction_ms (ds : list ascii) : Z :=
  digits_value 10 (firstn 3 (ds ++ ["0"; "0"; "0"])).

(** The offset [Z] or [+HH:mm] / [-HH:mm], in minutes, up to the end. *)
Definition parse_offset (l : list ascii) : option Z :=
  match l with
  | ["Z"] => Some 0
  | s :: r =>
      sign ← (if Ascii.eqb s "+" then Some 1
              else if Ascii.eqb s "-" then Some (-1) else None);
      '(hh, r) ← take_digits 2 r;
      r ← expect ":" r;
      '(mm, r) ← take_digits 2 r;
      match r with
      | [] => if (hh <=? 23) && (mm <=? 59)
              then Some (sign * (hh * 60 + mm)) else None
      | _ => None
      end
  | [] => None
  end.

(** [HH:mm[:ss[.fraction]]] followed by an offset; milliseconds since
    midnight UTC.  A time without offset is local time and is not read. *)
Definition parse_time (l : list ascii) : option Z :=
  '(hh, l) ← take_digits 2 l;
  l ← expect ":" l;
  '(mm, l) ← take_digits 2 l;
  '(ss, ms, l) ←
    match l with
    | ":" :: l1 =>
        '(ss, l2) ← take_digits 2 l1;
        match l2 with
        | "." :: l3 =>
            match span is_digit l3 with
            | ((_ :: _) as ds, l4) => Some (ss, fraction_ms ds, l4)
            | _ => None
            end
        | _ => Some (ss, 0, l2)
        end
    | _ => Some (0, 0, l)
    end;
  off ← parse_offset l;
  if ((hh <=? 23) || ((hh =? 24) && (mm =? 0) && (ss =? 0) && (ms =? 0)))
     && (mm <=? 59) && (ss <=? 59)
  then Some (((hh * 60 + mm) * 60 + ss) * 1000 + ms - off * 60000)
  else None.

(** [Date.parse] on the date-time string format [YYYY-MM-DD] with an
    optional [THH:mm:ss.sssZ] part; a day of month up to 31 is taken in any
    month and carried over, as the runtime does.  Other formats are
    implementation-defined and read as unparseable here. *)
Definition Date_parse (s : string) : option Z :=
  let l := list_ascii_of_string s in
  '(y, l) ← take_digits 4 l;
  l ← expect "-" l;
  '(m, l) ← take_digits 2 l;
  l ← expect "-" l;
  '(d, l) ← take_digits 2 l;
  time ← match l with
         | [] => Some 0
         | "T" :: l => parse_time l
         | _ => None
         end;
  if (1 <=? m) && (m <=? 12) && (1 <=? d) && (d <=? 31)
  then TimeClip (MakeDay y (m - 1) d * msPerDay + time)
  else None.

(** *** Formatting *)

Definition digit_char (k : Z) : ascii :=
  ascii_of_nat (48 + Z.to_nat k).

(** The last [w] decimal digits of [z]. *)
Fixpoint decimal (w : nat) (z : Z) : list ascii :=
  match w with
  | O => []
  | S w' => decimal w' (z / 10) ++ [digit_char (z mod 10)]
  end.

(** The year of [toISOString]: four digits from 0 to 9999, otherwise a sign
    and six digits. *)
Definition iso_year (y : Z) : list ascii :=
  if (0 <=? y) && (y <=? 9999) then decimal 4 y
  else (if y <? 0 then "-" else "+") :: decimal 6 (Z.abs y).

Definition iso_date (t : Z * Z * Z) : list ascii :=
  let '(y, m, d) := t in
  iso_year y ++ "-" :: decimal 2 m ++ "-" :: decimal 2 d.

Definition toISOString (tv : Z) : string :=
  let ms := tv mod msPerDay in
  string_of_list_ascii
    (iso_date (civil_from_days (tv / msPerDay)) ++
     "T" :: decimal 2 (ms / 3600000) ++
     ":" :: decimal 2 (ms / 60000 mod 60) ++
     ":" :: decimal 2 (ms / 1000 mod 60) ++
     "." :: decimal 3 (ms mod 1000) ++ ["Z"]).

(** *** Date objects: a time value, or [None] for an invalid date *)

Definition getUTCDate (t : option Z) : number :=
  match t with
  | Some tv => of_Z (snd (civil_from_days (tv / msPerDay)))
  | None => NaN
  end.

Definition setUTCDate (t : option Z) (dt : number) : option Z :=
  match t, dt with
  | Some tv, Fin q =>
      let '(y, m, _) := civil_from_days (tv / msPerDay) in
      TimeClip (MakeDay y (m - 1) (Qtrunc q) * msPerDay + tv mod msPerDay)
  | _, _ => None
  end.

(** [addDays]; [None] when [toISOString] throws on an invalid date.  The
    day of the month and [days] are added exactly; the runtime rounds that
    sum to binary64, which is the same for whole day counts and for counts
    with a short binary fraction, and can reach the next whole number for a
    count just below one. *)
Definition addDays (yyyyMmDd : string) (days : number) : option string :=
  let d := Date_parse (yyyyMmDd ++ "T00:00:00Z") in
  let d := setUTCDate d (getUTCDate d + days)%num in
  match d with
  | Some tv => Some (slice_to 10 (toISOString tv))
  | None => None
  end.

(** [/^\d{4}-\d{2}-\d{2}$/.test(s)] *)
Definition is_date_shaped (s : string) : bool :=
  match list_ascii_of_string s with
  | [y1; y2; y3; y4; h1; m1; m2; h2; d1; d2] =>
      forallb is_digit [y1; y2; y3; y4; m1; m2; d1; d2]
      && Ascii.eqb h1 "-" && Ascii.eqb h2 "-"
  | _ => false
  end.

(** *** Calendar dates in the words of the specification *)

Definition valid_date (t : Z * Z * Z) : Prop :=
  let '(y, m, d) := t in 1 <= m <= 12 /\ 1 <= d <= days_in_month y m.

(** The day after a calendar date. *)
Definition next_day (t : Z * Z * Z) : Z * Z * Z :=
  let '(y, m, d) := t in
  if d <? days_in_month y m then (y, m, d + 1)
  else if m <? 12 then (y, m + 1, 1)
  else (y + 1, 1, 1).

(** [plus_days k t]: the date [k] days after [t]. *)
Definition plus_days (k : nat) (t : Z * Z * Z) : Z * Z * Z :=
  Nat.iter k next_day t.

(** A date of the years 0000 to 9999 written [YYYY-MM-DD]. *)
Definition format_date (t : Z * Z * Z) : string :=
  let '(y, m, d) := t in
  string_of_list_ascii (decimal 4 y ++ "-" :: decimal 2 m ++ "-" :: decimal 2 d).

Definition year_of (t : Z * Z * Z) : Z := fst (fst t).

Definition day_number (t : Z * Z * Z) : Z :=
  let '(y, m, d) := t in days_from_civil y m d.

End JsDate.
Import JsDate.

(** ** Command-line arguments *)

Module Cli.

Local Open Scope string_scope.

(** A value returned, or an [Error] thrown with its message. *)
Inductive result (A : Type) : Type :=
| Ok (a : A)
| Throw (message : string).
Arguments Ok {A} a.
Arguments Throw {A} message.

Record Args : Type := mkArgs {
  city : string;
  days : number;
  mode : string;
  date : string
}.

(** [parsed[key] = value] on the plain object [parsed]: every key becomes a
    property of its own, except [__proto__], which reaches the setter
    inherited from [Object.prototype]; that setter drops a string. *)
Definition assign (key value : string) (parsed : gmap string string)
  : gmap string string :=
  if String.eqb key "__proto__" then parsed else <[key := value]> parsed.

(** The loop over [args]: [--key value] stores the value, a [--key] followed
    by nothing, by an empty token or by another option stores ["true"];
    tokens that are not options are skipped. *)
Fixpoint scan (args : list string) (parsed : gmap string string)
  : gmap string string :=
  match args with
  | [] => parsed
  | token :: rest =>
      if negb (startsWith token "--") then scan rest parsed
      else
        let key := slice_from 2 token in
        match rest with
        | value :: rest' =>
            if nonempty value && negb (startsWith value "--")
            then scan rest' (assign key value parsed)
            else scan rest (assign key "true" parsed)
        | [] => assign key "true" parsed
        end
  end.

(** [x ?? d] *)
Definition nullish {A : Type} (x : option A) (d : A) : A :=
  match x with Some a => a | None => d end.

Definition quote : string := String (ascii_of_nat 34) EmptyString.

Definition missing_city : string :=
  "Missing required argument: --city " ++ quote ++ "City Name" ++ quote.
Definition invalid_days : string :=
  "Missing or invalid argument: --days <number>".
Definition invalid_mode : string :=
  "Invalid --mode. Use stealth or verbose.".
Definition invalid_date : string :=
  "Invalid --date. Use YYYY-MM-DD.".

(** [parseArgs(argv)]; [now] is the time value read by [new Date()]. *)
Definition parseArgs (now : Z) (argv : list string) : result Args :=
  let parsed := scan (skipn 2 argv) ∅ in
  let city := parsed !! "city" in
  let days := Number_of_string (nullish (parsed !! "days") "3") in
  let mode := nullish (parsed !! "mode") "stealth" in
  let date := nullish (parsed !! "date") (slice_to 10 (toISOString now)) in
  match city with
  | None => Throw missing_city
  | Some city =>
      if negb (nonempty city) then Throw missing_city
      else if negb (truthy days) || isNaN days || lt days 1 then
        Throw invalid_days
      else if negb (String.eqb mode "stealth") && negb (String.eqb mode "verbose")
      then Throw invalid_mode
      else if negb (is_date_shaped date) then Throw invalid_date
      else Ok {| city := city; days := days; mode := mode; date := date |}
  end.

End Cli.

(** ** Near-earth-object feed *)

Module Neo.
Import Threat.

Record MissDistance : Type := mkMissDistance {
  kilometers : string
}.

Record CloseApproach : Type := mkCloseApproach {
  close_approach_date : string;
  miss_distance : option MissDistance
}.

Record DiameterMeters : Type := mkDiameterMeters {
  estimated_diameter_min : number;
  estimated_diameter_max : number
}.

Record EstimatedDiameter : Type := mkEstimatedDiameter {
  meters : option DiameterMeters
}.

(** Fields read through [?.] may be absent. *)
Record NasaNeo : Type := mkNasaNeo {
  name : string;
  is_potentially_hazardous_asteroid : bool;
  estimated_diameter : option EstimatedDiameter;
  close_approach_data : option (list CloseApproach)
}.

(** [near_earth_objects] in key order; a value that is not an array is [None]. *)
Record NasaNeoFeed : Type := mkNasaNeoFeed {
  near_earth_objects : option (list (string * option (list NasaNeo)))
}.

Local Open Scope num_scope.

(** The first loop: [all.push(...arr)] for every key holding an array. *)
Definition collect (feed : NasaNeoFeed) : list NasaNeo :=
  match near_earth_objects feed with
  | None => []
  | Some entries =>
      fold_left
        (fun all kv => match snd kv with Some arr => all ++ arr | None => all end)
        entries []
  end.

(** [neo.estimated_diameter?.meters?.estimated_diameter_max] *)
Definition diameter_max (neo : NasaNeo) : option number :=
  match estimated_diameter neo with
  | Some ed =>
      match meters ed with
      | Some m => Some (estimated_diameter_max m)
      | None => None
      end
  | None => None
  end.

(** [neo.close_approach_data?.[0]?.miss_distance?.kilometers] *)
Definition first_miss (neo : NasaNeo) : option string :=
  match close_approach_data neo with
  | Some (ca :: _) =>
      match miss_distance ca with
      | Some md => Some (kilometers md)
      | None => None
      end
  | _ => None
  end.

(** [miss ? Number(miss) : Number.POSITIVE_INFINITY] *)
Definition missKm (neo : NasaNeo) : number :=
  match first_miss neo with
  | Some miss => if nonempty miss then Number_of_string miss else PInf
  | None => PInf
  end.

(** The mutable locals of [summarizeNeos]. *)
Record Counters : Type := mkCounters {
  c_totalCount : number;
  c_hazardousCount : number;
  c_maxEstimatedDiameterMeters : number;
  c_minMissDistanceKm : number;
  c_lt3 : number;
  c_gte3lt4 : number;
  c_gte4 : number
}.

Definition counters0 : Counters :=
  {| c_totalCount := 0;
     c_hazardousCount := 0;
     c_maxEstimatedDiameterMeters := 0;
     c_minMissDistanceKm := PInf;
     c_lt3 := 0;
     c_gte3lt4 := 0;
     c_gte4 := 0 |}.

Definition incr (x : number) : number := x + 1.

(** One iteration of [for (const neo of all)]. *)
Definition visit (c : Counters) (neo : NasaNeo) : Counters :=
  let totalCount := incr (c_totalCount c) in
  let hazardousCount :=
    if is_potentially_hazardous_asteroid neo
    then incr (c_hazardousCount c) else c_hazardousCount c in
  let maxEstimatedDiameterMeters :=
    match diameter_max neo with
    | Some d =>
        if d >? c_maxEstimatedDiameterMeters c
        then d else c_maxEstimatedDiameterMeters c
    | None => c_maxEstimatedDiameterMeters c
    end in
  let magGuess :=
    if is_potentially_hazardous_asteroid neo then Fin (40 # 10) else Fin (29 # 10) in
  let '(lt3, gte3lt4, gte4) :=
    if magGuess <? 3 then (incr (c_lt3 c), c_gte3lt4 c, c_gte4 c)
    else if magGuess <? 4 then (c_lt3 c, incr (c_gte3lt4 c), c_gte4 c)
    else (c_lt3 c, c_gte3lt4 c, incr (c_gte4 c)) in
  let missKm := missKm neo in
  let minMissDistanceKm :=
    if negb (isNaN missKm) && (missKm <? c_minMissDistanceKm c)
    then missKm else c_minMissDistanceKm c in
  {| c_totalCount := totalCount;
     c_hazardousCount := hazardousCount;
     c_maxEstimatedDiameterMeters := maxEstimatedDiameterMeters;
     c_minMissDistanceKm := minMissDistanceKm;
     c_lt3 := lt3;
     c_gte3lt4 := gte3lt4;
     c_gte4 := gte4 |}.

Definition summarizeNeos (feed : NasaNeoFeed) (days : number) : NeoSummary :=
  let c := fold_left visit (collect feed) counters0 in
  let minMissDistanceKm :=
    if negb (isFinite (c_minMissDistanceKm c)) then 0 else c_minMissDistanceKm c in
  {| Threat.days := days;
     totalCount := c_totalCount c;
     hazardousCount := c_hazardousCount c;
     maxEstimatedDiameterMeters := c_maxEstimatedDiameterMeters c;
     minMissDistanceKm := minMissDistanceKm;
     buckets :=
       {| lt3 := c_lt3 c; gte3lt4 := c_gte3lt4 c; gte4 := c_gte4 c |} |}.

End Neo.


(** *** The summary in the words of the specification *)

Module NeoSpec.
Import Neo.

(** Number of objects of a collection, as a JavaScript number. *)
Definition count (l : list NasaNeo) : number :=
  of_Z (Z.of_nat (List.length l)).

Definition hazardous (l : list NasaNeo) : list NasaNeo :=
  filter is_potentially_hazardous_asteroid l.

Definition non_hazardous (l : list NasaNeo) : list NasaNeo :=
  filter (fun neo => negb (is_potentially_hazardous_asteroid neo)) l.

(** The distance an object contributes: the kilometers text of its first
    close-approach entry, when present, non-empty and read as a finite
    number. *)
Definition valid_distance (neo : NasaNeo) : option Q :=
  match first_miss neo with
  | Some miss =>
      if nonempty miss then
        match Number_of_string miss with
        | Fin q => Some q
        | _ => None
        end
      else None
  | None => None
  end.

Definition valid_distances (l : list NasaNeo) : list Q :=
  flat_map (fun neo => match valid_distance neo with
                       | Some q => [q]
                       | None => []
                       end) l.

Definition qmin (a b : Q) : Q := if Qle_bool a b then a else b.

(** Minimum of the contributed distances, [0] when there is none. *)
Definition min_distance (l : list NasaNeo) : number :=
  match valid_distances l with
  | [] => Fin 0
  | q :: qs => Fin (fold_left qmin qs q)
  end.

(** The update of the running minimum in one loop iteration. *)
Definition running_min (m x : number) : number :=
  if negb (isNaN x) && lt x m then x else m.

(** The running minimum over contributed distances, [None] before the first. *)
Definition opt_min (o : option Q) (q : Q) : option Q :=
  Some (match o with None => q | Some p => qmin p q end).

(** A running minimum of the loop against one over contributed distances. *)
Definition tracks (m : number) (o : option Q) : Prop :=
  match m, o with
  | PInf, None => True
  | Fin a, Some b => a == b
  | _, _ => False
  end.

End NeoSpec.

(** ** Great-circle distance, over the reals *)

Module Geo.

Local Open Scope R_scope.

Definition toRad (deg : R) : R := deg * PI / 180.

(** [Math.atan2(y, x)]; signed zeros are not distinguished. *)
Definition atan2 (y x : R) : R :=
  if Rlt_dec 0 x then atan (y / x)
  else if Rlt_dec x 0 then
    if Rle_dec 0 y then atan (y / x) + PI else atan (y / x) - PI
  else if Rlt_dec 0 y then PI / 2
  else if Rlt_dec y 0 then - PI / 2
  else 0.

Definition haversineKm (lat1 lon1 lat2 lon2 : R) : R :=
  let R := 6371 in
  let dLat := toRad (lat2 - lat1) in
  let dLon := toRad (lon2 - lon1) in
  let a :=
    sin (dLat / 2) * sin (dLat / 2) +
    cos (toRad lat1) * cos (toRad lat2) * sin (dLon / 2) * sin (dLon / 2) in
  let c := 2 * atan2 (sqrt a) (sqrt (1 - a)) in
  R * c.

End Geo.

(** ** The run: adapters, orchestration, persistence

    The clients built by [makeClient] differ only in their base URL and are
    represented by the service they reach; what the logger prints is not
    part of the model, only the error line of a failed run is. *)

Module Pipeline.
Import Cli Threat Neo.

Local Open Scope string_scope.
Local Open Scope Z_scope.

Record NominatimResult : Type := mkNominatimResult {
  lat : string;
  lon : string;
  display_name : string
}.

Record IssPosition : Type := mkIssPosition {
  iss_latitude : string;
  iss_longitude : string
}.

Record IssNowResponse : Type := mkIssNowResponse {
  message : string;
  timestamp : number;
  iss_position : IssPosition
}.

Record SpaceXNextLaunch : Type := mkSpaceXNextLaunch {
  launch_name : string;
  date_utc : string;
  details : option string;
  links_webcast : option string
}.

Record NasaApod : Type := mkNasaApod {
  apod_date : string;
  apod_title : string;
  explanation : string;
  media_type : string;
  apod_url : string
}.

Record Location : Type := mkLocation {
  loc_city : string;
  displayName : string;
  latitude : number;
  longitude : number
}.

Record IssNow : Type := mkIssNow {
  now_latitude : number;
  now_longitude : number;
  now_timestamp : number
}.

Record BriefingInput : Type := mkBriefingInput {
  in_city : string;
  in_days : number;
  in_date : string;
  in_mode : string
}.

Record BriefingIss : Type := mkBriefingIss {
  b_latitude : number;
  b_longitude : number;
  distanceKm : number;
  b_timestamp : number
}.

Record BriefingLaunch : Type := mkBriefingLaunch {
  b_name : string;
  dateUtc : string;
  b_hoursToLaunch : number;
  webcast : option string
}.

Record BriefingApod : Type := mkBriefingApod {
  b_date : string;
  b_title : string;
  mediaType : string;
  b_url : string
}.

Record Briefing : Type := mkBriefing {
  generatedAt : string;
  input : BriefingInput;
  location : Location;
  iss : BriefingIss;
  nextLaunch : BriefingLaunch;
  apod : BriefingApod;
  neo : NeoSummary;
  threat : ThreatAssessment
}.

(** The five upstream calls, by the name [timed] gives them. *)
Inductive Adapter : Type :=
| NominatimSearch
| IssNowCall
| SpaceXNext
| NasaApodCall
| NasaNeoFeedCall.

Definition adapter_eqb (a b : Adapter) : bool :=
  match a, b with
  | NominatimSearch, NominatimSearch
  | IssNowCall, IssNowCall
  | SpaceXNext, SpaceXNext
  | NasaApodCall, NasaApodCall
  | NasaNeoFeedCall, NasaNeoFeedCall => true
  | _, _ => false
  end.

(** What a GET comes back with: the client never throws on a status, so a
    rejection is a transport failure. *)
Inductive Http (T : Type) : Type :=
| Rejects
| Responds (status : Z) (data : T).
Arguments Rejects {T}.
Arguments Responds {T} status data.

(** Everything outside the script: the five services, the environment
    variable, the clock readings, the order in which the four parallel calls
    settle, and whether the file can be written. *)
Record Env : Type := mkEnv {
  nominatim_search : string -> Http (option (list NominatimResult));
  iss_now : Http IssNowResponse;
  spacex_next : Http SpaceXNextLaunch;
  nasa_apod : string -> string -> Http NasaApod;
  nasa_neo_feed : string -> string -> string -> Http NasaNeoFeed;
  NASA_API_KEY : option string;
  clock_args : Z;
  clock_launch : Z;
  clock_generated : Z;
  settle_order : list Adapter;
  write_error : option string
}.

(** What the run changes: the requests sent and the files written. *)
Record World : Type := mkWorld {
  requests : list Adapter;
  files : gmap string Briefing
}.

(** Computations that change the world and may throw. *)
Definition M (A : Type) : Type := World -> result A * World.

Definition ret {A : Type} (a : A) : M A := fun w => (Ok a, w).

Definition throw {A : Type} (msg : string) : M A := fun w => (Throw msg, w).

Definition bind {A B : Type} (m : M A) (k : A -> M B) : M B :=
  fun w =>
    match m w with
    | (Ok a, w') => k a w'
    | (Throw msg, w') => (Throw msg, w')
    end.

Notation "'await' x ':=' m 'in' k" := (bind m (fun x => k))
  (at level 10, x name, m at level 100, k at level 200).
Notation "'await' ' p ':=' m 'in' k" :=
  (bind m (fun x => match x with p => k end))
  (at level 10, p pattern, m at level 100, k at level 200).

Definition lift {A : Type} (r : result A) : M A := fun w => (r, w).

(** The GET itself: the request goes out, then the answer is known. *)
Definition http_get {T : Type} (a : Adapter) (answer : Http T) : M (Z * T) :=
  fun w =>
    let w' := {| requests := requests w ++ [a]; files := files w |} in
    match answer with
    | Rejects => (Throw "Network Error", w')
    | Responds status data => (Ok (status, data), w')
    end.

(** [timed]: any failure of [fn] becomes [name failed]. *)
Definition timed {T : Type} (name : string) (fn : M (Z * T)) : M (Z * T) :=
  fun w =>
    match fn w with
    | (Ok res, w') => (Ok res, w')
    | (Throw _, w') => (Throw (name ++ " failed"), w')
    end.

Definition getCityLocation (env : Env) (city : string) : M Location :=
  await '(status, data) :=
    timed "Nominatim search"
      (http_get NominatimSearch (nominatim_search env city)) in
  if status >=? 400 then throw ("Nominatim HTTP " ++ pretty status)
  else
    match data with
    | Some (first :: _) =>
        let latitude := Number_of_string (lat first) in
        let longitude := Number_of_string (lon first) in
        if isNaN latitude || isNaN longitude
        then throw ("Invalid coordinates for: " ++ city)
        else ret {| loc_city := city;
                    displayName := display_name first;
                    latitude := latitude;
                    longitude := longitude |}
    | _ => throw ("City not found: " ++ city)
    end.

Definition getIssNow (env : Env) : M IssNow :=
  await '(status, data) := timed "ISS now" (http_get IssNowCall (iss_now env)) in
  if status >=? 400 then throw ("ISS HTTP " ++ pretty status)
  else
    let lat := Number_of_string (iss_latitude (iss_position data)) in
    let lon := Number_of_string (iss_longitude (iss_position data)) in
    if isNaN lat || isNaN lon then throw "Invalid ISS coordinates"
    else ret {| now_latitude := lat;
                now_longitude := lon;
                now_timestamp := timestamp data |}.

Definition getSpaceXNext (env : Env) : M SpaceXNextLaunch :=
  await '(status, data) :=
    timed "SpaceX next" (http_get SpaceXNext (spacex_next env)) in
  if status >=? 400 then throw ("SpaceX HTTP " ++ pretty status)
  else ret data.

Definition getApod (env : Env) (apiKey date : string) : M NasaApod :=
  await '(status, data) :=
    timed "NASA APOD" (http_get NasaApodCall (nasa_apod env apiKey date)) in
  if status >=? 400 then throw ("APOD HTTP " ++ pretty status)
  else ret data.

Definition getNeoFeed (env : Env) (apiKey startDate endDate : string)
  : M NasaNeoFeed :=
  await '(status, data) := timed "NASA NEO feed"
      (http_get NasaNeoFeedCall (nasa_neo_feed env apiKey startDate endDate)) in
  if status >=? 400 then throw ("NEO HTTP " ++ pretty status)
  else ret data.

(** *** [Promise.all] over the four calls *)

(** Run a call to its end and keep its outcome. *)
Definition settle {A : Type} (m : M A) : M (result A) :=
  fun w => let (r, w') := m w in (Ok r, w').

Definition rejection {A : Type} (r : result A) : option string :=
  match r with Ok _ => None | Throw msg => Some msg end.

(** The rejection [Promise.all] reports: that of the call that settles
    first among the failed ones. *)
Definition first_rejection (order : list Adapter)
    (outcomes : list (Adapter * option string)) : option string :=
  let failed_of (a : Adapter) :=
    match find (fun o => adapter_eqb (fst o) a) outcomes with
    | Some (_, Some msg) => Some msg
    | _ => None
    end in
  match
    find (fun a => match failed_of a with Some _ => true | None => false end) order
  with
  | Some a => failed_of a
  | None =>
      match
        find (fun o => match snd o with Some _ => true | None => false end) outcomes
      with
      | Some (_, r) => r
      | None => None
      end
  end.

(** All four calls are started, in array order; the join yields the four
    values or throws the first rejection. *)
Definition all4 {A B C D : Type} (order : list Adapter)
    (a : M A) (b : M B) (c : M C) (d : M D) : M (A * B * C * D) :=
  await ra := settle a in
  await rb := settle b in
  await rc := settle c in
  await rd := settle d in
  match ra, rb, rc, rd with
  | Ok x, Ok y, Ok z, Ok u => ret (x, y, z, u)
  | _, _, _, _ =>
      throw (nullish
               (first_rejection order
                  [(IssNowCall, rejection ra); (SpaceXNext, rejection rb);
                   (NasaApodCall, rejection rc); (NasaNeoFeedCall, rejection rd)])
               EmptyString)
  end.

(** [fs.writeFile(path, JSON.stringify(briefing, null, 2))] *)
Definition writeFile (env : Env) (path : string) (content : Briefing) : M unit :=
  fun w =>
    match write_error env with
    | Some msg => (Throw msg, w)
    | None =>
        (Ok tt, {| requests := requests w;
                   files := <[path := content]> (files w) |})
    end.

(** [launchMs] and [hoursToLaunch] of [main]. *)
Definition launchMs (date_utc : string) : number :=
  match Date_parse date_utc with
  | Some t => of_Z t
  | None => NaN
  end.

Definition hoursToLaunch (date_utc : string) (now : Z) : number :=
  if isFinite (launchMs date_utc)
  then ((launchMs date_utc - of_Z now) / 3600000)%num
  else 0%num.

(** [neoDays], [startDate] and [endDate] of [main]; the end date is [None]
    when [addDays] throws. *)
Definition neoDays (days : number) : number := Math_min days 7%num.

Definition feed_range (date : string) (days : number) : string * option string :=
  (date, addDays date (neoDays days - 1)%num).

(** The whole days in a non-negative number of days. *)
Definition whole_days (x : number) : nat :=
  match x with
  | Fin q => Z.to_nat (Qfloor q)
  | _ => O
  end.

Section Main.

(** The distance function on JavaScript numbers; its trigonometry has no
    exact rational counterpart, so the run is stated for any such function
    (the formula itself is [Geo.haversineKm]). *)
Variable haversineKm : number -> number -> number -> number -> number.

Definition main (env : Env) (argv : list string) : M unit :=
  await args := lift (parseArgs (clock_args env) argv) in
  let nasaKey := nullish (NASA_API_KEY env) "DEMO_KEY" in
  let neoDays := neoDays (Cli.days args) in
  let startDate := fst (feed_range (date args) (Cli.days args)) in
  await endDate :=
    lift (match snd (feed_range (date args) (Cli.days args)) with
          | Some e => Ok e
          | None => Throw "Invalid time value"
          end) in
  await location := getCityLocation env (city args) in
  await '(issNow, nextLaunch, apod, neoFeed) :=
    all4 (settle_order env)
      (getIssNow env)
      (getSpaceXNext env)
      (getApod env nasaKey (date args))
      (getNeoFeed env nasaKey startDate endDate) in
  let issDistanceKm :=
    haversineKm (latitude location) (longitude location)
      (now_latitude issNow) (now_longitude issNow) in
  let hoursToLaunch := hoursToLaunch (date_utc nextLaunch) (clock_launch env) in
  let neoSummary := summarizeNeos neoFeed neoDays in
  let threat := computeThreat neoSummary issDistanceKm hoursToLaunch in
  let briefing :=
    {| generatedAt := toISOString (clock_generated env);
       input := {| in_city := city args; in_days := Cli.days args;
                   in_date := date args; in_mode := mode args |};
       location := location;
       iss := {| b_latitude := now_latitude issNow;
                 b_longitude := now_longitude issNow;
                 distanceKm := issDistanceKm;
                 b_timestamp := now_timestamp issNow |};
       nextLaunch := {| b_name := launch_name nextLaunch;
                        dateUtc := date_utc nextLaunch;
                        b_hoursToLaunch := hoursToLaunch;
                        webcast := links_webcast nextLaunch |};
       apod := {| b_date := apod_date apod; b_title := apod_title apod;
                  mediaType := media_type apod; b_url := apod_url apod |};
       neo := neoSummary;
       threat := threat |} in
  writeFile env "briefing.json" briefing.

(** What is left when the process ends. *)
Record Outcome : Type := mkOutcome {
  world : World;
  stderr : list string;
  exit_code : Z
}.

(** [main().catch(err => { console.error("Error:", ...); process.exit(1) })] *)
Definition run (env : Env) (argv : list string) (w : World) : Outcome :=
  match main env argv w with
  | (Ok _, w') => {| world := w'; stderr := []; exit_code := 0 |}
  | (Throw msg, w') =>
      {| world := w'; stderr := ["Error: " ++ msg]; exit_code := 1 |}
  end.

End Main.

(** *** Views used to state properties of a run *)

Definition world0 : World := {| requests := []; files := ∅ |}.

(** What a call yields, the world left aside. *)
Definition outcome {A : Type} (m : M A) : result A := fst (m world0).

(** The world after one more request. *)
Definition sent (a : Adapter) (w : World) : World :=
  {| requests := requests w ++ [a]; files := files w |}.

(** The world once all five requests have gone out. *)
Definition all_sent (w : World) : World :=
  sent NasaNeoFeedCall
    (sent NasaApodCall
       (sent SpaceXNext (sent IssNowCall (sent NominatimSearch w)))).

(** A call that fails whatever the world is. *)
Definition fails {A : Type} (m : M A) : Prop :=
  exists msg : string, outcome m = Throw msg.

(** The environment with another launch timestamp in the same response. *)
Definition with_launch_date (env : Env) (s : string) : Env :=
  {| nominatim_search := nominatim_search env;
     iss_now := iss_now env;
     spacex_next :=
       match spacex_next env with
       | Rejects => Rejects
       | Responds status launch =>
           Responds status
             {| launch_name := launch_name launch;
                date_utc := s;
                details := details launch;
                links_webcast := links_webcast launch |}
       end;
     nasa_apod := nasa_apod env;
     nasa_neo_feed := nasa_neo_feed env;
     NASA_API_KEY := NASA_API_KEY env;
     clock_args := clock_args env;
     clock_launch := clock_launch env;
     clock_generated := clock_generated env;
     settle_order := settle_order env;
     write_error := write_error env |}.

End Pipeline.

(** *** Sample feeds *)

Module Fixtures.
Import Neo.

(** An object with the given hazard flag, maximum diameter and the kilometers
    text of its only close approach. *)
Definition object (hazard : bool) (diameter : number) (km : string) : NasaNeo :=
  {| name := "(2024 AB)";
     is_potentially_hazardous_asteroid := hazard;
     estimated_diameter :=
       Some {| meters := Some {| estimated_diameter_min := Fin 0;
                                 estimated_diameter_max := diameter |} |};
     close_approach_data :=
       Some [ {| close_approach_date := "2024-01-01";
                 miss_distance := Some {| kilometers := km |} |} ] |}.

Definition feed_of (objects : list NasaNeo) : NasaNeoFeed :=
  {| near_earth_objects := Some [("2024-01-01"%string, Some objects)] |}.

(** The single-object feed of the specification's worked example. *)
Definition feed_single : NasaNeoFeed :=
  feed_of [object false (of_Z 50) "5000000"].

Definition feed_mixed : NasaNeoFeed :=
  feed_of [object true (of_Z 320) "7300000.5";
           object false (of_Z 45) EmptyString;
           object false (of_Z 12) "n/a";
           object true (of_Z 80) "1250000"].

Definition feed_negative : NasaNeoFeed :=
  feed_of [object false (of_Z 50) "-5"].

Definition feed_minus_infinity : NasaNeoFeed :=
  feed_of [object false (of_Z 50) "-Infinity";
           object false (of_Z 50) "5"].

(** A run in which every service answers. *)
Definition env_ok : Pipeline.Env :=
  {| Pipeline.nominatim_search := fun _ =>
       Pipeline.Responds 200
         (Some [ {| Pipeline.lat := "18.5204"; Pipeline.lon := "73.8567";
                    Pipeline.display_name := "Pune, Maharashtra, India" |} ]);
     Pipeline.iss_now :=
       Pipeline.Responds 200
         {| Pipeline.message := "success";
            Pipeline.timestamp := of_Z 1704067200;
            Pipeline.iss_position :=
              {| Pipeline.iss_latitude := "-12.5";
                 Pipeline.iss_longitude := "101.25" |} |};
     Pipeline.spacex_next :=
       Pipeline.Responds 200
         {| Pipeline.launch_name := "USSF-44";
            Pipeline.date_utc := "2024-01-02T13:41:00.000Z";
            Pipeline.details := None;
            Pipeline.links_webcast := None |};
     Pipeline.nasa_apod := fun _ d =>
       Pipeline.Responds 200
         {| Pipeline.apod_date := d;
            Pipeline.apod_title := "Orion";
            Pipeline.explanation := "A nebula.";
            Pipeline.media_type := "image";
            Pipeline.apod_url := "https://apod.nasa.gov/image.jpg" |};
     Pipeline.nasa_neo_feed := fun _ _ _ => Pipeline.Responds 200 feed_mixed;
     Pipeline.NASA_API_KEY := None;
     Pipeline.clock_args := 1704067200000;
     Pipeline.clock_launch := 1704067201000;
     Pipeline.clock_generated := 1704067202000;
     Pipeline.settle_order :=
       [Pipeline.SpaceXNext; Pipeline.IssNowCall;
        Pipeline.NasaNeoFeedCall; Pipeline.NasaApodCall];
     Pipeline.write_error := None |}.

(** The same run with a geocoder that finds nothing. *)
Definition env_no_city : Pipeline.Env :=
  {| Pipeline.nominatim_search := fun _ => Pipeline.Responds 200 (Some []);
     Pipeline.iss_now := Pipeline.iss_now env_ok;
     Pipeline.spacex_next := Pipeline.spacex_next env_ok;
     Pipeline.nasa_apod := Pipeline.nasa_apod env_ok;
     Pipeline.nasa_neo_feed := Pipeline.nasa_neo_feed env_ok;
     Pipeline.NASA_API_KEY := None;
     Pipeline.clock_args := 1704067200000;
     Pipeline.clock_launch := 1704067201000;
     Pipeline.clock_generated := 1704067202000;
     Pipeline.settle_order := Pipeline.settle_order env_ok;
     Pipeline.write_error := None |}.

Definition argv_pune : list string :=
  ["node"; "challenge.three.ts"; "--city"; "Pune"; "--days"; "10";
   "--date"; "2024-01-01"]%string.

Definition argv_fractional_days : list string :=
  ["node"; "challenge.three.ts"; "--city"; "Pune"; "--days"; "2.5"]%string.

(** A stand-in for the distance function, for runs that are evaluated. *)
Definition no_distance (lat1 lon1 lat2 lon2 : number) : number := Fin 0.

End Fixtures.
(** * Further models

    The threat score in binary64, views and fixtures for more properties
    of the pipeline, and the other two scripts of the repository. *)

From Stdlib Require Import Sorting.Sorted.

(** ** The threat score in binary64

    [computeThreat] and the three [Math] functions it calls, over the
    kernel's binary64 numbers: every operation is the IEEE 754 operation the
    runtime performs, rounding to nearest with ties to even.  The sign of a
    zero result of [Math.round] is not kept ([Math.round(-0.2)] is [-0]
    there and [0] here); no comparison tells the two apart. *)

From Stdlib Require PrimFloat FloatOps FloatAxioms SpecFloat.

(** A decimal literal such as [0.2] stands for the nearest binary64 number,
    as it does in the source. *)
Set Warnings "-inexact-float".

Module Binary64.
Import PrimFloat.

Local Open Scope float_scope.

Record Buckets : Type := mkBuckets {
  lt3 : float;
  gte3lt4 : float;
  gte4 : float
}.

Record NeoSummary : Type := mkNeoSummary {
  days : float;
  totalCount : float;
  hazardousCount : float;
  maxEstimatedDiameterMeters : float;
  minMissDistanceKm : float;
  buckets : Buckets
}.

Record ThreatAssessment : Type := mkThreatAssessment {
  score : float;
  level : Threat.Level
}.

(** [Math.max(x, y)] and [Math.min(x, y)] *)
Definition Math_max (x y : float) : float :=
  if is_nan x || is_nan y then nan else if x <? y then y else x.

Definition Math_min (x y : float) : float :=
  if is_nan x || is_nan y then nan else if y <? x then y else x.

(** A whole number of magnitude below [2^63] as a float; exact up to
    [2^53]. *)
Definition of_Z (z : Z) : float :=
  if (z <? 0)%Z then - of_uint63 (Uint63Axioms.of_Z (- z))
  else of_uint63 (Uint63Axioms.of_Z z).

(** [Math.round(x)]: the whole number nearest to [x], the greater one of
    two that are equally near.  A finite [x] is [(-1)^s * m * 2^e] exactly;
    with [0 <= e] it is whole, otherwise the result is
    [floor (x + 1/2)], computed on whole numbers. *)
Definition Math_round (x : float) : float :=
  match FloatOps.Prim2SF x with
  | SpecFloat.S754_finite s m e =>
      if (0 <=? e)%Z then x
      else
        let n := if s then Z.neg m else Z.pos m in
        of_Z ((2 * n + 2 ^ (- e)) / 2 ^ (- e + 1))
  | _ => x
  end.

Definition computeThreat (neo : NeoSummary) (issDistanceKm hoursToLaunch : float)
  : ThreatAssessment :=
  let missRisk :=
    if minMissDistanceKm neo =? 0
    then 0
    else Math_max 0 (3 - minMissDistanceKm neo / 1000000) in
  let sizeRisk := Math_min 5 (maxEstimatedDiameterMeters neo / 100) in
  let issRisk := Math_max 0 (2 - issDistanceKm / 2000) in
  let launchRisk := Math_max 0 (2 - hoursToLaunch / 24) in
  let score :=
    Math_round
      (hazardousCount neo * 3 +
       totalCount neo * 0.2 +
       missRisk * 4 +
       sizeRisk * 2 +
       issRisk * 2 +
       launchRisk * 1) in
  let level :=
    if 18 <=? score then Threat.HIGH
    else if 10 <=? score then Threat.MEDIUM
    else Threat.LOW in
  {| score := score; level := level |}.

End Binary64.


(** *** More views of the summary *)

Module NeoMore.
Import Neo.

(** The update of the running maximum in one loop iteration. *)
Definition running_max (m : number) (d : option number) : number :=
  match d with
  | Some d => if gt d m then d else m
  | None => m
  end.

(** A count: a whole number that is not negative. *)
Definition is_count (x : number) : Prop :=
  exists n : nat, x = of_Z (Z.of_nat n).

(** The summary of a feed that holds no object. *)
Definition empty_summary (days : number) : Threat.NeoSummary :=
  {| Threat.days := days;
     Threat.totalCount := Fin 0;
     Threat.hazardousCount := Fin 0;
     Threat.maxEstimatedDiameterMeters := Fin 0;
     Threat.minMissDistanceKm := Fin 0;
     Threat.buckets :=
       {| Threat.lt3 := Fin 0; Threat.gte3lt4 := Fin 0; Threat.gte4 := Fin 0 |} |}.

End NeoMore.

(** *** Views of the score *)

Module ThreatMore.

(** A finite number that is not negative. *)
Definition nonneg_fin (x : number) : Prop :=
  exists q : Q, x = Fin q /\ (0 <= q)%Q.

(** The summary with another smallest miss distance. *)
Definition with_miss (neo : Threat.NeoSummary) (m : number) : Threat.NeoSummary :=
  {| Threat.days := Threat.days neo;
     Threat.totalCount := Threat.totalCount neo;
     Threat.hazardousCount := Threat.hazardousCount neo;
     Threat.maxEstimatedDiameterMeters := Threat.maxEstimatedDiameterMeters neo;
     Threat.minMissDistanceKm := m;
     Threat.buckets := Threat.buckets neo |}.

(** The summary with another largest diameter. *)
Definition with_diameter (neo : Threat.NeoSummary) (d : number) : Threat.NeoSummary :=
  {| Threat.days := Threat.days neo;
     Threat.totalCount := Threat.totalCount neo;
     Threat.hazardousCount := Threat.hazardousCount neo;
     Threat.maxEstimatedDiameterMeters := d;
     Threat.minMissDistanceKm := Threat.minMissDistanceKm neo;
     Threat.buckets := Threat.buckets neo |}.

End ThreatMore.

(** *** Views of the join *)

Module PipelineMore.
Import Pipeline.

(** The four parallel calls of [main] with what each was rejected with, in
    array order. *)
Definition rejections (env : Env) (nasaKey date endDate : string)
  : list (Adapter * option string) :=
  [(IssNowCall, rejection (outcome (getIssNow env)));
   (SpaceXNext, rejection (outcome (getSpaceXNext env)));
   (NasaApodCall, rejection (outcome (getApod env nasaKey date)));
   (NasaNeoFeedCall, rejection (outcome (getNeoFeed env nasaKey date endDate)))].

(** The five requests of a complete run, in the order they are sent. *)
Definition five_requests : list Adapter :=
  [NominatimSearch; IssNowCall; SpaceXNext; NasaApodCall; NasaNeoFeedCall].

End PipelineMore.

(** *** More sample runs *)

Module FixturesMore.
Import Pipeline.

(** A run in which the ISS call is refused and the feed answers 503, the
    feed settling first. *)
Definition env_feeds_down : Env :=
  {| nominatim_search := nominatim_search Fixtures.env_ok;
     iss_now := Rejects;
     spacex_next := spacex_next Fixtures.env_ok;
     nasa_apod := nasa_apod Fixtures.env_ok;
     nasa_neo_feed := fun _ _ _ => Responds 503 Fixtures.feed_mixed;
     NASA_API_KEY := None;
     clock_args := 1704067200000;
     clock_launch := 1704067201000;
     clock_generated := 1704067202000;
     settle_order := [NasaNeoFeedCall; IssNowCall; SpaceXNext; NasaApodCall];
     write_error := None |}.

Definition argv_month_13 : list string :=
  ["node"; "challenge.three.ts"; "--city"; "Pune"; "--date"; "2024-13-01"]%string.

Definition argv_no_city : list string :=
  ["node"; "challenge.three.ts"; "--days"; "3"]%string.

End FixturesMore.

(** *** The haversine term *)

Module GeoMore.
Import Geo.
Local Open Scope R_scope.

(** The quantity [a] of [haversineKm], whose square roots are taken. *)
Definition hav (lat1 lon1 lat2 lon2 : R) : R :=
  let dLat := toRad (lat2 - lat1) in
  let dLon := toRad (lon2 - lon1) in
  sin (dLat / 2) * sin (dLat / 2) +
  cos (toRad lat1) * cos (toRad lat2) * sin (dLon / 2) * sin (dLon / 2).

End GeoMore.

(** ** The forecast script

    The second script kept in [challenge.three.ts]: geocode a city, fetch
    its daily forecast, average it.  Its client never rejects on a status
    and the script never reads one; a request that fails rejects with the
    message of the transport error. *)

Module Weather.
Import Cli.

Local Open Scope string_scope.

Record GeocodingResult : Type := mkGeocodingResult {
  g_name : string;
  g_latitude : number;
  g_longitude : number;
  g_country : string
}.

Record GeocodingResponse : Type := mkGeocodingResponse {
  results : option (list GeocodingResult)
}.

Record DailyForecast : Type := mkDailyForecast {
  temperature_2m_max : list number;
  temperature_2m_min : list number;
  precipitation_sum : list number
}.

Record ForecastResponse : Type := mkForecastResponse {
  daily : option DailyForecast
}.

Record Args : Type := mkArgs {
  city : string;
  days : number
}.

Record Location : Type := mkLocation {
  loc_city : string;
  country : string;
  latitude : number;
  longitude : number
}.

Record Summary : Type := mkSummary {
  avgMaxTemp : number;
  avgMinTemp : number;
  totalPrecipitation : number
}.

(** [s.replace(pattern, replacement)] for a string pattern: the first
    occurrence only ([replacement] is taken literally). *)
Fixpoint replace (s pattern replacement : string) {struct s} : string :=
  if String.prefix pattern s
  then replacement ++ slice_from (String.length pattern) s
  else
    match s with
    | EmptyString => EmptyString
    | String c s' => String c (replace s' pattern replacement)
    end.

(** [parsed[key] = value] on the plain object [parsed], the value a string
    or [undefined]: every key becomes a property of its own, except
    [__proto__], whose inherited setter drops both. *)
Definition assign (key : string) (value : option string)
    (parsed : gmap string (option string)) : gmap string (option string) :=
  if String.eqb key "__proto__" then parsed else <[key := value]> parsed.

(** The loop over [args], two tokens at a time; the second token of the
    last pair is [undefined] when the count is odd. *)
Fixpoint pairs (args : list string) (parsed : gmap string (option string))
  : gmap string (option string) :=
  match args with
  | [] => parsed
  | key :: rest =>
      match rest with
      | [] => assign (replace key "--" EmptyString) None parsed
      | value :: rest' =>
          pairs rest' (assign (replace key "--" EmptyString) (Some value) parsed)
      end
  end.

(** [parsed.key]: [undefined] when the key is missing or holds [undefined]. *)
Definition prop (parsed : gmap string (option string)) (key : string)
  : option string :=
  match parsed !! key with
  | Some v => v
  | None => None
  end.

(** [Number(x)] for a string or [undefined]. *)
Definition Number_of (x : option string) : number :=
  match x with
  | Some s => Number_of_string s
  | None => NaN
  end.

Definition parseArgs (argv : list string) : result Args :=
  let parsed := pairs (skipn 2 argv) ∅ in
  let city := prop parsed "city" in
  let days := Number_of (prop parsed "days") in
  match city with
  | None => Throw "Missing --city"
  | Some city =>
      if negb (nonempty city) then Throw "Missing --city"
      else if negb (truthy days) || isNaN days
      then Throw "Missing or invalid --days"
      else Ok {| city := city; days := days |}
  end.

(** The two upstream calls with their parameters. *)
Inductive Call : Type :=
| GeoSearch (name : string)
| Forecast (latitude longitude days : number).

Inductive Answer (T : Type) : Type :=
| Fails (message : string)
| Answers (status : Z) (data : T).
Arguments Fails {T} message.
Arguments Answers {T} status data.

Record Env : Type := mkEnv {
  geo_search : string -> Answer GeocodingResponse;
  forecast : number -> number -> number -> Answer ForecastResponse
}.

(** Computations that send requests and may throw. *)
Definition M (A : Type) : Type := list Call -> result A * list Call.

Definition bind {A B : Type} (m : M A) (k : A -> M B) : M B :=
  fun w =>
    match m w with
    | (Ok a, w') => k a w'
    | (Throw msg, w') => (Throw msg, w')
    end.

Definition get {T : Type} (c : Call) (answer : Answer T) : M T :=
  fun w =>
    match answer with
    | Fails msg => (Throw msg, (w ++ [c])%list)
    | Answers _ data => (Ok data, (w ++ [c])%list)
    end.

Definition getCityCoordinates (env : Env) (city : string) : M Location :=
  bind (get (GeoSearch city) (geo_search env city)) (fun data w =>
    match results data with
    | Some (result :: _) =>
        (Ok {| loc_city := g_name result;
               country := g_country result;
               latitude := g_latitude result;
               longitude := g_longitude result |}, w)
    | _ => (Throw ("City not found: " ++ city), w)
    end).

Definition getForecast (env : Env) (latitude longitude days : number)
  : M DailyForecast :=
  bind (get (Forecast latitude longitude days)
          (forecast env latitude longitude days)) (fun data w =>
    match daily data with
    | Some d => (Ok d, w)
    | None => (Throw "Forecast data missing", w)
    end).

(** [arr.reduce((a, b) => a + b, 0)], the additions exact: no rounding,
    and no overflow to [Infinity]. *)
Definition sum (arr : list number) : number := fold_left add arr 0%num.

Definition avg (arr : list number) : number :=
  (sum arr / of_Z (Z.of_nat (List.length arr)))%num.

Definition computeSummary (daily : DailyForecast) : Summary :=
  {| avgMaxTemp := avg (temperature_2m_max daily);
     avgMinTemp := avg (temperature_2m_min daily);
     totalPrecipitation := sum (precipitation_sum daily) |}.

(** What [main] prints, before formatting. *)
Record Report : Type := mkReport {
  r_location : Location;
  r_days : number;
  r_summary : Summary
}.

Definition main (env : Env) (argv : list string) : M Report :=
  bind (fun w => (parseArgs argv, w)) (fun args =>
  bind (getCityCoordinates env (city args)) (fun location =>
  bind (getForecast env (latitude location) (longitude location) (days args))
    (fun forecast w =>
       (Ok {| r_location := location;
              r_days := days args;
              r_summary := computeSummary forecast |}, w)))).

Record Outcome : Type := mkOutcome {
  sent : list Call;
  stdout : option Report;
  stderr : list string;
  exit_code : Z
}.

(** [main().catch(err => { console.error("Error:", err.message); process.exit(1) })] *)
Definition run (env : Env) (argv : list string) : Outcome :=
  match main env argv [] with
  | (Ok r, w) => {| sent := w; stdout := Some r; stderr := []; exit_code := 0 |}
  | (Throw msg, w) =>
      {| sent := w; stdout := None; stderr := ["Error: " ++ msg]; exit_code := 1 |}
  end.

End Weather.

(** ** The comment ranking ([challenge.one.ts])

    The computation of [main] between the two fetches and the printing.
    Identifiers and counts are whole numbers. *)

Module Posts.

Record Post : Type := mkPost {
  id : Z;
  userId : Z;
  title : string;
  body : string
}.

Record Comment : Type := mkComment {
  c_id : Z;
  postId : Z;
  c_name : string;
  email : string;
  c_body : string
}.

Record Counted : Type := mkCounted {
  p_postId : Z;
  p_title : string;
  commentCount : Z
}.

(** The loop that fills the map from post id to comment count. *)
Definition commentCountByPost (comments : list Comment) : gmap Z Z :=
  fold_left
    (fun m comment =>
       <[postId comment := (default 0 (m !! postId comment) + 1)%Z]> m)
    comments ∅.

Definition postsWithCounts (posts : list Post) (comments : list Comment)
  : list Counted :=
  map (fun post =>
         {| p_postId := id post;
            p_title := title post;
            commentCount := default 0%Z (commentCountByPost comments !! id post) |})
      posts.

(** [Array.prototype.sort] is stable: an element goes in front of the first
    one it does not compare greater than. *)
Fixpoint place {A : Type} (cmp : A -> A -> Z) (x : A) (sorted : list A) : list A :=
  match sorted with
  | [] => [x]
  | y :: rest =>
      if (cmp x y <=? 0)%Z then x :: y :: rest else y :: place cmp x rest
  end.

Definition sort {A : Type} (cmp : A -> A -> Z) (l : list A) : list A :=
  fold_right (place cmp) [] l.

Definition topPosts (posts : list Post) (comments : list Comment) : list Counted :=
  firstn 5
    (sort (fun a b => (commentCount b - commentCount a)%Z)
          (postsWithCounts posts comments)).

End Posts.

(** *** Views used to state properties of the two scripts *)

Module WeatherMore.
Import Weather.

(** The command line that spells out the given key/value pairs. *)
Definition flat (kvs : list (string * string)) : list string :=
  flat_map (fun kv => [fst kv; snd kv]) kvs.

(** The value of the last pair whose key, once its first ["--"] is taken
    out, is [k]. *)
Fixpoint last_value (kvs : list (string * string)) (k : string) : option string :=
  match kvs with
  | [] => None
  | kv :: rest =>
      match last_value rest k with
      | Some v => Some v
      | None =>
          if String.eqb (replace (fst kv) "--" EmptyString) k
          then Some (snd kv) else None
      end
  end.

(** The services answering with another status and the same bodies. *)
Definition with_status (s : Z) (env : Env) : Env :=
  {| geo_search := fun c =>
       match geo_search env c with
       | Fails msg => Fails msg
       | Answers _ data => Answers s data
       end;
     forecast := fun la lo d =>
       match forecast env la lo d with
       | Fails msg => Fails msg
       | Answers _ data => Answers s data
       end |}.

End WeatherMore.

Module PostsMore.
Import Posts.

(** How many comments belong to the post with identifier [k]. *)
Definition comments_of (comments : list Comment) (k : Z) : Z :=
  Z.of_nat (List.length (filter (fun c => (postId c =? k)%Z) comments)).

Definition has_count (c : Z) (p : Counted) : bool := (commentCount p =? c)%Z.

End PostsMore.


(** * Properties *)

(** ** Facts about the number model *)

Section NumberFacts.
Local Open Scope num_scope.

Lemma Qle_bool_false (a b : Q) : Qle_bool a b = false <-> (b < a)%Q.
Proof.
  split; intros H.
  - apply Qnot_le_lt. intros Hle. apply Qle_bool_iff in Hle. congruence.
  - destruct (Qle_bool a b) eqn:E; [|reflexivity].
    apply Qle_bool_iff in E. lra.
Qed.

Lemma lt_Fin (a b : Q) : (Fin a <? Fin b) = true <-> (a < b)%Q.
Proof.
  simpl. rewrite negb_true_iff. apply Qle_bool_false.
Qed.

Lemma lt_Fin_false (a b : Q) : (Fin a <? Fin b) = false <-> (b <= a)%Q.
Proof.
  simpl. rewrite negb_false_iff. apply Qle_bool_iff.
Qed.

Lemma le_Fin (a b : Q) : (Fin a <=? Fin b) = true <-> (a <= b)%Q.
Proof. simpl. apply Qle_bool_iff. Qed.

Lemma le_Fin_false (a b : Q) : (Fin a <=? Fin b) = false <-> (b < a)%Q.
Proof. simpl. apply Qle_bool_false. Qed.

Lemma le_not_NaN (x y : number) :
  (x <=? y) = true -> isNaN x = false /\ isNaN y = false.
Proof. destruct x, y; simpl; intros H; split; congruence. Qed.

Lemma le_iff_not_lt (x y : number) :
  (x <=? y) = true <->
  isNaN x = false /\ isNaN y = false /\ (y <? x) = false.
Proof.
  destruct x as [| | |a], y as [| | |b]; simpl;
    try (split; [intros H; repeat split; congruence | intros (?&?&?); congruence]).
  rewrite negb_false_iff. split; [intros H; auto | intros (_&_&H); exact H].
Qed.

Lemma ge_lt_total (x y : number) :
  isNaN x = false -> isNaN y = false -> (x >=? y) = negb (x <? y).
Proof.
  unfold ge. destruct x as [| | |a], y as [| | |b]; simpl; try congruence; auto.
  intros _ _. now rewrite negb_involutive.
Qed.

Lemma ge_trans_const (x : number) (a b : Q) :
  (b <= a)%Q -> (x >=? Fin a) = true -> (x >=? Fin b) = true.
Proof.
  unfold ge. destruct x as [| | |q]; simpl; try congruence.
  rewrite !Qle_bool_iff. intros; lra.
Qed.

Lemma scale_inf_pos (a : Q) (pos : bool) :
  (0 < a)%Q -> scale_inf a pos = if pos then PInf else NInf.
Proof.
  intros Ha. unfold scale_inf.
  apply Qgt_alt in Ha. now rewrite Ha.
Qed.

(** ** Order preservation up to [NaN] *)

Lemma nondecr_refl (x : number) : nondecr x x.
Proof.
  destruct x as [| | |a]; unfold nondecr; simpl; auto.
  right; right. apply Qle_bool_iff. lra.
Qed.

Lemma nondecr_add_r (x y c : number) :
  nondecr x y -> nondecr (x + c) (y + c).
Proof.
  unfold nondecr.
  destruct x as [| | |a], y as [| | |b], c as [| | |k]; simpl; auto;
    intros [H|[H|H]]; try discriminate; auto.
  right; right. apply Qle_bool_iff. apply Qle_bool_iff in H. lra.
Qed.

Lemma nondecr_mul_pos (x y : number) (k : Q) :
  (0 < k)%Q -> (x <=? y) = true -> nondecr (x * Fin k) (y * Fin k).
Proof.
  intros Hk. unfold nondecr.
  destruct x as [| | |a], y as [| | |b]; simpl; try discriminate;
    rewrite ?(scale_inf_pos k) by assumption; simpl; auto.
  intros H. right; right. apply Qle_bool_iff. apply Qle_bool_iff in H. nra.
Qed.

Lemma nondecr_round (x y : number) :
  nondecr x y -> nondecr (Math_round x) (Math_round y).
Proof.
  unfold nondecr.
  destruct x as [| | |a], y as [| | |b];
    unfold Math_round, of_Z; cbn [isNaN le]; auto.
  intros [H|[H|H]]; try discriminate.
  right; right. apply Qle_bool_iff. apply Qle_bool_iff in H.
  rewrite <- Zle_Qle. apply Qfloor_resp_le. lra.
Qed.

Lemma nondecr_never_decreases (x y : number) :
  nondecr x y ->
  (y <? x) = false /\
  (isNaN x = false -> isNaN y = false -> (x <=? y) = true).
Proof.
  intros H. split.
  - destruct H as [H|[H|H]].
    + destruct x; try discriminate. destruct y; reflexivity.
    + destruct y; try discriminate. reflexivity.
    + now apply le_iff_not_lt in H.
  - intros Hx Hy. destruct H as [H|[H|H]]; congruence.
Qed.

End NumberFacts.

(** ** [computeThreat] *)

Section ThreatFacts.
Import Threat.
Local Open Scope num_scope.

(** The three-way classification read off the score. *)
Lemma level_of_score (neo : NeoSummary) (iss hrs : number) :
  let t := computeThreat neo iss hrs in
  level t =
    if score t >=? 18 then HIGH else if score t >=? 10 then MEDIUM else LOW.
Proof. reflexivity. Qed.



End ThreatFacts.

(** ** [summarizeNeos] *)

Section NeoFacts.
Import Threat Neo NeoSpec.
Local Open Scope num_scope.

Lemma incr_of_Z (n : Z) : incr (of_Z n) = of_Z (n + 1).
Proof.
  unfold incr, of_Z, inject_Z. cbn [add]. f_equal.
  unfold Qplus. cbn [Qnum Qden Pos.mul]. f_equal. lia.
Qed.

Lemma count_cons (neo : NasaNeo) (l : list NasaNeo) :
  count (neo :: l) = incr (count l).
Proof.
  unfold count. rewrite incr_of_Z. f_equal. cbn [List.length]. lia.
Qed.

(** The counters that only count do not depend on the other locals. *)
Lemma visit_counts (c : Counters) (neo : NasaNeo) :
  c_totalCount (visit c neo) = incr (c_totalCount c) /\
  c_hazardousCount (visit c neo) =
    (if is_potentially_hazardous_asteroid neo
     then incr (c_hazardousCount c) else c_hazardousCount c) /\
  c_lt3 (visit c neo) =
    (if is_potentially_hazardous_asteroid neo
     then c_lt3 c else incr (c_lt3 c)) /\
  c_gte3lt4 (visit c neo) = c_gte3lt4 c /\
  c_gte4 (visit c neo) =
    (if is_potentially_hazardous_asteroid neo
     then incr (c_gte4 c) else c_gte4 c).
Proof.
  unfold visit. destruct (is_potentially_hazardous_asteroid neo);
    repeat split; reflexivity.
Qed.

(** Loop invariant of the counting locals, from any starting point. *)
Lemma fold_visit_counts (l : list NasaNeo) :
  forall (c : Counters) (nt nh nl ng : nat),
    c_totalCount c = of_Z (Z.of_nat nt) ->
    c_hazardousCount c = of_Z (Z.of_nat nh) ->
    c_lt3 c = of_Z (Z.of_nat nl) ->
    c_gte4 c = of_Z (Z.of_nat ng) ->
    let c' := fold_left visit l c in
    c_totalCount c' = of_Z (Z.of_nat (nt + List.length l)) /\
    c_hazardousCount c' = of_Z (Z.of_nat (nh + List.length (hazardous l))) /\
    c_lt3 c' = of_Z (Z.of_nat (nl + List.length (non_hazardous l))) /\
    c_gte3lt4 c' = c_gte3lt4 c /\
    c_gte4 c' = of_Z (Z.of_nat (ng + List.length (hazardous l))).
Proof.
  induction l as [|neo l IH]; intros c nt nh nl ng Ht Hh Hl Hg.
  - cbn [fold_left List.length hazardous non_hazardous filter].
    rewrite !Nat.add_0_r. auto.
  - cbn [fold_left].
    destruct (visit_counts c neo) as (Vt & Vh & Vl & Vm & Vg).
    unfold hazardous, non_hazardous in *. cbn [filter List.length].
    destruct (is_potentially_hazardous_asteroid neo) eqn:Hz; cbn [negb List.length].
    + rewrite Ht, incr_of_Z in Vt. rewrite Hh, incr_of_Z in Vh.
      rewrite Hg, incr_of_Z in Vg. rewrite Hl in Vl.
      replace (Z.of_nat nt + 1)%Z with (Z.of_nat (S nt)) in Vt by lia.
      replace (Z.of_nat nh + 1)%Z with (Z.of_nat (S nh)) in Vh by lia.
      replace (Z.of_nat ng + 1)%Z with (Z.of_nat (S ng)) in Vg by lia.
      destruct (IH _ _ _ _ _ Vt Vh Vl Vg) as (A & B & C & D & E).
      rewrite A, B, C, D, E, Vm.
      repeat split; do 2 f_equal; lia.
    + rewrite Ht, incr_of_Z in Vt. rewrite Hl, incr_of_Z in Vl.
      rewrite Hh in Vh. rewrite Hg in Vg.
      replace (Z.of_nat nt + 1)%Z with (Z.of_nat (S nt)) in Vt by lia.
      replace (Z.of_nat nl + 1)%Z with (Z.of_nat (S nl)) in Vl by lia.
      destruct (IH _ _ _ _ _ Vt Vh Vl Vg) as (A & B & C & D & E).
      rewrite A, B, C, D, E, Vm.
      repeat split; do 2 f_equal; lia.
Qed.

(** The counting fields of the summary. *)
Lemma summarizeNeos_counts (feed : NasaNeoFeed) (d : number) :
  let s := summarizeNeos feed d in
  let all := collect feed in
  totalCount s = count all /\
  hazardousCount s = count (hazardous all) /\
  lt3 (buckets s) = count (non_hazardous all) /\
  gte3lt4 (buckets s) = 0 /\
  gte4 (buckets s) = count (hazardous all).
Proof.
  intros s all.
  destruct (fold_visit_counts all counters0 0 0 0 0) as (A & B & C & D & E);
    try reflexivity.
  unfold s, summarizeNeos, count.
  cbn [totalCount hazardousCount buckets lt3 gte3lt4 gte4].
  fold all. rewrite A, B, C, D, E. repeat split; reflexivity.
Qed.

Lemma hazardous_split (l : list NasaNeo) :
  (List.length (non_hazardous l) + List.length (hazardous l) = List.length l)%nat.
Proof.
  unfold hazardous, non_hazardous.
  induction l as [|neo l IH]; cbn [filter List.length]; [reflexivity|].
  destruct (is_potentially_hazardous_asteroid neo); cbn [negb List.length]; lia.
Qed.

(** C10. The middle bucket is never used: [gte3lt4] is 0, [lt3] counts the
    non-hazardous objects and [gte4] equals [hazardousCount]. *)
Theorem summarizeNeos_middle_bucket_empty (feed : NasaNeoFeed) (d : number) :
  let s := summarizeNeos feed d in
  gte3lt4 (buckets s) = 0 /\
  lt3 (buckets s) = count (non_hazardous (collect feed)) /\
  gte4 (buckets s) = hazardousCount s.
Proof.
  intros s.
  destruct (summarizeNeos_counts feed d) as (_ & B & C & D & E).
  fold s in B, C, D, E. rewrite B. auto.
Qed.

Lemma add_of_Z (a b : Z) : of_Z a + of_Z b = of_Z (a + b).
Proof.
  unfold of_Z, inject_Z. cbn [add]. f_equal.
  unfold Qplus. cbn [Qnum Qden Pos.mul]. f_equal. lia.
Qed.

Lemma le_of_Z (a b : Z) : (a <= b)%Z -> (of_Z a <=? of_Z b) = true.
Proof.
  intros H. unfold of_Z. apply le_Fin. now rewrite <- Zle_Qle.
Qed.

(** *** The running minimum *)

Lemma visit_min (c : Counters) (neo : NasaNeo) :
  c_minMissDistanceKm (visit c neo) =
  running_min (c_minMissDistanceKm c) (missKm neo).
Proof.
  unfold visit. destruct (is_potentially_hazardous_asteroid neo); reflexivity.
Qed.

Lemma fold_visit_min (l : list NasaNeo) :
  forall c : Counters,
    c_minMissDistanceKm (fold_left visit l c) =
    fold_left running_min (map missKm l) (c_minMissDistanceKm c).
Proof.
  induction l as [|neo l IH]; intros c; cbn [fold_left map]; [reflexivity|].
  now rewrite IH, visit_min.
Qed.

Lemma summarizeNeos_minMiss (feed : NasaNeoFeed) (d : number) :
  minMissDistanceKm (summarizeNeos feed d) =
  let m := fold_left running_min (map missKm (collect feed)) PInf in
  if negb (isFinite m) then 0 else m.
Proof.
  unfold summarizeNeos. cbn [minMissDistanceKm].
  now rewrite fold_visit_min.
Qed.

(** A running minimum that is [+Infinity] or a non-negative number stays so
    while no negative distance is read. *)
Lemma running_min_nonneg (xs : list number) :
  forall m : number,
    (m <? 0) = false -> isNaN m = false ->
    (forall x, In x xs -> (x <? 0) = false) ->
    let m' := fold_left running_min xs m in
    (m' <? 0) = false /\ isNaN m' = false.
Proof.
  induction xs as [|x xs IH]; intros m Hm Hn Hxs; cbn [fold_left]; [auto|].
  apply IH.
  - unfold running_min.
    destruct (negb (isNaN x) && (x <? m)); [|exact Hm].
    apply Hxs. now left.
  - unfold running_min.
    destruct (isNaN x) eqn:Ex; cbn [negb andb]; [exact Hn|].
    destruct (x <? m); [exact Ex | exact Hn].
  - intros y Hy. apply Hxs. now right.
Qed.

(** C2, as the code has it. [hazardousCount <= totalCount] and the buckets
    add up to [totalCount] for every feed; [minMissDistanceKm >= 0] whenever
    no first close-approach distance reads as a negative number. *)
Theorem summarizeNeos_invariants (feed : NasaNeoFeed) (d : number) :
  let s := summarizeNeos feed d in
  (hazardousCount s <=? totalCount s) = true /\
  lt3 (buckets s) + gte3lt4 (buckets s) + gte4 (buckets s) = totalCount s /\
  ((forall neo, In neo (collect feed) -> (missKm neo <? 0) = false) ->
   (minMissDistanceKm s >=? 0) = true).
Proof.
  intros s.
  destruct (summarizeNeos_counts feed d) as (A & B & C & D & E).
  fold s in A, B, C, D, E.
  pose proof (hazardous_split (collect feed)) as Hs.
  split; [|split].
  - rewrite A, B. apply le_of_Z. lia.
  - rewrite A, C, D, E. change 0 with (of_Z 0). unfold count.
    rewrite !add_of_Z. f_equal. lia.
  - intros Hneg. unfold s. rewrite summarizeNeos_minMiss. cbv zeta.
    destruct (running_min_nonneg (map missKm (collect feed)) PInf) as [Hlt Hnan];
      try reflexivity.
    { intros x Hx. apply in_map_iff in Hx. destruct Hx as (neo & <- & Hin).
      now apply Hneg. }
    destruct (fold_left running_min (map missKm (collect feed)) PInf) as [| | |q];
      try reflexivity; try discriminate.
    cbn [isFinite negb]. unfold ge. apply le_Fin. now apply lt_Fin_false in Hlt.
Qed.

Lemma summarizeNeos_invariants_witness :
  (minMissDistanceKm (summarizeNeos Fixtures.feed_mixed 3) >=? 0) = true.
Proof.
  apply (summarizeNeos_invariants Fixtures.feed_mixed 3).
  intros neo [<-|[<-|[<-|[<-|[]]]]]; vm_compute; reflexivity.
Defined.

(** C2 as stated fails: a first close-approach distance of [-5] km makes the
    minimum negative. *)
Lemma summarizeNeos_negative_minimum :
  let s := summarizeNeos Fixtures.feed_negative 1 in
  minMissDistanceKm s = Fin (-5 # 1) /\ (minMissDistanceKm s >=? 0) = false.
Proof. vm_compute. split; reflexivity. Qed.

(** *** The minimum against the contributed distances *)

Lemma missKm_valid (neo : NasaNeo) :
  match missKm neo with
  | Fin q => valid_distance neo = Some q
  | _ => valid_distance neo = None
  end.
Proof.
  unfold missKm, valid_distance.
  destruct (first_miss neo) as [miss|]; [|reflexivity].
  destruct (nonempty miss); [|reflexivity].
  destruct (Number_of_string miss); reflexivity.
Qed.

Lemma qmin_qeq (a b q : Q) : a == b -> qmin a q == qmin b q.
Proof.
  intros H. unfold qmin.
  destruct (Qle_bool a q) eqn:Ea, (Qle_bool b q) eqn:Eb;
    rewrite ?Qle_bool_iff, ?Qle_bool_false in *; lra.
Qed.

Lemma running_min_tracks (m : number) (o : option Q) (q : Q) :
  tracks m o -> tracks (running_min m (Fin q)) (opt_min o q).
Proof.
  unfold tracks, running_min, opt_min, qmin. cbn [isNaN negb andb].
  destruct m as [| | |a], o as [b|]; try contradiction; intros H.
  - cbn [lt]. lra.
  - destruct (Fin q <? Fin a) eqn:E1, (Qle_bool b q) eqn:E2;
      rewrite ?lt_Fin, ?lt_Fin_false, ?Qle_bool_iff, ?Qle_bool_false in *; lra.
Qed.

(** Loop invariant: with no [-Infinity] among the distances read, the running
    minimum tracks the minimum of the contributed distances. *)
Lemma fold_running_min_tracks (l : list NasaNeo) :
  forall (m : number) (o : option Q),
    tracks m o ->
    (forall neo, In neo l -> missKm neo <> NInf) ->
    tracks (fold_left running_min (map missKm l) m)
           (fold_left opt_min (valid_distances l) o).
Proof.
  induction l as [|neo l IH]; intros m o Hmo Hl; [exact Hmo|].
  cbn [map fold_left]. unfold valid_distances. cbn [flat_map].
  rewrite fold_left_app. fold (valid_distances l).
  assert (Hneo : missKm neo <> NInf) by (apply Hl; now left).
  assert (Hrest : forall n, In n l -> missKm n <> NInf)
    by (intros n Hn; apply Hl; now right).
  pose proof (missKm_valid neo) as Hv.
  destruct (missKm neo) as [| | |q]; try congruence; rewrite Hv;
    cbn [fold_left]; apply IH; auto.
  - unfold running_min. cbn [isNaN negb andb].
    destruct m as [| | |a], o; try contradiction; exact Hmo.
  - now apply running_min_tracks.
Qed.

Lemma fold_opt_min_Some (qs : list Q) :
  forall p : Q, fold_left opt_min qs (Some p) = Some (fold_left qmin qs p).
Proof.
  induction qs as [|q qs IH]; intros p; cbn [fold_left]; [reflexivity|].
  unfold opt_min at 2. apply IH.
Qed.

(** Once [-Infinity] has been read the running minimum stays there. *)
Lemma fold_running_min_NInf (xs : list number) :
  fold_left running_min xs NInf = NInf.
Proof.
  induction xs as [|x xs IH]; cbn [fold_left]; [reflexivity|].
  replace (running_min NInf x) with NInf; [exact IH|].
  unfold running_min. destruct x; reflexivity.
Qed.

Lemma fold_running_min_reaches_NInf (xs : list number) :
  forall m : number,
    isNaN m = false -> In NInf xs -> fold_left running_min xs m = NInf.
Proof.
  induction xs as [|x xs IH]; intros m Hm Hin; [destruct Hin|].
  cbn [fold_left]. destruct Hin as [->|Hin].
  - replace (running_min m NInf) with NInf; [apply fold_running_min_NInf|].
    unfold running_min. destruct m; try discriminate; reflexivity.
  - apply IH; [|exact Hin].
    unfold running_min.
    destruct (isNaN x) eqn:Ex; cbn [negb andb]; [exact Hm|].
    destruct (x <? m); assumption.
Qed.

(** C7, as the code has it. The minimum is taken over the finite distances
    read from the first close-approach entry of each object, missing and
    unreadable ones excluded, and is 0 when there is none; a distance that
    reads as [-Infinity] also resets the result to 0. *)
Theorem summarizeNeos_min_first_approach (feed : NasaNeoFeed) (d : number) :
  let s := summarizeNeos feed d in
  let all := collect feed in
  ((forall neo, In neo all -> missKm neo <> NInf) ->
   same (minMissDistanceKm s) (min_distance all)) /\
  ((exists neo, In neo all /\ missKm neo = NInf) ->
   minMissDistanceKm s = 0).
Proof.
  intros s all. unfold s. rewrite summarizeNeos_minMiss. cbv zeta. fold all.
  split.
  - intros Hall.
    pose proof (fold_running_min_tracks all PInf None I Hall) as Ht.
    unfold min_distance.
    destruct (valid_distances all) as [|q qs].
    + cbn [fold_left] in Ht.
      destruct (fold_left running_min (map missKm all) PInf);
        try contradiction. cbn. reflexivity.
    + cbn [fold_left] in Ht. unfold opt_min at 2 in Ht.
      rewrite fold_opt_min_Some in Ht.
      destruct (fold_left running_min (map missKm all) PInf);
        try contradiction. exact Ht.
  - intros (neo & Hin & Hneo).
    rewrite fold_running_min_reaches_NInf; [reflexivity | reflexivity |].
    rewrite <- Hneo. now apply in_map.
Qed.

Lemma summarizeNeos_min_first_approach_witness :
  same (minMissDistanceKm (summarizeNeos Fixtures.feed_mixed 3))
       (min_distance (collect Fixtures.feed_mixed)).
Proof.
  apply (summarizeNeos_min_first_approach Fixtures.feed_mixed 3).
  intros neo [<-|[<-|[<-|[<-|[]]]]]; vm_compute; discriminate.
Defined.

(** C7 as stated fails: with distances ["-Infinity"] and ["5"] the minimum
    over the readable distances is not what the summary reports. *)
Lemma summarizeNeos_minus_infinity_resets :
  let all := collect Fixtures.feed_minus_infinity in
  map missKm all = [NInf; Fin (5 # 1)] /\
  min_distance all = Fin (5 # 1) /\
  minMissDistanceKm (summarizeNeos Fixtures.feed_minus_infinity 1) = 0.
Proof. vm_compute. repeat split; reflexivity. Qed.

End NeoFacts.

(** ** The worked example of the specification *)

Section WorkedExample.
Import Threat Neo.
Local Open Scope num_scope.

Example summarizeNeos_single :
  summarizeNeos Fixtures.feed_single 1 =
  {| days := 1; totalCount := 1; hazardousCount := 0;
     maxEstimatedDiameterMeters := 50; minMissDistanceKm := 5000000;
     buckets := {| lt3 := 1; gte3lt4 := 0; gte4 := 0 |} |}.
Proof. vm_compute. reflexivity. Qed.

Example computeThreat_single :
  computeThreat (summarizeNeos Fixtures.feed_single 1) 0 0 =
  {| score := 7; level := LOW |}.
Proof. vm_compute. reflexivity. Qed.

Example Number_of_string_samples :
  Number_of_string "2.5" = Fin (25 # 10) /\
  Number_of_string "true" = NaN /\
  Number_of_string "-Infinity" = NInf /\
  Number_of_string " 12 " = 12 /\
  Number_of_string "0x1F" = 31 /\
  Number_of_string "1e3" = 1000 /\
  Number_of_string "12px" = NaN.
Proof. vm_compute. repeat split; reflexivity. Qed.

End WorkedExample.

(** ** Calendar arithmetic *)

Section DateFacts.
Local Open Scope Z_scope.

Ltac decide_tests :=
  repeat match goal with
  | |- context [Z.leb ?a ?b] =>
      let v := eval vm_compute in (Z.leb a b) in
      match v with true => idtac | false => idtac end;
      change (Z.leb a b) with v
  | |- context [Z.ltb ?a ?b] =>
      let v := eval vm_compute in (Z.ltb a b) in
      match v with true => idtac | false => idtac end;
      change (Z.ltb a b) with v
  | |- context [Z.eqb ?a ?b] =>
      let v := eval vm_compute in (Z.eqb a b) in
      match v with true => idtac | false => idtac end;
      change (Z.eqb a b) with v
  end; cbv iota.

Ltac month_cases m Hm :=
  let H := fresh "Hcases" in
  assert (H : m = 1 \/ m = 2 \/ m = 3 \/ m = 4 \/ m = 5 \/ m = 6 \/ m = 7 \/
              m = 8 \/ m = 9 \/ m = 10 \/ m = 11 \/ m = 12) by lia;
  repeat (destruct H as [->|H]); [..|subst m].

Ltac leap_cases y Hleap :=
  let L := fresh "L" in
  destruct (is_leap y) eqn:L;
  [ assert (y mod 4 = 0 /\ (y mod 100 <> 0 \/ y mod 400 = 0))
      by (now apply Hleap)
  | assert (~ (y mod 4 = 0 /\ (y mod 100 <> 0 \/ y mod 400 = 0)))
      by (rewrite <- Hleap; congruence) ];
  clear Hleap L.

Lemma is_leap_spec (y : Z) :
  is_leap y = true <-> (y mod 4 = 0 /\ (y mod 100 <> 0 \/ y mod 400 = 0)).
Proof.
  unfold is_leap.
  rewrite andb_true_iff, orb_true_iff, negb_true_iff, !Z.eqb_eq, Z.eqb_neq.
  tauto.
Qed.

Lemma days_in_month_bounds (y m : Z) : 28 <= days_in_month y m <= 31.
Proof.
  unfold days_in_month.
  destruct (m =? 2); [destruct (is_leap y); lia|].
  destruct ((m =? 4) || (m =? 6) || (m =? 9) || (m =? 11)); lia.
Qed.

(** The day number is linear in the day of the month. *)
Lemma days_from_civil_day (y m d : Z) :
  days_from_civil y m d = days_from_civil y m 1 + d - 1.
Proof. unfold days_from_civil. lia. Qed.

(** The day after a date has the next day number. *)
Lemma days_from_civil_next (y m d : Z) :
  valid_date (y, m, d) ->
  let '(y', m', d') := next_day (y, m, d) in
  days_from_civil y' m' d' = days_from_civil y m d + 1.
Proof.
  intros [Hm Hd]. unfold next_day.
  assert (Hleap := is_leap_spec y).
  unfold days_in_month in *.
  month_cases m Hm;
    revert Hd; decide_tests; cbn [orb]; intros Hd;
    leap_cases y Hleap;
    match goal with
    | |- context [Z.ltb d ?k] => destruct (Z.ltb_spec d k)
    end;
    unfold days_from_civil; decide_tests;
    try lia; Z.div_mod_to_equations; lia.
Qed.

Lemma next_day_valid (t : Z * Z * Z) : valid_date t -> valid_date (next_day t).
Proof.
  destruct t as [[y m] d]. intros [Hm Hd]. unfold next_day.
  pose proof (days_in_month_bounds y (m + 1)).
  pose proof (days_in_month_bounds (y + 1) 1).
  destruct (Z.ltb_spec d (days_in_month y m)); [cbn; lia|].
  destruct (Z.ltb_spec m 12); cbn; lia.
Qed.

Lemma year_of_era (yoe doy : Z) :
  0 <= yoe <= 399 -> 0 <= doy <= 365 ->
  (doy = 365 -> (yoe + 1) mod 4 = 0 /\ ((yoe + 1) mod 100 <> 0 \/ yoe = 399)) ->
  let doe := yoe * 365 + yoe / 4 - yoe / 100 + doy in
  (doe - doe / 1460 + doe / 36524 - doe / 146096) / 365 = yoe /\
  0 <= doe <= 146096.
Proof.
  intros Hy Hd Hl doe. subst doe. Z.div_mod_to_equations; lia.
Qed.

Lemma civil_of_era (era yoe doy : Z) :
  0 <= yoe <= 399 -> 0 <= doy <= 365 ->
  (doy = 365 -> (yoe + 1) mod 4 = 0 /\ ((yoe + 1) mod 100 <> 0 \/ yoe = 399)) ->
  let doe := yoe * 365 + yoe / 4 - yoe / 100 + doy in
  civil_from_days (era * 146097 + doe - 719468) =
  let mp := (5 * doy + 2) / 153 in
  let m := if mp <? 10 then mp + 3 else mp - 9 in
  (yoe + era * 400 + (if m <=? 2 then 1 else 0), m,
   doy - (153 * mp + 2) / 5 + 1).
Proof.
  intros Hy Hd Hl doe.
  destruct (year_of_era yoe doy Hy Hd Hl) as [Hyoe Hdoe].
  fold doe in Hyoe, Hdoe.
  unfold civil_from_days.
  replace (era * 146097 + doe - 719468 + 719468) with (doe + era * 146097)
    by lia.
  rewrite Z.div_add by lia. rewrite (Z.div_small doe) by lia.
  replace (doe + era * 146097 - (0 + era) * 146097) with doe by lia.
  rewrite Hyoe.
  replace (doe - (365 * yoe + yoe / 4 - yoe / 100)) with doy
    by (unfold doe; lia).
  reflexivity.
Qed.

(** Reading a day number back gives the date it came from. *)
Lemma civil_from_days_from_civil (y m d : Z) :
  valid_date (y, m, d) -> civil_from_days (days_from_civil y m d) = (y, m, d).
Proof.
  intros [Hm Hd].
  assert (Hleap := is_leap_spec y).
  unfold days_in_month in Hd.
  month_cases m Hm;
    revert Hd; decide_tests; cbn [orb]; intros Hd;
    unfold days_from_civil; decide_tests;
    match goal with
    | |- context [(?y' / 400 * 146097 + (_ + ?doy) - 719468)] =>
        rewrite (civil_of_era (y' / 400) (y' - y' / 400 * 400) doy);
        [ | Z.div_mod_to_equations; lia | .. ]
    end.
  all: cbv zeta.
  all: leap_cases y Hleap.
  all: try match goal with
    | |- context [(5 * ((153 * ?mp + 2) / 5 + ?dd - 1) + 2) / 153] =>
        replace ((5 * ((153 * mp + 2) / 5 + dd - 1) + 2) / 153) with mp
          by (Z.div_mod_to_equations; lia);
        decide_tests; f_equal; [f_equal|]; Z.div_mod_to_equations; lia
    end.
  all: Z.div_mod_to_equations; lia.
Qed.

(** The day after, [k] times, is [k] day numbers further. *)
Lemma day_number_plus_days (k : nat) (t : Z * Z * Z) :
  valid_date t ->
  valid_date (plus_days k t) /\
  day_number (plus_days k t) = day_number t + Z.of_nat k.
Proof.
  intros Hv. induction k as [|k [IHv IHd]].
  - cbn [plus_days Nat.iter nat_rect Z.of_nat]. split; [exact Hv | lia].
  - unfold plus_days in *. cbn [Nat.iter nat_rect] in *. fold (Nat.iter k next_day t) in *.
    set (u := Nat.iter k next_day t) in *.
    split; [now apply next_day_valid|].
    destruct u as [[y1 m1] d1].
    pose proof (days_from_civil_next y1 m1 d1 IHv) as Hn.
    destruct (next_day (y1, m1, d1)) as [[y2 m2] d2].
    cbn [day_number] in *. lia.
Qed.

(** Adding [k] to the day number is taking the day after, [k] times. *)
Lemma civil_from_days_plus (k : nat) (t : Z * Z * Z) :
  valid_date t ->
  civil_from_days (day_number t + Z.of_nat k) = plus_days k t.
Proof.
  intros Hv. destruct (day_number_plus_days k t Hv) as [Hvk Hk].
  rewrite <- Hk. destruct (plus_days k t) as [[y m] d].
  now apply civil_from_days_from_civil.
Qed.

(** *** Reading and writing [YYYY-MM-DD] *)

Lemma digit_char_spec (k : Z) :
  0 <= k <= 9 -> digit_val (digit_char k) = k /\ is_digit (digit_char k) = true.
Proof.
  intros H.
  assert (Hc : k = 0 \/ k = 1 \/ k = 2 \/ k = 3 \/ k = 4 \/ k = 5 \/ k = 6 \/
               k = 7 \/ k = 8 \/ k = 9) by lia.
  repeat (destruct Hc as [->|Hc]); [..|subst k]; split; reflexivity.
Qed.

Lemma digits_value_snoc (base : Z) (l : list ascii) (c : ascii) :
  digits_value base (l ++ [c]) = base * digits_value base l + digit_val c.
Proof. unfold digits_value. now rewrite fold_left_app. Qed.

Lemma decimal_length (w : nat) : forall z, List.length (decimal w z) = w.
Proof.
  induction w as [|w IH]; intros z; cbn [decimal]; [reflexivity|].
  rewrite length_app, IH. cbn [List.length]. lia.
Qed.

Lemma decimal_digits (w : nat) : forall z, forallb is_digit (decimal w z) = true.
Proof.
  induction w as [|w IH]; intros z; cbn [decimal]; [reflexivity|].
  rewrite forallb_app, IH. cbn [forallb andb].
  destruct (digit_char_spec (z mod 10)) as [_ ->]; [|reflexivity].
  pose proof (Z.mod_pos_bound z 10). lia.
Qed.

Lemma decimal_value (w : nat) :
  forall z, digits_value 10 (decimal w z) = z mod 10 ^ Z.of_nat w.
Proof.
  induction w as [|w IH]; intros z.
  - cbn [decimal Z.of_nat Z.pow]. now rewrite Z.mod_1_r.
  - cbn [decimal]. rewrite digits_value_snoc, IH.
    destruct (digit_char_spec (z mod 10)) as [-> _];
      [pose proof (Z.mod_pos_bound z 10); lia|].
    rewrite Nat2Z.inj_succ, Z.pow_succ_r by lia.
    rewrite (Z.rem_mul_r z 10 (10 ^ Z.of_nat w)) by lia. lia.
Qed.

Lemma take_digits_decimal (w : nat) (z : Z) (rest : list ascii) :
  take_digits w (decimal w z ++ rest) = Some (z mod 10 ^ Z.of_nat w, rest).
Proof.
  unfold take_digits.
  rewrite firstn_app, decimal_length, Nat.sub_diag, firstn_O, app_nil_r.
  rewrite firstn_all2 by (rewrite decimal_length; lia).
  rewrite decimal_length, Nat.eqb_refl, decimal_digits, decimal_value.
  cbn [andb]. rewrite skipn_app, decimal_length, Nat.sub_diag.
  rewrite skipn_all2 by (rewrite decimal_length; lia). reflexivity.
Qed.

Lemma list_ascii_of_string_app (s1 s2 : string) :
  list_ascii_of_string (s1 ++ s2) =
  (list_ascii_of_string s1 ++ list_ascii_of_string s2)%list.
Proof.
  induction s1 as [|c s1 IH]; [reflexivity|].
  change (list_ascii_of_string (String c s1 ++ s2))
    with (c :: list_ascii_of_string (s1 ++ s2)).
  now rewrite IH.
Qed.

(** Years 0 to 9999 stay far inside the range of time values. *)
Lemma days_from_civil_range (y m d : Z) :
  0 <= y <= 10000 -> 1 <= m <= 12 -> 1 <= d <= 31 ->
  -800000 <= days_from_civil y m d <= 3000000.
Proof.
  intros Hy Hm Hd. unfold days_from_civil.
  destruct (m <=? 2); Z.div_mod_to_equations; lia.
Qed.

Lemma MakeDay_month (y m dt : Z) :
  1 <= m <= 12 -> MakeDay y (m - 1) dt = days_from_civil y m 1 + dt - 1.
Proof.
  intros Hm. unfold MakeDay.
  rewrite (Z.div_small (m - 1) 12), (Z.mod_small (m - 1) 12) by lia.
  do 3 f_equal; lia.
Qed.

(** [new Date(`${date}T00:00:00Z`)] is midnight of that day. *)
Lemma Date_parse_midnight (y m d : Z) :
  0 <= y <= 9999 -> 1 <= m <= 12 -> 1 <= d <= 31 ->
  Date_parse (format_date (y, m, d) ++ "T00:00:00Z") =
  Some (days_from_civil y m d * msPerDay).
Proof.
  intros Hy Hm Hd. unfold Date_parse, format_date.
  rewrite list_ascii_of_string_app, list_ascii_of_string_of_list_ascii.
  rewrite <- !app_assoc, <- !app_comm_cons, <- !app_assoc, <- !app_comm_cons.
  rewrite take_digits_decimal. cbn [mbind option_bind expect Ascii.eqb Bool.eqb].
  rewrite take_digits_decimal. cbn [mbind option_bind expect Ascii.eqb Bool.eqb].
  rewrite take_digits_decimal. cbn [mbind option_bind].
  rewrite !Z.mod_small by (cbn; lia).
  cbn [list_ascii_of_string].
  replace ((1 <=? m) && (m <=? 12) && (1 <=? d) && (d <=? 31)) with true
    by (symmetry; rewrite !andb_true_iff, !Z.leb_le; lia).
  rewrite MakeDay_month by lia.
  match goal with
  | |- context [parse_time ?l] => change (parse_time l) with (Some 0)
  end.
  cbn [mbind option_bind].
  rewrite <- days_from_civil_day, Z.add_0_r.
  unfold TimeClip.
  pose proof (days_from_civil_range y m d ltac:(lia) Hm Hd) as Hr.
  replace (Z.abs (days_from_civil y m d * msPerDay) <=? 8640000000000000)
    with true; [reflexivity|].
  symmetry. apply Z.leb_le. unfold msPerDay. lia.
Qed.

(** The first ten characters of [toISOString] at midnight are the date, as
    long as the year has four digits. *)
Lemma toISOString_date (n : Z) :
  0 <= year_of (civil_from_days n) <= 9999 ->
  slice_to 10 (toISOString (n * msPerDay)) = format_date (civil_from_days n).
Proof.
  intros Hy. unfold slice_to, toISOString.
  rewrite list_ascii_of_string_of_list_ascii.
  rewrite Z.div_mul by (unfold msPerDay; lia).
  destruct (civil_from_days n) as [[y m] d]. cbn [year_of fst] in Hy.
  unfold format_date, iso_date, iso_year.
  replace ((0 <=? y) && (y <=? 9999)) with true
    by (symmetry; rewrite andb_true_iff, !Z.leb_le; lia).
  rewrite firstn_app.
  assert (Hlen : List.length (decimal 4 y ++ "-"%char :: decimal 2 m ++
                              "-"%char :: decimal 2 d) = 10%nat).
  { rewrite length_app. cbn [List.length]. rewrite length_app. cbn [List.length].
    now rewrite !decimal_length. }
  rewrite Hlen, Nat.sub_diag, firstn_O, app_nil_r.
  rewrite firstn_all2 by (rewrite Hlen; lia). reflexivity.
Qed.

Lemma sub_of_Z (a b : Z) : (of_Z a - of_Z b)%num = of_Z (a - b).
Proof.
  unfold of_Z, inject_Z, sub. cbn [neg add]. f_equal.
  unfold Qplus, Qopp. cbn [Qnum Qden Pos.mul]. f_equal. lia.
Qed.

Lemma Qtrunc_inject_Z (z : Z) : Qtrunc (inject_Z z) = z.
Proof. unfold Qtrunc, inject_Z. cbn [Qnum Qden]. apply Z.quot_1_r. Qed.

Lemma Qtrunc_shift (d : Z) (x : Q) :
  0 <= d -> (0 <= x)%Q -> Qtrunc (inject_Z d + x) = d + Qfloor x.
Proof.
  destruct x as [n p]. unfold Qle. cbn [Qnum Qden]. intros Hd Hx.
  unfold Qtrunc, Qfloor, Qplus, inject_Z. cbn [Qnum Qden].
  replace (1 * p)%positive with p by lia.
  rewrite Z.quot_div_nonneg by nia.
  replace (d * Z.pos p + n * 1) with (d * Z.pos p + n) by lia.
  rewrite Z.div_add_l by lia. reflexivity.
Qed.

(** [addDays] on a calendar date, for an offset whose whole part is [k]. *)
Lemma addDays_offset (y m d k : Z) (x : Q) :
  valid_date (y, m, d) -> 0 <= y <= 9999 -> -1000000 <= k <= 1000000 ->
  Qtrunc (inject_Z d + x) = d + k ->
  0 <= year_of (civil_from_days (days_from_civil y m d + k)) <= 9999 ->
  addDays (format_date (y, m, d)) (Fin x) =
  Some (format_date (civil_from_days (days_from_civil y m d + k))).
Proof.
  intros Hv Hy Hk Hx He.
  pose proof Hv as [Hm Hd].
  pose proof (days_in_month_bounds y m) as Hdim.
  unfold addDays.
  rewrite Date_parse_midnight by lia.
  unfold getUTCDate, setUTCDate.
  rewrite Z.div_mul by (unfold msPerDay; lia).
  rewrite Z.mod_mul by (unfold msPerDay; lia).
  rewrite civil_from_days_from_civil by exact Hv.
  cbn [snd]. unfold of_Z. cbn [add].
  rewrite Hx, MakeDay_month by lia.
  replace (days_from_civil y m 1 + (d + k) - 1)
    with (days_from_civil y m d + k)
    by (rewrite (days_from_civil_day y m d); lia).
  rewrite Z.add_0_r. unfold TimeClip.
  pose proof (days_from_civil_range y m d ltac:(lia) Hm ltac:(lia)) as Hr.
  replace (Z.abs ((days_from_civil y m d + k) * msPerDay) <=? 8640000000000000)
    with true by (symmetry; apply Z.leb_le; unfold msPerDay; lia).
  now rewrite toISOString_date.
Qed.

Lemma next_day_year (t : Z * Z * Z) : year_of t <= year_of (next_day t).
Proof.
  destruct t as [[y m] d]. unfold next_day.
  destruct (d <? days_in_month y m); [cbn; lia|].
  destruct (m <? 12); cbn; lia.
Qed.

Lemma plus_days_year (k : nat) (t : Z * Z * Z) :
  year_of t <= year_of (plus_days k t).
Proof.
  induction k as [|k IH]; unfold plus_days in *; cbn [Nat.iter nat_rect]; [lia|].
  fold (Nat.iter k next_day t).
  pose proof (next_day_year (Nat.iter k next_day t)). lia.
Qed.

(** The range for an offset of [x >= 0] days, at most a million. *)
Lemma addDays_forward (y m d : Z) (x : Q) :
  valid_date (y, m, d) -> 0 <= y <= 9999 -> (0 <= x)%Q -> (x <= 1000000)%Q ->
  let ending := plus_days (Z.to_nat (Qfloor x)) (y, m, d) in
  year_of ending <= 9999 ->
  addDays (format_date (y, m, d)) (Fin x) = Some (format_date ending).
Proof.
  intros Hv Hy Hx0 Hx1 ending He.
  pose proof Hv as [Hm Hd].
  assert (Hk0 : 0 <= Qfloor x).
  { change 0 with (Qfloor 0). now apply Qfloor_resp_le. }
  assert (Hk1 : Qfloor x <= 1000000).
  { rewrite <- (Qfloor_Z 1000000). now apply Qfloor_resp_le. }
  pose proof (civil_from_days_plus (Z.to_nat (Qfloor x)) (y, m, d) Hv) as Hp.
  rewrite Z2Nat.id in Hp by lia. cbn [day_number] in Hp. fold ending in Hp.
  pose proof (plus_days_year (Z.to_nat (Qfloor x)) (y, m, d)) as Hge.
  fold ending in Hge. cbn [year_of fst] in Hge.
  rewrite (addDays_offset y m d (Qfloor x) x); rewrite ?Hp; auto; try lia.
  apply Qtrunc_shift; [lia | exact Hx0].
Qed.

(** C4, as the code has it. For a calendar date of the years 0000-9999 and a
    requested whole number of days of at least 1 (or [Infinity], which
    [parseArgs] accepts as well), the range starts at the date itself and
    ends [min(days, 7) - 1] days later in the calendar, provided that end
    still has a four-digit year. *)
Theorem feed_range_clamped (y m d : Z) (days : number) :
  valid_date (y, m, d) -> 0 <= y <= 9999 ->
  (days = PInf \/ exists n : Z, 1 <= n /\ days = of_Z n) ->
  let ending :=
    plus_days (Pipeline.whole_days (Math_min days 7 - 1)%num) (y, m, d) in
  year_of ending <= 9999 ->
  Pipeline.feed_range (format_date (y, m, d)) days =
  (format_date (y, m, d), Some (format_date ending)).
Proof.
  intros Hv Hy Hwhole ending He.
  assert (Hdays : le 1 days = true).
  { destruct Hwhole as [->|(n & Hn & ->)]; [reflexivity|].
    unfold of_Z. apply le_Fin. change 1%Q with (inject_Z 1).
    rewrite <- Zle_Qle. exact Hn. }
  unfold Pipeline.feed_range, Pipeline.neoDays. f_equal.
  assert (Hcap : exists x : Q,
            (Math_min days 7 - 1)%num = Fin x /\ (0 <= x)%Q /\ (x <= 6)%Q).
  { destruct days as [| | |q]; try discriminate.
    - exists (7 + - (1))%Q. repeat split; [lra | lra].
    - apply le_Fin in Hdays. unfold Math_min.
      destruct (lt 7 (Fin q)) eqn:E.
      + exists (7 + - (1))%Q. repeat split; [lra | lra].
      + apply lt_Fin_false in E.
        exists (q + - (1))%Q. repeat split; lra. }
  destruct Hcap as (x & Hx & Hx0 & Hx6).
  unfold ending in *. rewrite Hx in *. cbn [Pipeline.whole_days] in *.
  apply addDays_forward; auto. lra.
Qed.

Lemma feed_range_clamped_witness :
  Pipeline.feed_range "2024-01-01" 10 =
  ("2024-01-01"%string, Some "2024-01-07"%string).
Proof.
  apply (feed_range_clamped 2024 1 1 10).
  - vm_compute. repeat split; discriminate.
  - lia.
  - right. exists 10. split; [lia | reflexivity].
  - vm_compute. discriminate.
Defined.

Example feed_range_leap_day :
  Pipeline.feed_range "2024-02-28" (Fin (5 # 2)) =
    ("2024-02-28"%string, Some "2024-02-29"%string) /\
  Pipeline.feed_range "2023-12-30" 3 =
    ("2023-12-30"%string, Some "2024-01-01"%string) /\
  Pipeline.feed_range "2024-13-01" 3 = ("2024-13-01"%string, None).
Proof. vm_compute. repeat split; reflexivity. Qed.

(** C4 as stated fails past the year 9999: the day after 9999-12-31 is
    written with a sign and six year digits, and its first ten characters
    are not a date. *)
Lemma feed_range_year_10000 :
  plus_days 1 (9999, 12, 31) = (10000, 1, 1) /\
  Pipeline.feed_range "9999-12-31" 2 =
    ("9999-12-31"%string, Some "+010000-01"%string).
Proof. split; vm_compute; reflexivity. Qed.

End DateFacts.

(** ** [parseArgs] *)

Section CliFacts.
Import Cli.
Local Open Scope string_scope.

(** The three tests on [days] amount to [days >= 1]. *)
Lemma days_test (v : number) :
  negb (truthy v) || isNaN v || lt v 1 = negb (le 1 v).
Proof.
  destruct v as [| | |q]; try reflexivity.
  cbn [truthy isNaN lt le negb orb]. rewrite negb_involutive, orb_false_r.
  destruct (Qeq_bool q 0) eqn:E0; [|reflexivity].
  apply Qeq_bool_iff in E0. cbn [orb]. symmetry. apply negb_true_iff.
  apply Qle_bool_false. lra.
Qed.

(** C9, as the code has it. [days] is [Number] of the text given after
    [--days], "3" when the option is absent; the arguments are accepted only
    if that number is at least 1, whole or not, and a value that is not a
    number or is below 1 is rejected with a validation error. *)
Theorem parseArgs_days (now : Z) (argv : list string) :
  let parsed := scan (skipn 2 argv) ∅ in
  let v := Number_of_string (nullish (parsed !! "days") "3") in
  (parsed !! "days" = None -> v = 3%num) /\
  (forall a, parseArgs now argv = Ok a ->
     Cli.days a = v /\ le 1 v = true) /\
  (le 1 v = false ->
     parseArgs now argv = Throw missing_city \/
     parseArgs now argv = Throw invalid_days) /\
  (le 1 v = true -> parseArgs now argv <> Throw invalid_days).
Proof.
  intros parsed v. unfold parseArgs. fold parsed. fold v.
  rewrite (days_test v).
  split; [|split; [|split]].
  - intros Hnone. unfold v. rewrite Hnone. reflexivity.
  - intros a. destruct (parsed !! "city") as [c|]; [|discriminate].
    destruct (negb (nonempty c)); [discriminate|].
    destruct (le 1 v); cbn [negb]; [|discriminate].
    destruct (negb (String.eqb _ "stealth") && negb (String.eqb _ "verbose"));
      [discriminate|].
    destruct (negb (is_date_shaped _)); [discriminate|].
    intros [= <-]. split; reflexivity.
  - intros ->. cbn [negb].
    destruct (parsed !! "city") as [c|]; [|now left].
    destruct (negb (nonempty c)); [now left | now right].
  - intros ->. cbn [negb].
    destruct (parsed !! "city") as [c|]; [|discriminate].
    destruct (negb (nonempty c)); [discriminate|].
    destruct (negb (String.eqb _ "stealth") && negb (String.eqb _ "verbose"));
      [discriminate|].
    destruct (negb (is_date_shaped _)); discriminate.
Qed.

Lemma parseArgs_days_witness :
  parseArgs 1704067200000 Fixtures.argv_pune <> Throw invalid_days.
Proof.
  apply (parseArgs_days 1704067200000 Fixtures.argv_pune).
  vm_compute. reflexivity.
Defined.

(** C9 as stated fails: [--days 2.5] is accepted although 2.5 is not a
    positive integer. *)
Lemma parseArgs_accepts_fraction :
  parseArgs 1704067200000 Fixtures.argv_fractional_days =
  Ok {| city := "Pune"; Cli.days := Fin (25 # 10);
        mode := "stealth"; date := "2024-01-01" |}.
Proof. vm_compute. reflexivity. Qed.

End CliFacts.

(** ** The run *)

Section PipelineFacts.
Import Cli Threat Neo Pipeline.
Local Open Scope string_scope.
Local Open Scope Z_scope.

Variable haversineKm : number -> number -> number -> number -> number.

Ltac run_adapter answer :=
  intros w; unfold outcome, bind, timed, http_get, throw, ret, sent, world0;
  destruct answer as [|status data]; cbn [fst snd requests files];
  [reflexivity|];
  repeat match goal with
  | |- context [if ?b then _ else _] => destruct b
  | |- context [match ?x with Some _ => _ | None => _ end] => destruct x
  | |- context [match ?x with [] => _ | _ :: _ => _ end] => destruct x
  end; reflexivity.

(** Each adapter sends exactly its own request, and what it yields does not
    depend on the world. *)
Lemma getCityLocation_runs (env : Env) (city : string) :
  forall w, getCityLocation env city w =
            (outcome (getCityLocation env city), sent NominatimSearch w).
Proof. unfold getCityLocation. run_adapter (nominatim_search env city). Qed.

Lemma getIssNow_runs (env : Env) :
  forall w, getIssNow env w = (outcome (getIssNow env), sent IssNowCall w).
Proof. unfold getIssNow. run_adapter (iss_now env). Qed.

Lemma getSpaceXNext_runs (env : Env) :
  forall w, getSpaceXNext env w =
            (outcome (getSpaceXNext env), sent SpaceXNext w).
Proof. unfold getSpaceXNext. run_adapter (spacex_next env). Qed.

Lemma getApod_runs (env : Env) (apiKey date : string) :
  forall w, getApod env apiKey date w =
            (outcome (getApod env apiKey date), sent NasaApodCall w).
Proof. unfold getApod. run_adapter (nasa_apod env apiKey date). Qed.

Lemma getNeoFeed_runs (env : Env) (apiKey startDate endDate : string) :
  forall w, getNeoFeed env apiKey startDate endDate w =
            (outcome (getNeoFeed env apiKey startDate endDate),
             sent NasaNeoFeedCall w).
Proof.
  unfold getNeoFeed. run_adapter (nasa_neo_feed env apiKey startDate endDate).
Qed.

(** The join: four requests in array order; the four values if every call
    succeeded, a rejection otherwise. *)
Lemma all4_runs {A B C D : Type} (order : list Adapter)
    (a : M A) (b : M B) (c : M C) (d : M D) (ia ib ic id : Adapter) :
  (forall w, a w = (outcome a, sent ia w)) ->
  (forall w, b w = (outcome b, sent ib w)) ->
  (forall w, c w = (outcome c, sent ic w)) ->
  (forall w, d w = (outcome d, sent id w)) ->
  forall w,
    snd (all4 order a b c d w) = sent id (sent ic (sent ib (sent ia w))) /\
    match outcome a, outcome b, outcome c, outcome d with
    | Ok x, Ok y, Ok z, Ok u => fst (all4 order a b c d w) = Ok (x, y, z, u)
    | _, _, _, _ => exists msg, fst (all4 order a b c d w) = Throw msg
    end.
Proof.
  intros Ha Hb Hc Hd w.
  unfold all4, bind, settle. rewrite Ha, Hb, Hc, Hd.
  destruct (outcome a), (outcome b), (outcome c), (outcome d);
    cbn [fst snd throw ret]; split; eauto.
Qed.

(** [main], stage by stage. *)
Lemma main_stages (env : Env) (argv : list string) (w : World) :
  let r := main haversineKm env argv w in
  let nasaKey := nullish (NASA_API_KEY env) "DEMO_KEY" in
  match parseArgs (clock_args env) argv with
  | Throw msg => r = (Throw msg, w)
  | Ok args =>
      match snd (feed_range (date args) (Cli.days args)) with
      | None => r = (Throw "Invalid time value", w)
      | Some endDate =>
          match outcome (getCityLocation env (city args)) with
          | Throw msg => r = (Throw msg, sent NominatimSearch w)
          | Ok _ =>
              match outcome (getIssNow env), outcome (getSpaceXNext env),
                    outcome (getApod env nasaKey (date args)),
                    outcome (getNeoFeed env nasaKey (date args) endDate)
              with
              | Ok _, Ok launch, Ok _, Ok _ =>
                  match write_error env with
                  | Some msg => r = (Throw msg, all_sent w)
                  | None =>
                      exists b : Briefing,
                        r = (Ok tt,
                             {| requests := requests (all_sent w);
                                files := <["briefing.json" := b]> (files w) |}) /\
                        b_hoursToLaunch (nextLaunch b) =
                          hoursToLaunch (date_utc launch) (clock_launch env)
                  end
              | _, _, _, _ => exists msg, r = (Throw msg, all_sent w)
              end
          end
      end
  end.
Proof.
  intros r nasaKey. unfold r, main, bind, lift.
  destruct (parseArgs (clock_args env) argv) as [args|msg]; [|reflexivity].
  change (fst (feed_range (date args) (Cli.days args))) with (date args).
  destruct (snd (feed_range (date args) (Cli.days args))) as [endDate|];
    [|reflexivity].
  rewrite getCityLocation_runs.
  destruct (outcome (getCityLocation env (city args))) as [loc|msg];
    [|reflexivity].
  fold nasaKey.
  destruct (all4_runs (settle_order env)
              (getIssNow env) (getSpaceXNext env)
              (getApod env nasaKey (date args))
              (getNeoFeed env nasaKey (date args) endDate)
              IssNowCall SpaceXNext NasaApodCall NasaNeoFeedCall
              (getIssNow_runs env) (getSpaceXNext_runs env)
              (getApod_runs env nasaKey (date args))
              (getNeoFeed_runs env nasaKey (date args) endDate)
              (sent NominatimSearch w)) as [Hw Hr].
  fold (all_sent w) in Hw.
  destruct (all4 (settle_order env) (getIssNow env) (getSpaceXNext env)
              (getApod env nasaKey (date args))
              (getNeoFeed env nasaKey (date args) endDate)
              (sent NominatimSearch w)) as [r4 w4].
  cbn [fst snd] in Hw, Hr. subst w4.
  destruct (outcome (getIssNow env)) as [issNow|];
    [|destruct Hr as [msg ->]; eauto].
  destruct (outcome (getSpaceXNext env)) as [launch|];
    [|destruct Hr as [msg ->]; eauto].
  destruct (outcome (getApod env nasaKey (date args))) as [apod|];
    [|destruct Hr as [msg ->]; eauto].
  destruct (outcome (getNeoFeed env nasaKey (date args) endDate)) as [feed|];
    [|destruct Hr as [msg ->]; eauto].
  subst r4. unfold writeFile.
  destruct (write_error env) as [msg|]; [reflexivity|].
  eexists. split; [reflexivity|]. reflexivity.
Qed.

Lemma requests_all_sent (w : World) :
  requests (all_sent w) =
  (requests w ++
   [NominatimSearch; IssNowCall; SpaceXNext; NasaApodCall; NasaNeoFeedCall])%list.
Proof.
  unfold all_sent, sent. cbn [requests]. now rewrite <- !app_assoc.
Qed.

(** A failed run leaves the files as they were; a run ends with 0 or 1. *)
Lemma run_exit_codes (env : Env) (argv : list string) (w : World) :
  let out := run haversineKm env argv w in
  (exit_code out = 0 /\ exists b, files (world out) = <["briefing.json" := b]> (files w)) \/
  (exit_code out = 1 /\ files (world out) = files w).
Proof.
  intros out. unfold out, run.
  pose proof (main_stages env argv w) as H. cbv zeta in H.
  destruct (parseArgs (clock_args env) argv) as [args|msg];
    [|rewrite H; right; split; reflexivity].
  destruct (snd (feed_range (date args) (Cli.days args))) as [endDate|];
    [|rewrite H; right; split; reflexivity].
  destruct (outcome (getCityLocation env (city args))) as [loc|msg];
    [|rewrite H; right; split; reflexivity].
  destruct (outcome (getIssNow env));
    [|destruct H as [msg ->]; right; split; reflexivity].
  destruct (outcome (getSpaceXNext env));
    [|destruct H as [msg ->]; right; split; reflexivity].
  destruct (outcome (getApod env _ (date args)));
    [|destruct H as [msg ->]; right; split; reflexivity].
  destruct (outcome (getNeoFeed env _ (date args) endDate));
    [|destruct H as [msg ->]; right; split; reflexivity].
  destruct (write_error env); [rewrite H; right; split; reflexivity|].
  destruct H as (b & -> & _). left. split; [reflexivity|]. now exists b.
Qed.

(** A geocoder answer without candidates makes the lookup fail. *)
Lemma getCityLocation_no_candidate (env : Env) (city : string) (status : Z) :
  nominatim_search env city = Responds status (Some []) ->
  fails (getCityLocation env city).
Proof.
  intros H. unfold fails, outcome, getCityLocation, bind, timed, http_get.
  rewrite H. cbn [fst snd]. destruct (status >=? 400); cbn; eauto.
Qed.

(** C3. With no geocoding candidate the run ends with exit code 1, has sent
    no request but the geocoding one, and leaves the files untouched; when
    any of the five adapters fails the run ends with exit code 1 and the
    files are untouched; no run that ends with 1 has written a file. *)
Theorem run_aborts_on_adapter_failure
    (env : Env) (argv : list string) (w : World) :
  let out := run haversineKm env argv w in
  let nasaKey := nullish (NASA_API_KEY env) "DEMO_KEY" in
  ((forall args, parseArgs (clock_args env) argv = Ok args ->
      exists status,
        nominatim_search env (city args) = Responds status (Some [])) ->
   exit_code out = 1 /\
   files (world out) = files w /\
   (requests (world out) = requests w \/
    requests (world out) = (requests w ++ [NominatimSearch])%list)) /\
  ((forall args endDate,
      parseArgs (clock_args env) argv = Ok args ->
      snd (feed_range (date args) (Cli.days args)) = Some endDate ->
      fails (getCityLocation env (city args)) \/
      fails (getIssNow env) \/
      fails (getSpaceXNext env) \/
      fails (getApod env nasaKey (date args)) \/
      fails (getNeoFeed env nasaKey (date args) endDate)) ->
   exit_code out = 1 /\ files (world out) = files w) /\
  (exit_code out = 1 -> files (world out) = files w).
Proof.
  intros out nasaKey.
  pose proof (main_stages env argv w) as H. cbv zeta in H. fold nasaKey in H.
  unfold out, run.
  split; [|split].
  - intros Hzero.
    destruct (parseArgs (clock_args env) argv) as [args|msg];
      [|rewrite H; auto].
    destruct (Hzero args eq_refl) as [status Hs].
    destruct (getCityLocation_no_candidate env (city args) status Hs) as [m Hm].
    destruct (snd (feed_range (date args) (Cli.days args))) as [endDate|];
      [|rewrite H; auto].
    rewrite Hm in H. rewrite H. cbn. auto.
  - intros Hfail.
    destruct (parseArgs (clock_args env) argv) as [args|msg];
      [|rewrite H; auto].
    destruct (snd (feed_range (date args) (Cli.days args))) as [endDate|] eqn:E;
      [|rewrite H; auto].
    specialize (Hfail args endDate eq_refl E). unfold fails in Hfail.
    destruct (outcome (getCityLocation env (city args))) as [loc|msg];
      [|rewrite H; auto].
    destruct (outcome (getIssNow env));
      [|destruct H as [msg ->]; auto].
    destruct (outcome (getSpaceXNext env));
      [|destruct H as [msg ->]; auto].
    destruct (outcome (getApod env nasaKey (date args)));
      [|destruct H as [msg ->]; auto].
    destruct (outcome (getNeoFeed env nasaKey (date args) endDate));
      [|destruct H as [msg ->]; auto].
    exfalso.
    destruct Hfail as [[m Hm]|[[m Hm]|[[m Hm]|[[m Hm]|[m Hm]]]]]; discriminate.
  - intros Hexit.
    destruct (run_exit_codes env argv w) as [[H0 _]|[_ Hf]].
    + unfold run in H0. rewrite H0 in Hexit. discriminate.
    + exact Hf.
Qed.

(** *** Time to launch *)

Lemma hoursToLaunch_cases (s : string) (now : Z) :
  (Date_parse s = None -> hoursToLaunch s now = 0%num) /\
  (forall t, Date_parse s = Some t ->
     hoursToLaunch s now = ((of_Z t - of_Z now) / 3600000)%num).
Proof.
  unfold hoursToLaunch, launchMs.
  split; [intros -> | intros t ->]; reflexivity.
Qed.

Lemma getSpaceXNext_spec (env : Env) (status : Z) (launch : SpaceXNextLaunch) :
  spacex_next env = Responds status launch ->
  outcome (getSpaceXNext env) =
  if status >=? 400 then Throw ("SpaceX HTTP " ++ pretty status) else Ok launch.
Proof.
  intros H. unfold outcome, getSpaceXNext, bind, timed, http_get.
  rewrite H. cbn [fst snd]. destruct (status >=? 400); reflexivity.
Qed.

(** Replacing the launch timestamp keeps the launch call a success or a
    failure. *)
Lemma with_launch_date_outcome (env : Env) (s : string) :
  match outcome (getSpaceXNext env),
        outcome (getSpaceXNext (with_launch_date env s)) with
  | Ok _, Ok _ | Throw _, Throw _ => True
  | _, _ => False
  end.
Proof.
  unfold outcome, getSpaceXNext, bind, timed, http_get, with_launch_date.
  cbn [spacex_next]. destruct (spacex_next env) as [|status launch];
    cbn [fst snd]; [exact I|].
  destruct (status >=? 400); exact I.
Qed.

(** C8. An unparseable launch timestamp gives 0 hours, a parseable one the
    difference to the clock in hours; the timestamp never decides whether
    the run fails, and a run that succeeds records that value. *)
Theorem launch_time_fallback (env : Env) (argv : list string) (w : World) :
  (forall s now,
     (Date_parse s = None -> hoursToLaunch s now = 0%num) /\
     (forall t, Date_parse s = Some t ->
        hoursToLaunch s now = ((of_Z t - of_Z now) / 3600000)%num)) /\
  (forall s,
     exit_code (run haversineKm (with_launch_date env s) argv w) =
     exit_code (run haversineKm env argv w)) /\
  (forall status launch,
     spacex_next env = Responds status launch ->
     exit_code (run haversineKm env argv w) = 0 ->
     exists b,
       files (world (run haversineKm env argv w)) !! "briefing.json" = Some b /\
       b_hoursToLaunch (nextLaunch b) =
         hoursToLaunch (date_utc launch) (clock_launch env)).
Proof.
  split; [exact hoursToLaunch_cases|]. split.
  - intros s.
    pose proof (main_stages env argv w) as H.
    pose proof (main_stages (with_launch_date env s) argv w) as H'.
    pose proof (with_launch_date_outcome env s) as Hl.
    cbv zeta in H, H'. unfold run.
    change (clock_args (with_launch_date env s)) with (clock_args env) in H'.
    change (NASA_API_KEY (with_launch_date env s)) with (NASA_API_KEY env) in H'.
    change (write_error (with_launch_date env s)) with (write_error env) in H'.
    change (getCityLocation (with_launch_date env s))
      with (getCityLocation env) in H'.
    change (getIssNow (with_launch_date env s)) with (getIssNow env) in H'.
    change (getApod (with_launch_date env s)) with (getApod env) in H'.
    change (getNeoFeed (with_launch_date env s)) with (getNeoFeed env) in H'.
    destruct (parseArgs (clock_args env) argv) as [args|msg];
      [|now rewrite H, H'].
    destruct (snd (feed_range (date args) (Cli.days args))) as [endDate|];
      [|now rewrite H, H'].
    destruct (outcome (getCityLocation env (city args))) as [loc|msg];
      [|now rewrite H, H'].
    destruct (outcome (getIssNow env));
      [|destruct H as [m ->], H' as [m' ->]; reflexivity].
    destruct (outcome (getSpaceXNext env)),
             (outcome (getSpaceXNext (with_launch_date env s)));
      try contradiction;
      [|destruct H as [m ->], H' as [m' ->]; reflexivity].
    destruct (outcome (getApod env _ (date args)));
      [|destruct H as [m ->], H' as [m' ->]; reflexivity].
    destruct (outcome (getNeoFeed env _ (date args) endDate));
      [|destruct H as [m ->], H' as [m' ->]; reflexivity].
    destruct (write_error env); [now rewrite H, H'|].
    destruct H as (b & -> & _), H' as (b' & -> & _). reflexivity.
  - intros status launch Hs.
    pose proof (main_stages env argv w) as H. cbv zeta in H. unfold run.
    rewrite (getSpaceXNext_spec env status launch Hs) in H.
    destruct (parseArgs (clock_args env) argv) as [args|msg];
      [|rewrite H; discriminate].
    destruct (snd (feed_range (date args) (Cli.days args))) as [endDate|];
      [|rewrite H; discriminate].
    destruct (outcome (getCityLocation env (city args))) as [loc|msg];
      [|rewrite H; discriminate].
    destruct (outcome (getIssNow env));
      [|destruct H as [m ->]; discriminate].
    destruct (status >=? 400);
      [destruct H as [m ->]; discriminate|].
    destruct (outcome (getApod env _ (date args)));
      [|destruct H as [m ->]; discriminate].
    destruct (outcome (getNeoFeed env _ (date args) endDate));
      [|destruct H as [m ->]; discriminate].
    destruct (write_error env); [rewrite H; discriminate|].
    destruct H as (b & -> & Hb). intros _. exists b.
    cbn [world files]. split; [apply lookup_insert_eq | exact Hb].
Qed.

End PipelineFacts.

Section PipelineWitnesses.
Import Pipeline.
Local Open Scope string_scope.
Local Open Scope Z_scope.

Lemma run_aborts_on_adapter_failure_witness :
  let out := run Fixtures.no_distance Fixtures.env_no_city Fixtures.argv_pune world0 in
  exit_code out = 1 /\ files (world out) = files world0 /\
  (requests (world out) = requests world0 \/
   requests (world out) = (requests world0 ++ [NominatimSearch])%list).
Proof.
  apply (run_aborts_on_adapter_failure Fixtures.no_distance
           Fixtures.env_no_city Fixtures.argv_pune world0).
  intros args _. exists 200. reflexivity.
Defined.

Lemma launch_time_fallback_witness :
  let env := with_launch_date Fixtures.env_ok "to be announced" in
  let out := run Fixtures.no_distance env Fixtures.argv_pune world0 in
  exit_code out = 0 /\
  exists b,
    files (world out) !! "briefing.json" = Some b /\
    b_hoursToLaunch (nextLaunch b) = 0%num.
Proof.
  intros env out. split; [reflexivity|].
  destruct (launch_time_fallback Fixtures.no_distance env Fixtures.argv_pune world0)
    as (Hh & _ & Hb).
  destruct (Hb 200 {| launch_name := "USSF-44";
                      date_utc := "to be announced";
                      details := None;
                      links_webcast := None |} eq_refl eq_refl)
    as (b & Hfile & Hhours).
  exists b. split; [exact Hfile|].
  rewrite Hhours. apply (Hh "to be announced" 1704067201000). reflexivity.
Defined.

End PipelineWitnesses.

(** ** Great-circle distance *)

Section GeoFacts.
Import Geo.
Local Open Scope R_scope.

Lemma toRad_opp (x : R) : toRad (- x) = - toRad x.
Proof. unfold toRad. field. Qed.

Lemma sin_half_opp_sq (x : R) :
  sin (- x / 2) * sin (- x / 2) = sin (x / 2) * sin (x / 2).
Proof.
  replace (- x / 2) with (- (x / 2)) by field.
  rewrite sin_neg. ring.
Qed.

Lemma atan2_0_1 : atan2 0 1 = 0.
Proof.
  unfold atan2. destruct (Rlt_dec 0 1) as [_|H]; [|exfalso; Lra.lra].
  replace (0 / 1) with 0 by field. apply atan_0.
Qed.


End GeoFacts.

(** ** The threat score in binary64 *)

Section Binary64Facts.
Import PrimFloat FloatOps SpecFloat Binary64.
Local Open Scope float_scope.

(** Comparing the other way round gives the opposite answer. *)
Lemma SFcompare_antisym (x y : spec_float) (c : comparison) :
  SFcompare x y = Some c -> SFcompare y x = Some (CompOpp c).
Proof.
  destruct x as [sx|sx| |sx mx ex], y as [sy|sy| |sy my ey];
    cbn [SFcompare]; try discriminate; intros [= <-];
    try (destruct sx; reflexivity); try (destruct sy; reflexivity);
    try (destruct sx, sy; reflexivity).
  f_equal.
  rewrite (Z.compare_antisym ex ey).
  change (PosDef.Pos.compare_cont Eq my mx) with (Pos.compare my mx).
  change (PosDef.Pos.compare_cont Eq mx my) with (Pos.compare mx my).
  rewrite (Pos.compare_antisym mx my).
  destruct sx, sy; try reflexivity;
    destruct (ex ?= ey)%Z; cbn [CompOpp]; try reflexivity;
    destruct (mx ?= my)%positive; reflexivity.
Qed.

(** Two numbers compare as soon as neither is [NaN]. *)
Lemma SFcompare_total (x y z : spec_float) (c : comparison) :
  SFcompare x z = Some c -> y <> S754_nan ->
  exists c', SFcompare y z = Some c'.
Proof.
  destruct x, y, z; cbn [SFcompare]; try discriminate; try congruence; eauto.
Qed.

Lemma leb_not_ltb (x y : float) : (x <=? y) = true -> (y <? x) = false.
Proof.
  rewrite FloatAxioms.leb_spec, FloatAxioms.ltb_spec. unfold SFleb, SFltb.
  destruct (SFcompare (Prim2SF x) (Prim2SF y)) as [c|] eqn:E; [|discriminate].
  rewrite (SFcompare_antisym _ _ _ E).
  destruct c; cbn [CompOpp]; try reflexivity; discriminate.
Qed.

(** Between two thresholds: at least the lower one and not at least the
    upper one is below the upper one. *)
Lemma between_thresholds (lo hi s : float) :
  is_nan hi = false ->
  (lo <=? s) = true -> (hi <=? s) = false -> (s <? hi) = true.
Proof.
  intros Hhi. rewrite !FloatAxioms.leb_spec, FloatAxioms.ltb_spec.
  unfold SFleb, SFltb.
  destruct (SFcompare (Prim2SF lo) (Prim2SF s)) as [c|] eqn:E; [|discriminate].
  intros _.
  assert (Hn : Prim2SF hi <> S754_nan).
  { unfold Prim2SF. rewrite Hhi.
    destruct (is_zero hi); [discriminate|].
    destruct (is_infinity hi); [discriminate|].
    destruct (Z.frexp hi) as [r ex].
    destruct (shr_fexp prec emax _ _ _) as [shr e'].
    destruct (shr_m shr); discriminate. }
  destruct (SFcompare_total _ (Prim2SF hi) _ _ E Hn) as [c' E'].
  rewrite E', (SFcompare_antisym _ _ _ E').
  destruct c'; cbn [CompOpp]; try discriminate; reflexivity.
Qed.

(** C1. [computeThreat] returns [Math.round] of the weighted sum of the six
    terms, with the miss-risk term 0 when the minimum miss distance is
    exactly 0 and [max(0, 3 - minMiss/1e6)] otherwise, every operation
    being the binary64 one, and classifies the score HIGH iff
    [score >= 18], MEDIUM iff [10 <= score < 18], LOW otherwise. *)
Theorem computeThreat_score_and_level
    (neo : NeoSummary) (issDistanceKm hoursToLaunch : float) :
  let t := computeThreat neo issDistanceKm hoursToLaunch in
  exists missRisk sizeRisk issRisk launchRisk : float,
    ((minMissDistanceKm neo =? 0) = true -> missRisk = 0) /\
    ((minMissDistanceKm neo =? 0) = false ->
       missRisk = Math_max 0 (3 - minMissDistanceKm neo / 1000000)) /\
    sizeRisk = Math_min 5 (maxEstimatedDiameterMeters neo / 100) /\
    issRisk = Math_max 0 (2 - issDistanceKm / 2000) /\
    launchRisk = Math_max 0 (2 - hoursToLaunch / 24) /\
    score t =
      Math_round
        (hazardousCount neo * 3 + totalCount neo * 0.2 +
         missRisk * 4 + sizeRisk * 2 + issRisk * 2 + launchRisk * 1) /\
    (level t = Threat.HIGH <-> (18 <=? score t) = true) /\
    (level t = Threat.MEDIUM <->
       (10 <=? score t) = true /\ (score t <? 18) = true) /\
    (level t = Threat.LOW <->
       (18 <=? score t) = false /\
       ((10 <=? score t) && (score t <? 18)) = false).
Proof.
  intros t.
  exists (if minMissDistanceKm neo =? 0 then 0
          else Math_max 0 (3 - minMissDistanceKm neo / 1000000)).
  do 3 eexists.
  split; [intros ->; reflexivity|].
  split; [intros ->; reflexivity|].
  do 3 (split; [reflexivity|]).
  split; [reflexivity|].
  assert (Hl : level t =
               if 18 <=? score t then Threat.HIGH
               else if 10 <=? score t then Threat.MEDIUM else Threat.LOW)
    by reflexivity.
  rewrite Hl. clear Hl. generalize (score t). intros s.
  pose proof (leb_not_ltb 18 s) as H1.
  pose proof (between_thresholds 10 18 s eq_refl) as H2.
  destruct (18 <=? s), (10 <=? s), (s <? 18);
    try (specialize (H1 eq_refl)); try (specialize (H2 eq_refl eq_refl));
    try discriminate;
    cbn [andb]; repeat split; try congruence; intros [? ?]; congruence.
Qed.

(** The sum is rounded at every step: with 3 hazardous objects, a largest
    diameter of 10 m, a smallest miss distance of 2,950,000 km, the ISS
    3900 km away and 48 hours to launch the terms add up to
    9.499999999999998 and the score is 9, where the same terms added
    exactly give 9.5 and would round to 10. *)
Example computeThreat_rounds_each_step :
  Binary64.computeThreat
    (Binary64.mkNeoSummary 3 0 3 10 2950000 (Binary64.mkBuckets 0 0 3)) 3900 48
  = {| score := 9; level := Threat.LOW |} /\
  Threat.computeThreat
    (Threat.mkNeoSummary (JsNumber.of_Z 3) (JsNumber.of_Z 0) (JsNumber.of_Z 3)
       (JsNumber.of_Z 10) (JsNumber.of_Z 2950000)
       (Threat.mkBuckets (JsNumber.of_Z 0) (JsNumber.of_Z 0) (JsNumber.of_Z 3)))
    (JsNumber.of_Z 3900) (JsNumber.of_Z 48)
  = Threat.mkThreat (JsNumber.of_Z 10) Threat.MEDIUM.
Proof. split; vm_compute; reflexivity. Qed.

(** [Math.round] on halves, near a half and on large numbers. *)
Example Math_round_samples :
  Math_round 2.5 = 3 /\ Math_round (-2.5) = -2 /\ Math_round (-2.6) = -3 /\
  Math_round 0.49999999999999994 = 0 /\ Math_round 9.4999999999999982 = 9 /\
  Math_round 4503599627370497 = 4503599627370497 /\
  Math_round infinity = infinity /\ is_nan (Math_round nan) = true.
Proof. vm_compute. repeat split; reflexivity. Qed.

End Binary64Facts.


(** * Further properties *)

(** ** More calendar arithmetic *)

Section CalendarFacts.
Local Open Scope Z_scope.

Ltac decide_tests :=
  repeat match goal with
  | |- context [Z.leb ?a ?b] =>
      let v := eval vm_compute in (Z.leb a b) in
      match v with true => idtac | false => idtac end;
      change (Z.leb a b) with v
  | |- context [Z.ltb ?a ?b] =>
      let v := eval vm_compute in (Z.ltb a b) in
      match v with true => idtac | false => idtac end;
      change (Z.ltb a b) with v
  | |- context [Z.eqb ?a ?b] =>
      let v := eval vm_compute in (Z.eqb a b) in
      match v with true => idtac | false => idtac end;
      change (Z.eqb a b) with v
  end; cbv iota.
(** A day of an era splits into a year of the era and a day of that year. *)
Lemma era_split (doe : Z) :
  0 <= doe <= 146096 ->
  let yoe := (doe - doe / 1460 + doe / 36524 - doe / 146096) / 365 in
  let doy := doe - (365 * yoe + yoe / 4 - yoe / 100) in
  0 <= yoe <= 399 /\ 0 <= doy <= 365 /\
  (doy = 365 -> (yoe + 1) mod 4 = 0 /\ ((yoe + 1) mod 100 <> 0 \/ yoe = 399)).
Proof.
  intros H yoe doy. subst doy yoe.
  Z.div_mod_to_equations; lia.
Qed.

(** A day of a year that starts in March splits into a month and a day. *)
Lemma month_day_split (doy : Z) :
  0 <= doy <= 365 ->
  let mp := (5 * doy + 2) / 153 in
  let d := doy - (153 * mp + 2) / 5 + 1 in
  0 <= mp <= 11 /\ 1 <= d <= 31 /\
  (mp = 11 -> d = doy - 336) /\
  ((mp = 1 \/ mp = 3 \/ mp = 6 \/ mp = 8) -> d <= 30).
Proof.
  intros H mp d. subst d mp.
  Z.div_mod_to_equations; lia.
Qed.

(** Every day number is a calendar date. *)
Lemma civil_from_days_valid (z : Z) : valid_date (civil_from_days z).
Proof.
  unfold civil_from_days.
  set (era := (z + 719468) / 146097).
  set (doe := z + 719468 - era * 146097).
  assert (Hdoe : 0 <= doe <= 146096)
    by (unfold doe, era; Z.div_mod_to_equations; lia).
  destruct (era_split doe Hdoe) as (Hyoe & Hdoy & Hleap).
  cbv zeta in *.
  set (yoe := (doe - doe / 1460 + doe / 36524 - doe / 146096) / 365) in *.
  set (doy := doe - (365 * yoe + yoe / 4 - yoe / 100)) in *.
  destruct (month_day_split doy Hdoy) as (Hmp & Hd & Hfeb & H30).
  cbv zeta in *.
  set (mp := (5 * doy + 2) / 153) in *.
  set (d := doy - (153 * mp + 2) / 5 + 1) in *.
  unfold valid_date.
  assert (Hc : mp = 0 \/ mp = 1 \/ mp = 2 \/ mp = 3 \/ mp = 4 \/ mp = 5 \/
               mp = 6 \/ mp = 7 \/ mp = 8 \/ mp = 9 \/ mp = 10 \/ mp = 11) by lia.
  clearbody mp d.
  repeat (destruct Hc as [->|Hc]); [..|subst mp];
    decide_tests; unfold days_in_month; decide_tests; cbn [orb]; try lia.
  destruct (is_leap (yoe + era * 400 + 1)) eqn:L; [lia|].
  split; [lia|]. split; [lia|].
  destruct (Z.eq_dec doy 365) as [E|E]; [|lia].
  exfalso. destruct (Hleap E) as [H4 H100].
  assert (is_leap (yoe + era * 400 + 1) = true); [|congruence].
  apply is_leap_spec. clear L. Z.div_mod_to_equations; lia.
Qed.

(** Reading a date back gives the day number it came from. *)
Lemma days_from_civil_from_days (z : Z) :
  day_number (civil_from_days z) = z.
Proof.
  unfold civil_from_days.
  set (era := (z + 719468) / 146097).
  set (doe := z + 719468 - era * 146097).
  assert (Hdoe : 0 <= doe <= 146096)
    by (unfold doe, era; Z.div_mod_to_equations; lia).
  destruct (era_split doe Hdoe) as (Hyoe & Hdoy & Hleap).
  cbv zeta in *.
  set (yoe := (doe - doe / 1460 + doe / 36524 - doe / 146096) / 365) in *.
  set (doy := doe - (365 * yoe + yoe / 4 - yoe / 100)) in *.
  destruct (month_day_split doy Hdoy) as (Hmp & Hd & Hfeb & H30).
  cbv zeta in *.
  assert (Hdoy' : doy = (153 * ((5 * doy + 2) / 153) + 2) / 5 +
                        (doy - (153 * ((5 * doy + 2) / 153) + 2) / 5 + 1) - 1) by lia.
  set (mp := (5 * doy + 2) / 153) in *.
  set (d := doy - (153 * mp + 2) / 5 + 1) in *.
  assert (Hc : mp = 0 \/ mp = 1 \/ mp = 2 \/ mp = 3 \/ mp = 4 \/ mp = 5 \/
               mp = 6 \/ mp = 7 \/ mp = 8 \/ mp = 9 \/ mp = 10 \/ mp = 11) by lia.
  assert (Hz : z = era * 146097 + doe - 719468) by (unfold doe; lia).
  assert (Hdoe' : doe = yoe * 365 + yoe / 4 - yoe / 100 + doy) by (unfold doy; lia).
  clearbody mp d doy yoe doe era.
  unfold day_number, days_from_civil.
  repeat (destruct Hc as [->|Hc]); [..|subst mp];
    decide_tests;
    match goal with
    | |- context [(?y' / 400)] =>
        replace (y' / 400) with era by (Z.div_mod_to_equations; lia)
    end; Z.div_mod_to_equations; lia.
Qed.

End CalendarFacts.


(** ** [addDays] *)

Section AddDaysFacts.
Local Open Scope Z_scope.

Lemma plus_days_add (a b : nat) (t : Z * Z * Z) :
  plus_days (a + b) t = plus_days b (plus_days a t).
Proof.
  unfold plus_days. rewrite Nat.add_comm. apply Nat.iter_add.
Qed.

Lemma addDays_whole_forward (t : Z * Z * Z) (k : nat) :
  valid_date t -> 0 <= year_of t <= 9999 -> Z.of_nat k <= 1000000 ->
  year_of (plus_days k t) <= 9999 ->
  addDays (format_date t) (of_Z (Z.of_nat k)) = Some (format_date (plus_days k t)).
Proof.
  destruct t as [[y m] d]. cbn [year_of fst]. intros Hv Hy Hk He.
  unfold of_Z.
  assert (Hf : Qfloor (inject_Z (Z.of_nat k)) = Z.of_nat k) by apply Qfloor_Z.
  rewrite (addDays_forward y m d (inject_Z (Z.of_nat k)) Hv Hy).
  - rewrite Hf, Nat2Z.id. reflexivity.
  - change 0%Q with (inject_Z 0). rewrite <- Zle_Qle. lia.
  - change 1000000%Q with (inject_Z 1000000). rewrite <- Zle_Qle. lia.
  - rewrite Hf, Nat2Z.id. exact He.
Qed.

(** X1. On a calendar date, [addDays] by 0 days gives the date back, and
    adding [a] days and then [b] days is adding [a + b] days. *)
Theorem addDays_composes (t : Z * Z * Z) (a b : nat) :
  valid_date t -> 0 <= year_of t <= 9999 -> Z.of_nat (a + b) <= 1000000 ->
  year_of (plus_days (a + b) t) <= 9999 ->
  addDays (format_date t) 0 = Some (format_date t) /\
  exists mid : string,
    addDays (format_date t) (of_Z (Z.of_nat a)) = Some mid /\
    addDays mid (of_Z (Z.of_nat b)) =
    addDays (format_date t) (of_Z (Z.of_nat (a + b))).
Proof.
  intros Hv Hy Hk He.
  pose proof (plus_days_year a t) as Hya.
  pose proof (plus_days_year b (plus_days a t)) as Hyb.
  rewrite <- plus_days_add in Hyb.
  destruct (day_number_plus_days a t Hv) as [Hva _].
  split.
  - change 0%num with (of_Z (Z.of_nat 0)).
    rewrite (addDays_whole_forward t 0); auto; try lia.
    cbn [plus_days Nat.iter nat_rect]. lia.
  - exists (format_date (plus_days a t)). split.
    + apply addDays_whole_forward; auto; lia.
    + rewrite (addDays_whole_forward (plus_days a t) b); auto; try lia.
      * rewrite (addDays_whole_forward t (a + b)); auto.
        now rewrite plus_days_add.
      * now rewrite <- plus_days_add.
Qed.

Lemma addDays_composes_witness :
  addDays "2024-02-27" 0 = Some "2024-02-27"%string /\
  exists mid : string,
    addDays "2024-02-27" 2 = Some mid /\
    addDays mid 3 = addDays "2024-02-27" 5.
Proof.
  apply (addDays_composes (2024, 2, 27) 2 3).
  - vm_compute. repeat split; discriminate.
  - cbn. lia.
  - lia.
  - vm_compute. discriminate.
Defined.

(** X2. Going [k] days forward and then [k] days back returns to the date. *)
Theorem addDays_back (t : Z * Z * Z) (k : nat) :
  valid_date t -> 0 <= year_of t <= 9999 -> Z.of_nat k <= 1000000 ->
  year_of (plus_days k t) <= 9999 ->
  exists later : string,
    addDays (format_date t) (of_Z (Z.of_nat k)) = Some later /\
    addDays later (of_Z (- Z.of_nat k)) = Some (format_date t).
Proof.
  intros Hv Hy Hk He.
  exists (format_date (plus_days k t)).
  split; [now apply addDays_whole_forward|].
  destruct (day_number_plus_days k t Hv) as [Hvk Hdk].
  pose proof (plus_days_year k t) as Hyk.
  destruct (plus_days k t) as [[y2 m2] d2] eqn:E.
  destruct t as [[y m] d]. cbn [year_of fst day_number] in *.
  pose proof Hvk as [Hm2 Hd2].
  unfold of_Z.
  rewrite (addDays_offset y2 m2 d2 (- Z.of_nat k) (inject_Z (- Z.of_nat k)));
    auto; try lia.
  - rewrite Hdk.
    replace (days_from_civil y m d + Z.of_nat k + - Z.of_nat k)
      with (days_from_civil y m d) by lia.
    now rewrite civil_from_days_from_civil.
  - rewrite <- inject_Z_plus. apply Qtrunc_inject_Z.
  - rewrite Hdk.
    replace (days_from_civil y m d + Z.of_nat k + - Z.of_nat k)
      with (days_from_civil y m d) by lia.
    rewrite civil_from_days_from_civil by exact Hv. cbn [year_of fst]. lia.
Qed.

Lemma addDays_back_witness :
  exists later : string,
    addDays "2023-12-30" 5 = Some later /\
    addDays later (-5) = Some "2023-12-30"%string.
Proof.
  apply (addDays_back (2023, 12, 30) 5).
  - vm_compute. repeat split; discriminate.
  - cbn. lia.
  - lia.
  - vm_compute. discriminate.
Defined.

(** A date text written by [format_date] has the shape [parseArgs] asks for. *)
Lemma format_date_shaped (t : Z * Z * Z) :
  is_date_shaped (format_date t) = true.
Proof.
  destruct t as [[y m] d]. unfold is_date_shaped, format_date.
  rewrite list_ascii_of_string_of_list_ascii.
  pose proof (decimal_digits 4 y) as D4.
  pose proof (decimal_digits 2 m) as Dm.
  pose proof (decimal_digits 2 d) as Dd.
  cbn [decimal app] in *.
  cbn [forallb] in *.
  rewrite !andb_true_iff in *.
  destruct D4 as (? & ? & ? & ? & _), Dm as (? & ? & _), Dd as (? & ? & _).
  repeat split; auto.
Qed.

(** The first ten characters of [toISOString] are the date, as long as the
    year has four digits. *)
Lemma toISOString_prefix (tv : Z) :
  0 <= year_of (civil_from_days (tv / msPerDay)) <= 9999 ->
  slice_to 10 (toISOString tv) = format_date (civil_from_days (tv / msPerDay)).
Proof.
  intros Hy. unfold slice_to, toISOString.
  rewrite list_ascii_of_string_of_list_ascii.
  destruct (civil_from_days (tv / msPerDay)) as [[y m] d].
  cbn [year_of fst] in Hy.
  unfold format_date, iso_date, iso_year.
  replace ((0 <=? y) && (y <=? 9999)) with true
    by (symmetry; rewrite andb_true_iff, !Z.leb_le; lia).
  rewrite firstn_app.
  assert (Hlen : List.length (decimal 4 y ++ "-"%char :: decimal 2 m ++
                              "-"%char :: decimal 2 d) = 10%nat).
  { rewrite length_app. cbn [List.length]. rewrite length_app. cbn [List.length].
    now rewrite !decimal_length. }
  rewrite Hlen, Nat.sub_diag, firstn_O, app_nil_r.
  rewrite firstn_all2 by (rewrite Hlen; lia). reflexivity.
Qed.

(** A month outside 01-12 leaves [Date.parse] without a time value. *)
Lemma addDays_bad_month (days : number) (y m d : Z) :
  0 <= y <= 9999 -> 0 <= d <= 99 -> m = 0 \/ 13 <= m <= 99 ->
  addDays (format_date (y, m, d)) days = None.
Proof.
  intros Hy Hd Hm. unfold addDays.
  replace (Date_parse (format_date (y, m, d) ++ "T00:00:00Z")) with (@None Z);
    [reflexivity|].
  unfold Date_parse, format_date.
  rewrite list_ascii_of_string_app, list_ascii_of_string_of_list_ascii.
  rewrite <- !app_assoc, <- !app_comm_cons, <- !app_assoc, <- !app_comm_cons.
  rewrite take_digits_decimal. cbn [mbind option_bind expect Ascii.eqb Bool.eqb].
  rewrite take_digits_decimal. cbn [mbind option_bind expect Ascii.eqb Bool.eqb].
  rewrite take_digits_decimal. cbn [mbind option_bind].
  rewrite !Z.mod_small by (cbn; lia).
  cbn [list_ascii_of_string].
  match goal with
  | |- context [parse_time ?l] => change (parse_time l) with (Some 0)
  end.
  cbn [mbind option_bind].
  replace ((1 <=? m) && (m <=? 12)) with false; [reflexivity|].
  symmetry. apply andb_false_iff. rewrite !Z.leb_gt. lia.
Qed.

(** X3. [addDays] ends in the RangeError of [toISOString] when the day
    count is [NaN] or infinite, whatever the date text, and when the text has
    a month outside 01-12, although such a text has the shape [parseArgs]
    asks for. *)
Theorem addDays_throws (s : string) (days : number) (y m d : Z) :
  (isFinite days = false -> addDays s days = None) /\
  (0 <= y <= 9999 -> 0 <= d <= 99 -> m = 0 \/ 13 <= m <= 99 ->
   is_date_shaped (format_date (y, m, d)) = true /\
   addDays (format_date (y, m, d)) days = None).
Proof.
  split.
  - intros Hd. unfold addDays.
    destruct (Date_parse (s ++ "T00:00:00Z")) as [tv|]; [|reflexivity].
    unfold getUTCDate.
    destruct days; try discriminate; reflexivity.
  - intros Hy Hd Hm. split; [apply format_date_shaped|].
    now apply addDays_bad_month.
Qed.

Lemma addDays_throws_witness :
  is_date_shaped "2024-13-01" = true /\ addDays "2024-13-01" 3 = None.
Proof.
  apply (addDays_throws EmptyString 3 2024 13 1); lia.
Defined.

(** X4. The fraction of a day count is ignored when the count is a
    multiple of [2^-40] between 0 and 1000, such as 2.5 or 0.75: adding
    such a count to the day of the month is exact in binary64, and
    [setUTCDate] then drops the fraction, so [addDays] gives the same
    result as for the whole part of the count, whatever the date text.
    (Other fractions are left out: the binary64 sum of the day of the month
    and a count just below a whole number can be that whole number.) *)
Theorem addDays_ignores_fraction (s : string) (j : Z) :
  0 <= j <= 1000 * 2 ^ 40 ->
  addDays s (Fin (j # 2 ^ 40)) = addDays s (of_Z (j / 2 ^ 40)).
Proof.
  intros Hj.
  assert (Hx : (0 <= j # 2 ^ 40)%Q) by (unfold Qle; cbn; lia).
  change (j / 2 ^ 40) with (Qfloor (j # 2 ^ 40)).
  generalize dependent (j # 2 ^ 40). intros x Hx.
  unfold addDays.
  destruct (Date_parse (s ++ "T00:00:00Z")) as [tv|]; [|reflexivity].
  unfold getUTCDate, setUTCDate, of_Z. cbn [add].
  pose proof (civil_from_days_valid (tv / msPerDay)) as Hv.
  destruct (civil_from_days (tv / msPerDay)) as [[y m] d].
  destruct Hv as [Hm Hd]. cbn [snd].
  rewrite !Qtrunc_shift; try lia; try exact Hx.
  - now rewrite Qfloor_Z.
  - change 0%Q with (inject_Z 0). rewrite <- Zle_Qle.
    change 0 with (Qfloor 0). now apply Qfloor_resp_le.
Qed.

Lemma addDays_ignores_fraction_witness :
  addDays "2024-02-28" (Fin (5 * 2 ^ 39 # 2 ^ 40)) = addDays "2024-02-28" 2.
Proof.
  apply (addDays_ignores_fraction "2024-02-28" (5 * 2 ^ 39)). lia.
Defined.

End AddDaysFacts.


(** ** More on [parseArgs] *)

Section ParseArgsFacts.
Import Cli.
Local Open Scope string_scope.

Lemma substring_all (s : string) : substring 0 (String.length s) s = s.
Proof.
  induction s as [|c s IH]; [reflexivity|].
  cbn [String.length substring]. now rewrite IH.
Qed.

Lemma slice_from_dashes (key : string) : slice_from 2 ("--" ++ key) = key.
Proof.
  unfold slice_from.
  change ("--" ++ key) with (String "-" (String "-" key)).
  change (String.length (String "-" (String "-" key)) - 2)%nat
    with (String.length key - 0)%nat.
  rewrite Nat.sub_0_r. apply substring_all.
Qed.

Lemma startsWith_dashes (t : string) :
  startsWith t "--" = true -> t = "--" ++ slice_from 2 t.
Proof.
  unfold startsWith. destruct t as [|a [|b r]]; cbn [prefix]; try discriminate.
  - destruct (ascii_dec "-" a); discriminate.
  - destruct (ascii_dec "-" a) as [<-|]; [|discriminate].
    destruct (ascii_dec "-" b) as [<-|]; [|discriminate].
    intros _. change (String "-" (String "-" r)) with ("--" ++ r).
    now rewrite slice_from_dashes.
Qed.

Lemma startsWith_dashes_app (key : string) : startsWith ("--" ++ key) "--" = true.
Proof.
  unfold startsWith.
  change ("--" ++ key) with (String "-" (String "-" key)).
  cbn [prefix].
  destruct (ascii_dec "-" "-"); [|congruence].
  now destruct key.
Qed.

(** Storing under a key other than [__proto__] is an insertion; storing
    touches no other key, and never [__proto__]. *)
Lemma assign_lookup (key value : string) (parsed : gmap string string) :
  key <> "__proto__" -> assign key value parsed !! key = Some value.
Proof.
  intros Hk. unfold assign.
  destruct (String.eqb_spec key "__proto__") as [E|_]; [contradiction|].
  apply lookup_insert_eq.
Qed.

Lemma assign_lookup_ne (k key value : string) (parsed : gmap string string) :
  k <> key -> assign k value parsed !! key = parsed !! key.
Proof.
  intros Hk. unfold assign.
  destruct (String.eqb k "__proto__"); [reflexivity|].
  now apply lookup_insert_ne.
Qed.

Lemma assign_lookup_proto (k value : string) (parsed : gmap string string) :
  assign k value parsed !! "__proto__" = parsed !! "__proto__".
Proof.
  unfold assign.
  destruct (String.eqb_spec k "__proto__") as [E|Hne]; [reflexivity|].
  now apply lookup_insert_ne.
Qed.

(** One step of the loop on an option token. *)
Lemma scan_option (key : string) (rest : list string) (parsed : gmap string string) :
  scan (("--" ++ key) :: rest) parsed =
  match rest with
  | value :: rest' =>
      if nonempty value && negb (startsWith value "--")
      then scan rest' (assign key value parsed)
      else scan rest (assign key "true" parsed)
  | [] => assign key "true" parsed
  end.
Proof.
  cbn [scan]. rewrite startsWith_dashes_app, slice_from_dashes. reflexivity.
Qed.

Lemma scan_cases (token : string) (rest : list string) (parsed : gmap string string) :
  (startsWith token "--" = false /\ scan (token :: rest) parsed = scan rest parsed) \/
  (exists key, token = "--" ++ key).
Proof.
  destruct (startsWith token "--") eqn:E.
  - right. exists (slice_from 2 token). now apply startsWith_dashes.
  - left. split; [reflexivity|]. cbn [scan]. now rewrite E.
Qed.

Lemma scan_last_wins_aux (key value : string) (n : nat) :
  key <> "__proto__" ->
  nonempty value = true -> startsWith value "--" = false ->
  forall (args : list string) (parsed : gmap string string),
    (List.length args <= n)%nat ->
    scan (args ++ ["--" ++ key; value]) parsed !! key = Some value.
Proof.
  intros Hkey Hne Hopt. induction n as [|n IH]; intros args parsed Hlen.
  - destruct args; [|cbn in Hlen; lia].
    cbn [app]. rewrite scan_option, Hne, Hopt. cbn [andb negb scan].
    now apply assign_lookup.
  - destruct args as [|token rest].
    { apply (IH []). cbn. lia. }
    cbn [List.length] in Hlen. cbn [app].
    destruct (scan_cases token (rest ++ ["--" ++ key; value]) parsed)
      as [[_ ->]|[k ->]].
    + apply IH. lia.
    + rewrite scan_option.
      destruct rest as [|v rest']; cbn [app].
      * rewrite startsWith_dashes_app, andb_false_r.
        apply (IH []). cbn. lia.
      * destruct (nonempty v && negb (startsWith v "--")).
        -- apply IH. cbn [List.length] in Hlen. lia.
        -- apply (IH (v :: rest')). lia.
Qed.

(** Nothing is ever stored under [__proto__]. *)
Lemma scan_proto_aux (n : nat) :
  forall (args : list string) (parsed : gmap string string),
    (List.length args <= n)%nat ->
    scan args parsed !! "__proto__" = parsed !! "__proto__".
Proof.
  induction n as [|n IH]; intros args parsed Hlen.
  - destruct args; [reflexivity | cbn in Hlen; lia].
  - destruct args as [|token rest]; [reflexivity|].
    cbn [List.length] in Hlen.
    destruct (scan_cases token rest parsed) as [[_ ->]|[k ->]].
    + apply IH. lia.
    + rewrite scan_option.
      destruct rest as [|v rest'].
      * apply assign_lookup_proto.
      * destruct (nonempty v && negb (startsWith v "--")).
        -- rewrite IH by (cbn in Hlen; lia). apply assign_lookup_proto.
        -- rewrite IH by lia. apply assign_lookup_proto.
Qed.

(** X5. An option given last on the command line with a proper value
    decides its key, whatever came before it - for every key but
    [__proto__], under which the plain object that collects the options
    never stores anything. *)
Theorem scan_last_option_wins
    (args : list string) (parsed : gmap string string) (key value : string) :
  nonempty value = true -> startsWith value "--" = false ->
  (key <> "__proto__" ->
   scan (args ++ ["--" ++ key; value]) parsed !! key = Some value) /\
  scan (args ++ ["--__proto__"; value]) parsed !! "__proto__" =
    parsed !! "__proto__".
Proof.
  intros Hne Hopt. split.
  - intros Hkey.
    now apply (scan_last_wins_aux key value (List.length args)).
  - now apply (scan_proto_aux (List.length (args ++ ["--__proto__"; value]))).
Qed.

Lemma scan_last_option_wins_witness :
  scan (["--days"; "3"; "--city"; "Pune"] ++ ["--" ++ "days"; "5"]) ∅ !! "days"
  = Some "5".
Proof.
  destruct (scan_last_option_wins ["--days"; "3"; "--city"; "Pune"] ∅ "days" "5")
    as [H _]; [reflexivity | reflexivity |].
  apply H. discriminate.
Defined.

Lemma scan_untouched_aux (key : string) (n : nat) :
  forall (args : list string) (parsed : gmap string string),
    (List.length args <= n)%nat ->
    (forall t, In t args -> t <> "--" ++ key) ->
    scan args parsed !! key = parsed !! key.
Proof.
  induction n as [|n IH]; intros args parsed Hlen Hno.
  - destruct args; [reflexivity | cbn in Hlen; lia].
  - destruct args as [|token rest]; [reflexivity|].
    cbn [List.length] in Hlen.
    assert (Hrest : forall t, In t rest -> t <> "--" ++ key)
      by (intros t Ht; apply Hno; now right).
    destruct (scan_cases token rest parsed) as [[_ ->]|[k ->]].
    + apply IH; [lia | exact Hrest].
    + assert (Hk : k <> key).
      { intros ->. now apply (Hno ("--" ++ key)); [left|]. }
      rewrite scan_option.
      destruct rest as [|v rest'].
      * now apply assign_lookup_ne.
      * destruct (nonempty v && negb (startsWith v "--")).
        -- rewrite IH; [now apply assign_lookup_ne | cbn in Hlen; lia |].
           intros t Ht. apply Hrest. now right.
        -- rewrite IH; [now apply assign_lookup_ne | lia | exact Hrest].
Qed.

(** A key is only ever set by its own option token. *)
Lemma scan_untouched (key : string) (args : list string) (parsed : gmap string string) :
  (forall t, In t args -> t <> "--" ++ key) ->
  scan args parsed !! key = parsed !! key.
Proof. now apply (scan_untouched_aux key (List.length args)). Qed.

(** X6. Without a [--city] token the arguments are rejected with the
    missing-city error, whatever else is given. *)
Theorem parseArgs_requires_city (now : Z) (argv : list string) :
  (forall t, In t (skipn 2 argv) -> t <> "--city") ->
  parseArgs now argv = Throw missing_city.
Proof.
  intros Hno. unfold parseArgs.
  rewrite (scan_untouched "city" (skipn 2 argv) ∅ Hno).
  now rewrite lookup_empty.
Qed.

Lemma parseArgs_requires_city_witness :
  parseArgs 1704067200000 ["node"; "challenge.three.ts"; "--days"; "4"; "Pune"]
  = Throw missing_city.
Proof.
  apply parseArgs_requires_city.
  intros t [<-|[<-|[<-|[]]]]; discriminate.
Defined.

(** X7. When no [--date] token is given the date is today's UTC date; it
    has the required shape, so the invalid-date error cannot occur (for a
    clock within the years 0000-9999). *)
Theorem parseArgs_default_date (now : Z) (argv : list string) :
  (forall t, In t (skipn 2 argv) -> t <> "--date") ->
  (0 <= year_of (civil_from_days (now / msPerDay)) <= 9999)%Z ->
  parseArgs now argv <> Throw invalid_date /\
  (forall a, parseArgs now argv = Ok a ->
     date a = format_date (civil_from_days (now / msPerDay))).
Proof.
  intros Hno Hy. unfold parseArgs.
  rewrite (scan_untouched "date" (skipn 2 argv) ∅ Hno), lookup_empty.
  cbn [nullish]. rewrite (toISOString_prefix now Hy), format_date_shaped.
  cbn [negb].
  destruct (scan (skipn 2 argv) ∅ !! "city") as [c|];
    [|split; [discriminate | intros a; discriminate]].
  destruct (negb (nonempty c));
    [split; [discriminate | intros a; discriminate]|].
  destruct (negb (truthy _) || isNaN _ || lt _ 1);
    [split; [discriminate | intros a; discriminate]|].
  destruct (negb (String.eqb _ "stealth") && negb (String.eqb _ "verbose"));
    [split; [discriminate | intros a; discriminate]|].
  split; [discriminate|]. intros a [= <-]. reflexivity.
Qed.

Lemma parseArgs_default_date_witness :
  parseArgs 1704067200000 ["node"; "challenge.three.ts"; "--city"; "Pune"]
  <> Throw invalid_date.
Proof.
  apply (parseArgs_default_date 1704067200000
           ["node"; "challenge.three.ts"; "--city"; "Pune"]).
  - intros t [<-|[<-|[]]]; discriminate.
  - vm_compute. split; discriminate.
Defined.

(** X8. What [parseArgs] accepts, in full: a non-empty city, a number of
    days of at least 1 read from the [--days] text or from "3", a mode that
    is [stealth] (the default) or [verbose], and a date text of the shape
    [YYYY-MM-DD], today's by default; the record returned holds exactly
    these. *)
Theorem parseArgs_accepts_exactly (now : Z) (argv : list string) (a : Args) :
  let parsed := scan (skipn 2 argv) ∅ in
  parseArgs now argv = Ok a <->
  parsed !! "city" = Some (city a) /\
  nonempty (city a) = true /\
  Cli.days a = Number_of_string (nullish (parsed !! "days") "3") /\
  le 1 (Cli.days a) = true /\
  mode a = nullish (parsed !! "mode") "stealth" /\
  (mode a = "stealth" \/ mode a = "verbose") /\
  date a = nullish (parsed !! "date") (slice_to 10 (toISOString now)) /\
  is_date_shaped (date a) = true.
Proof.
  intros parsed. unfold parseArgs. fold parsed.
  rewrite days_test.
  split.
  - destruct (parsed !! "city") as [c|]; [|discriminate].
    destruct (nonempty c) eqn:Hc; cbn [negb]; [|discriminate].
    destruct (le 1 _) eqn:Hd; cbn [negb]; [|discriminate].
    destruct (String.eqb _ "stealth") eqn:Hs; cbn [negb andb].
    + destruct (is_date_shaped _) eqn:Hshape; cbn [negb]; [|discriminate].
      intros [= <-]. cbn [city Cli.days mode date].
      apply String.eqb_eq in Hs. repeat split; auto.
    + destruct (String.eqb _ "verbose") eqn:Hv; cbn [negb]; [|discriminate].
      destruct (is_date_shaped _) eqn:Hshape; cbn [negb]; [|discriminate].
      intros [= <-]. cbn [city Cli.days mode date].
      apply String.eqb_eq in Hv. repeat split; auto.
  - destruct a as [c dd mm dt]. cbn [city Cli.days mode date].
    intros (Hc & Hne & Hd & Hle & Hm & Hmode & Hdate & Hshape).
    rewrite Hc, Hne. cbn [negb]. rewrite <- Hd, Hle. cbn [negb].
    rewrite <- Hm, <- Hdate, Hshape. cbn [negb].
    destruct Hmode as [->| ->]; reflexivity.
Qed.

Lemma parseArgs_accepts_exactly_witness :
  parseArgs 1704067200000 Fixtures.argv_pune =
  Ok {| city := "Pune"; Cli.days := 10; mode := "stealth"; date := "2024-01-01" |}.
Proof.
  apply (parseArgs_accepts_exactly 1704067200000 Fixtures.argv_pune).
  vm_compute. repeat split; auto.
Defined.

End ParseArgsFacts.


(** ** More on [summarizeNeos] *)

Section SummaryFacts.
Import Threat Neo NeoSpec NeoMore.
Local Open Scope num_scope.

Lemma le_trans_num (a b c : number) :
  (a <=? b) = true -> (b <=? c) = true -> (a <=? c) = true.
Proof.
  destruct a as [| | |p], b as [| | |q], c as [| | |r]; cbn [le];
    try discriminate; auto.
  rewrite !Qle_bool_iff. intros; lra.
Qed.

Lemma le_refl_num (a : number) : isNaN a = false -> (a <=? a) = true.
Proof.
  destruct a; cbn; try discriminate; auto. intros _. apply Qle_bool_iff. lra.
Qed.

Lemma le_antisym_num (a b : number) :
  (a <=? b) = true -> (b <=? a) = true -> same a b.
Proof.
  destruct a as [| | |p], b as [| | |q]; cbn [le same]; try discriminate; auto.
  rewrite !Qle_bool_iff. intros; lra.
Qed.

Lemma lt_le_num (a b : number) : (a <? b) = true -> (a <=? b) = true.
Proof.
  destruct a as [| | |p], b as [| | |q]; cbn [lt le]; try discriminate; auto.
  rewrite negb_true_iff, Qle_bool_false, Qle_bool_iff. intros; lra.
Qed.

Lemma not_lt_le_num (a b : number) :
  isNaN a = false -> isNaN b = false -> (a <? b) = false -> (b <=? a) = true.
Proof.
  destruct a as [| | |p], b as [| | |q]; cbn [lt le isNaN]; try discriminate; auto.
  intros _ _. now rewrite negb_false_iff.
Qed.

Lemma lt_not_NaN (a b : number) :
  (a <? b) = true -> isNaN a = false /\ isNaN b = false.
Proof. destruct a, b; cbn; try discriminate; auto. Qed.

(** *** The running maximum *)

Lemma visit_max (c : Counters) (neo : NasaNeo) :
  c_maxEstimatedDiameterMeters (visit c neo) =
  running_max (c_maxEstimatedDiameterMeters c) (diameter_max neo).
Proof.
  unfold visit, running_max.
  destruct (is_potentially_hazardous_asteroid neo), (diameter_max neo); reflexivity.
Qed.

Lemma fold_visit_max (l : list NasaNeo) :
  forall c : Counters,
    c_maxEstimatedDiameterMeters (fold_left visit l c) =
    fold_left running_max (map diameter_max l) (c_maxEstimatedDiameterMeters c).
Proof.
  induction l as [|neo l IH]; intros c; cbn [fold_left map]; [reflexivity|].
  now rewrite IH, visit_max.
Qed.

Lemma summarizeNeos_maxDiameter (feed : NasaNeoFeed) (d : number) :
  maxEstimatedDiameterMeters (summarizeNeos feed d) =
  fold_left running_max (map diameter_max (collect feed)) 0.
Proof.
  unfold summarizeNeos. cbn [maxEstimatedDiameterMeters].
  now rewrite fold_visit_max.
Qed.

Lemma running_max_step (m : number) (o : option number) :
  isNaN m = false ->
  let m' := running_max m o in
  isNaN m' = false /\ (m <=? m') = true /\
  (forall d, o = Some d -> isNaN d = false -> (d <=? m') = true) /\
  (m' = m \/ o = Some m').
Proof.
  intros Hm. unfold running_max. destruct o as [d|].
  - unfold gt. destruct (m <? d) eqn:E.
    + destruct (lt_not_NaN m d E) as [_ Hd].
      repeat split; auto.
      * now apply lt_le_num.
      * intros d' [= <-] _. now apply le_refl_num.
    + repeat split; auto.
      * now apply le_refl_num.
      * intros d' [= <-] Hd. now apply not_lt_le_num.
  - repeat split; auto; [now apply le_refl_num | discriminate].
Qed.

(** Loop invariant of the running maximum. *)
Lemma fold_running_max (l : list NasaNeo) :
  forall m : number,
    isNaN m = false ->
    let M := fold_left running_max (map diameter_max l) m in
    isNaN M = false /\ (m <=? M) = true /\
    (forall neo d, In neo l -> diameter_max neo = Some d -> isNaN d = false ->
       (d <=? M) = true) /\
    (M = m \/ exists neo, In neo l /\ diameter_max neo = Some M).
Proof.
  induction l as [|neo l IH]; intros m Hm; cbn [map fold_left].
  - repeat split; auto; try (now apply le_refl_num); try (intros ? ? []).
  - destruct (running_max_step m (diameter_max neo) Hm) as (Hn & Hle & Hub & Hat).
    cbv zeta in *.
    destruct (IH (running_max m (diameter_max neo)) Hn) as (Hn' & Hle' & Hub' & Hat').
    cbv zeta in *.
    repeat split; auto.
    + now apply (le_trans_num _ _ _ Hle).
    + intros n d [<-|Hin] Hd Hnan.
      * apply (le_trans_num _ _ _ (Hub d Hd Hnan) Hle').
      * now apply (Hub' n d).
    + destruct Hat' as [->|(n & Hin & Hn2)].
      * destruct Hat as [->|Hs]; [now left|].
        right. exists neo. split; [now left | exact Hs].
      * right. exists n. split; [now right | exact Hn2].
Qed.

(** X9. The largest diameter of the summary is 0 or the diameter of one of
    the objects, is at least 0 and at least the diameter of every object
    that has one; a diameter that is [NaN] is passed over. *)
Theorem summarizeNeos_max_diameter (feed : NasaNeoFeed) (d : number) :
  let M := maxEstimatedDiameterMeters (summarizeNeos feed d) in
  (0 <=? M) = true /\
  (forall neo x, In neo (collect feed) -> diameter_max neo = Some x ->
     isNaN x = false -> (x <=? M) = true) /\
  (M = 0 \/ exists neo, In neo (collect feed) /\ diameter_max neo = Some M).
Proof.
  intros M. unfold M. rewrite summarizeNeos_maxDiameter.
  destruct (fold_running_max (collect feed) 0 eq_refl) as (_ & H0 & Hub & Hat).
  auto.
Qed.

(** X10. Whatever the feed holds, the summary has no [NaN] and no
    [-Infinity] in it: the counts are whole numbers, the smallest miss
    distance is finite, the largest diameter is a number that is at least 0
    (it can be [+Infinity]). *)
Theorem summarizeNeos_well_formed (feed : NasaNeoFeed) (d : number) :
  let s := summarizeNeos feed d in
  is_count (totalCount s) /\ is_count (hazardousCount s) /\
  is_count (lt3 (buckets s)) /\ is_count (gte3lt4 (buckets s)) /\
  is_count (gte4 (buckets s)) /\
  isFinite (minMissDistanceKm s) = true /\
  isNaN (maxEstimatedDiameterMeters s) = false /\
  (0 <=? maxEstimatedDiameterMeters s) = true.
Proof.
  intros s.
  destruct (summarizeNeos_counts feed d) as (A & B & C & D & E).
  fold s in A, B, C, D, E.
  rewrite A, B, C, D, E. unfold count, is_count.
  repeat split; eauto.
  - now exists O.
  - unfold s. rewrite summarizeNeos_minMiss. cbv zeta.
    destruct (fold_left running_min _ PInf); reflexivity.
  - unfold s. rewrite summarizeNeos_maxDiameter.
    now destruct (fold_running_max (collect feed) 0 eq_refl) as (H & _).
  - unfold s. rewrite summarizeNeos_maxDiameter.
    now destruct (fold_running_max (collect feed) 0 eq_refl) as (_ & H & _).
Qed.

Lemma collect_fold (entries : list (string * option (list NasaNeo))) :
  forall acc : list NasaNeo,
    fold_left
      (fun all kv => match snd kv with Some arr => all ++ arr | None => all end)
      entries acc =
    acc ++ List.concat (map (fun kv => match snd kv with Some arr => arr | None => [] end)
                       entries).
Proof.
  induction entries as [|kv entries IH]; intros acc; cbn [fold_left map List.concat].
  - now rewrite app_nil_r.
  - rewrite IH. destruct (snd kv); [now rewrite app_assoc | reflexivity].
Qed.

(** The objects of a feed: its arrays, one after the other in key order. *)
Lemma collect_concat (feed : NasaNeoFeed) :
  collect feed =
  match near_earth_objects feed with
  | None => []
  | Some entries =>
      List.concat (map (fun kv => match snd kv with Some arr => arr | None => [] end)
                  entries)
  end.
Proof.
  unfold collect. destruct (near_earth_objects feed); [|reflexivity].
  now rewrite collect_fold.
Qed.

(** X11. A feed without objects - no [near_earth_objects] at all, or only
    keys that hold an empty array or no array - is summarised by zeros. *)
Theorem summarizeNeos_no_objects (feed : NasaNeoFeed) (d : number) :
  (near_earth_objects feed = None \/
   exists entries,
     near_earth_objects feed = Some entries /\
     forall kv, In kv entries -> snd kv = None \/ snd kv = Some []) ->
  summarizeNeos feed d = empty_summary d.
Proof.
  intros H.
  assert (Hc : collect feed = []).
  { rewrite collect_concat. destruct H as [->|(entries & -> & Hall)]; [reflexivity|].
    induction entries as [|kv entries IH]; [reflexivity|].
    cbn [map List.concat]. rewrite IH by (intros k Hk; apply Hall; now right).
    destruct (Hall kv (or_introl eq_refl)) as [->| ->]; reflexivity. }
  unfold summarizeNeos. rewrite Hc. reflexivity.
Qed.

Lemma summarizeNeos_no_objects_witness :
  summarizeNeos
    {| near_earth_objects :=
         Some [("2024-01-01"%string, None); ("2024-01-02"%string, Some [])] |} 3
  = empty_summary 3.
Proof.
  apply summarizeNeos_no_objects. right. eexists. split; [reflexivity|].
  intros kv [<-|[<-|[]]]; auto.
Defined.

(** *** Independence of order and grouping *)

Lemma running_min_step (m x : number) :
  isNaN m = false ->
  let m' := running_min m x in
  isNaN m' = false /\ (m' <=? m) = true /\
  (isNaN x = false -> (m' <=? x) = true) /\
  (m' = m \/ m' = x).
Proof.
  intros Hm. unfold running_min.
  destruct (isNaN x) eqn:Hx; cbn [negb andb].
  - repeat split; auto; [now apply le_refl_num | discriminate].
  - destruct (x <? m) eqn:E.
    + repeat split; auto; [now apply lt_le_num | intros _; now apply le_refl_num].
    + repeat split; auto; [now apply le_refl_num |].
      intros _. now apply not_lt_le_num.
Qed.

Lemma fold_running_min_spec (xs : list number) :
  forall m : number,
    isNaN m = false ->
    let R := fold_left running_min xs m in
    isNaN R = false /\ (R <=? m) = true /\
    (forall x, In x xs -> isNaN x = false -> (R <=? x) = true) /\
    (R = m \/ In R xs).
Proof.
  induction xs as [|x xs IH]; intros m Hm; cbn [fold_left].
  - repeat split; auto; try (now apply le_refl_num); try (intros ? []).
  - destruct (running_min_step m x Hm) as (Hn & Hle & Hlx & Hat). cbv zeta in *.
    destruct (IH (running_min m x) Hn) as (Hn' & Hle' & Hub' & Hat'). cbv zeta in *.
    repeat split; auto.
    + now apply (le_trans_num _ _ _ Hle').
    + intros y [<-|Hin] Hy.
      * now apply (le_trans_num _ _ _ Hle'), Hlx.
      * now apply Hub'.
    + destruct Hat' as [->|Hin]; [|right; now right].
      destruct Hat as [->| ->]; [now left | right; now left].
Qed.

(** Two lists with the same numbers have the same running minimum from
    [+Infinity] and the same running maximum from 0. *)
Lemma running_min_same (xs ys : list number) :
  (forall x, In x xs <-> In x ys) ->
  same (fold_left running_min xs PInf) (fold_left running_min ys PInf).
Proof.
  intros Hiff.
  destruct (fold_running_min_spec xs PInf eq_refl) as (N1 & _ & U1 & A1).
  destruct (fold_running_min_spec ys PInf eq_refl) as (N2 & _ & U2 & A2).
  cbv zeta in *.
  set (R1 := fold_left running_min xs PInf) in *.
  set (R2 := fold_left running_min ys PInf) in *.
  apply le_antisym_num.
  - destruct A2 as [->|Hin]; [destruct R1; try discriminate; reflexivity|].
    apply U1; [now apply Hiff | exact N2].
  - destruct A1 as [->|Hin]; [destruct R2; try discriminate; reflexivity|].
    apply U2; [now apply Hiff | exact N1].
Qed.

Lemma running_max_same (l1 l2 : list NasaNeo) :
  (forall neo, In neo l1 <-> In neo l2) ->
  same (fold_left running_max (map diameter_max l1) 0)
       (fold_left running_max (map diameter_max l2) 0).
Proof.
  intros Hiff.
  destruct (fold_running_max l1 0 eq_refl) as (N1 & Z1 & U1 & A1).
  destruct (fold_running_max l2 0 eq_refl) as (N2 & Z2 & U2 & A2).
  cbv zeta in *.
  set (M1 := fold_left running_max (map diameter_max l1) 0) in *.
  set (M2 := fold_left running_max (map diameter_max l2) 0) in *.
  apply le_antisym_num.
  - destruct A1 as [->|(neo & Hin & Hd)]; [exact Z2|].
    apply (U2 neo M1); [now apply Hiff | exact Hd | exact N1].
  - destruct A2 as [->|(neo & Hin & Hd)]; [exact Z1|].
    apply (U1 neo M2); [now apply Hiff | exact Hd | exact N2].
Qed.

Lemma Permutation_filter_length {A : Type} (f : A -> bool) (l1 l2 : list A) :
  Permutation l1 l2 -> List.length (filter f l1) = List.length (filter f l2).
Proof.
  induction 1 as [|x l1 l2 _ IH|x y l|l1 l2 l3 _ IH1 _ IH2]; cbn [filter].
  - reflexivity.
  - destruct (f x); cbn [List.length]; now rewrite IH.
  - destruct (f x), (f y); reflexivity.
  - now rewrite IH1.
Qed.

(** X12. The summary depends on which objects the feed holds, not on their
    order nor on the dates they are filed under: two feeds with the same
    objects have the same counts and buckets, the same smallest miss
    distance and the same largest diameter. *)
Theorem summarizeNeos_regrouping (f1 f2 : NasaNeoFeed) (d : number) :
  Permutation (collect f1) (collect f2) ->
  let s1 := summarizeNeos f1 d in
  let s2 := summarizeNeos f2 d in
  totalCount s1 = totalCount s2 /\
  hazardousCount s1 = hazardousCount s2 /\
  buckets s1 = buckets s2 /\
  same (minMissDistanceKm s1) (minMissDistanceKm s2) /\
  same (maxEstimatedDiameterMeters s1) (maxEstimatedDiameterMeters s2).
Proof.
  intros Hp s1 s2.
  destruct (summarizeNeos_counts f1 d) as (A1 & B1 & C1 & D1 & E1).
  destruct (summarizeNeos_counts f2 d) as (A2 & B2 & C2 & D2 & E2).
  fold s1 in A1, B1, C1, D1, E1. fold s2 in A2, B2, C2, D2, E2.
  assert (Hin : forall neo, In neo (collect f1) <-> In neo (collect f2)).
  { intros neo. split; apply Permutation_in; [exact Hp | now symmetry]. }
  split; [|split; [|split; [|split]]].
  - rewrite A1, A2. unfold count. now rewrite (Permutation_length Hp).
  - rewrite B1, B2. unfold count, hazardous.
    now rewrite (Permutation_filter_length _ _ _ Hp).
  - destruct (buckets s1) as [a1 b1 c1], (buckets s2) as [a2 b2 c2].
    cbn [lt3 gte3lt4 gte4] in *. subst.
    unfold count, hazardous, non_hazardous.
    now rewrite !(Permutation_filter_length _ _ _ Hp).
  - unfold s1, s2. rewrite !summarizeNeos_minMiss. cbv zeta.
    assert (Hs : same (fold_left running_min (map missKm (collect f1)) PInf)
                      (fold_left running_min (map missKm (collect f2)) PInf)).
    { apply running_min_same. intros x. rewrite !in_map_iff.
      split; intros (neo & <- & Hn); exists neo; split; auto; now apply Hin. }
    destruct (fold_left running_min (map missKm (collect f1)) PInf),
             (fold_left running_min (map missKm (collect f2)) PInf);
      cbn in Hs |- *; try contradiction; auto; lra.
  - unfold s1, s2. rewrite !summarizeNeos_maxDiameter.
    now apply running_max_same.
Qed.

Lemma summarizeNeos_regrouping_witness :
  let a := Fixtures.object true 320 "7300000.5" in
  let b := Fixtures.object false 45 "1250000" in
  same (minMissDistanceKm
          (summarizeNeos
             {| near_earth_objects :=
                  Some [("2024-01-01"%string, Some [a]);
                        ("2024-01-02"%string, Some [b])] |} 2))
       (minMissDistanceKm (summarizeNeos (Fixtures.feed_of [b; a]) 2)).
Proof.
  intros a b.
  destruct (summarizeNeos_regrouping
              {| near_earth_objects :=
                   Some [("2024-01-01"%string, Some [a]);
                         ("2024-01-02"%string, Some [b])] |}
              (Fixtures.feed_of [b; a]) 2 (perm_swap b a []))
    as (_ & _ & _ & H & _).
  exact H.
Defined.

End SummaryFacts.


(** ** More on [computeThreat] *)

Section ScoreFacts.
Import Threat Neo NeoSpec NeoMore ThreatMore.
Local Open Scope num_scope.

Lemma div_Fin_pos (q k : Q) : (0 < k)%Q -> Fin q / Fin k = Fin (q / k).
Proof.
  intros Hk. unfold div.
  destruct (k ?= 0)%Q eqn:E; try reflexivity.
  apply Qeq_alt in E. lra.
Qed.

Lemma div_PInf_pos (k : Q) : (0 < k)%Q -> PInf / Fin k = PInf.
Proof.
  intros Hk. unfold div.
  replace (Qle_bool 0 k) with true; [reflexivity|].
  symmetry. apply Qle_bool_iff. lra.
Qed.

Lemma div_NInf_pos (k : Q) : (0 < k)%Q -> NInf / Fin k = NInf.
Proof.
  intros Hk. unfold div.
  replace (Qle_bool 0 k) with true; [reflexivity|].
  symmetry. apply Qle_bool_iff. lra.
Qed.

Lemma nondecr_of_le (x y : number) : (x <=? y) = true -> nondecr x y.
Proof. intros H. right; right. exact H. Qed.

Ltac nondecr_cases :=
  unfold nondecr; cbn [isNaN];
  try (now left); try (now right; left);
  try (right; right; reflexivity).

Lemma nondecr_div_pos (x y : number) (k : Q) :
  (0 < k)%Q -> nondecr x y -> nondecr (x / Fin k) (y / Fin k).
Proof.
  intros Hk [H|[H|H]].
  - destruct x; try discriminate. now left.
  - destruct y; try discriminate. right; left. now destruct x.
  - destruct x as [| | |a], y as [| | |b]; try discriminate;
      rewrite ?div_Fin_pos, ?div_PInf_pos, ?div_NInf_pos by assumption;
      apply nondecr_of_le; try reflexivity.
    apply le_Fin. apply le_Fin in H.
    unfold Qdiv. apply Qmult_le_compat_r; [exact H|].
    apply Qlt_le_weak, Qinv_lt_0_compat, Hk.
Qed.

Lemma nondecr_mul_pos_gen (x y : number) (k : Q) :
  (0 < k)%Q -> nondecr x y -> nondecr (x * Fin k) (y * Fin k).
Proof.
  intros Hk [H|[H|H]].
  - destruct x; try discriminate. now left.
  - destruct y; try discriminate. right; left. now destruct x.
  - now apply nondecr_mul_pos.
Qed.

Lemma nondecr_add_l (x y c : number) :
  nondecr x y -> nondecr (c + x) (c + y).
Proof.
  unfold nondecr.
  destruct x as [| | |a], y as [| | |b], c as [| | |k]; cbn [add isNaN le]; auto;
    intros [H|[H|H]]; try discriminate; auto.
  right; right. apply Qle_bool_iff. apply Qle_bool_iff in H. lra.
Qed.

(** Subtracting from a fixed number reverses the order. *)
Lemma nondecr_sub_from (x y c : number) :
  nondecr x y -> nondecr (c - y) (c - x).
Proof.
  unfold nondecr, sub.
  destruct x as [| | |a], y as [| | |b], c as [| | |k];
    cbn [neg add isNaN le]; auto;
    intros [H|[H|H]]; try discriminate; auto.
  right; right. apply Qle_bool_iff. apply Qle_bool_iff in H. lra.
Qed.

Ltac q_solve :=
  cbn [isNaN lt le];
  repeat match goal with
  | H : Qle_bool _ _ = true |- _ => apply Qle_bool_iff in H
  end;
  repeat match goal with
  | |- context [Qle_bool ?a ?b] =>
      let E := fresh "E" in
      destruct (Qle_bool a b) eqn:E;
      [apply Qle_bool_iff in E | apply Qle_bool_false in E]
  end;
  cbn [negb isNaN lt le];
  repeat match goal with
  | |- context [Qle_bool ?a ?b] =>
      let E := fresh "E" in
      destruct (Qle_bool a b) eqn:E;
      [apply Qle_bool_iff in E | apply Qle_bool_false in E]
  end;
  try reflexivity; try (exfalso; lra).

Lemma nondecr_max_const (x y : number) (c : Q) :
  nondecr x y -> nondecr (Math_max (Fin c) x) (Math_max (Fin c) y).
Proof.
  unfold nondecr, Math_max.
  destruct x as [| | |a], y as [| | |b]; cbn [isNaN]; auto;
    intros [H|[H|H]]; try discriminate; auto;
    right; right; cbn [le] in H; q_solve.
Qed.

Lemma nondecr_min_const (x y : number) (c : Q) :
  nondecr x y -> nondecr (Math_min (Fin c) x) (Math_min (Fin c) y).
Proof.
  unfold nondecr, Math_min.
  destruct x as [| | |a], y as [| | |b]; cbn [isNaN]; auto;
    intros [H|[H|H]]; try discriminate; auto;
    right; right; cbn [le] in H; q_solve.
Qed.

Lemma nondecr_zero_max (x : number) : nondecr 0 (Math_max 0 x).
Proof.
  unfold nondecr, Math_max. destruct x as [| | |a]; cbn [isNaN]; auto;
    right; right; q_solve.
Qed.

Lemma lt_zero_not_zero (m : number) : (0 <? m) = true -> (m === 0) = false.
Proof.
  destruct m as [| | |q]; cbn [lt strict_eq]; try discriminate; auto.
  rewrite negb_true_iff, Qle_bool_false. intros H.
  destruct (Qeq_bool q 0) eqn:E; [|reflexivity].
  apply Qeq_bool_iff in E. lra.
Qed.

Lemma lt_le_trans_num (a b c : number) :
  (a <? b) = true -> (b <=? c) = true -> (a <? c) = true.
Proof.
  destruct a as [| | |p], b as [| | |q], c as [| | |r]; cbn [lt le];
    try discriminate; auto.
  rewrite !negb_true_iff, !Qle_bool_false, Qle_bool_iff. intros; lra.
Qed.

(** The score as a function of the six terms. *)
Lemma score_unfold (neo : NeoSummary) (iss hrs : number) :
  score (computeThreat neo iss hrs) =
  Math_round
    (hazardousCount neo * 3 + totalCount neo * Fin (2 # 10) +
     (if minMissDistanceKm neo === 0 then 0
      else Math_max 0 (3 - minMissDistanceKm neo / 1000000)) * 4 +
     Math_min 5 (maxEstimatedDiameterMeters neo / 100) * 2 +
     Math_max 0 (2 - iss / 2000) * 2 +
     Math_max 0 (2 - hrs / 24) * 1).
Proof. reflexivity. Qed.





Lemma sizeRisk_saturates (D : number) :
  (500 <=? D) = true -> Math_min 5 (D / 100) = 5.
Proof.
  destruct D as [| | |q]; cbn [le]; try discriminate; intros H.
  - rewrite div_PInf_pos by lra. reflexivity.
  - rewrite div_Fin_pos by lra. unfold Math_min.
    replace (Fin (q / 100) <? 5) with false; [reflexivity|].
    symmetry. apply lt_Fin_false. apply Qle_bool_iff in H.
    apply Qle_shift_div_l; lra.
Qed.

Lemma farRisk_saturates (x : number) (c k : Q) :
  (0 < k)%Q -> (Fin (c * k) <=? x) = true ->
  Math_max 0 (Fin c - x / Fin k) = 0.
Proof.
  intros Hk. destruct x as [| | |q]; cbn [le]; try discriminate; intros H.
  - rewrite div_PInf_pos by lra. reflexivity.
  - rewrite div_Fin_pos by lra. unfold sub. cbn [neg add]. unfold Math_max.
    replace (0 <? Fin (c + - (q / k))) with false; [reflexivity|].
    symmetry. apply lt_Fin_false. apply Qle_bool_iff in H.
    assert (c <= q / k)%Q by (apply Qle_shift_div_l; lra). lra.
Qed.



(** *** The score as a whole number *)

Lemma nonneg_fin_add (x y : number) :
  nonneg_fin x -> nonneg_fin y -> nonneg_fin (x + y).
Proof.
  intros (p & -> & Hp) (q & -> & Hq). exists (p + q)%Q. split; [reflexivity | lra].
Qed.

Lemma nonneg_fin_mul (x : number) (k : Q) :
  (0 <= k)%Q -> nonneg_fin x -> nonneg_fin (x * Fin k).
Proof.
  intros Hk (p & -> & Hp). exists (p * k)%Q. split; [reflexivity | nra].
Qed.

Lemma nonneg_fin_count (x : number) : is_count x -> nonneg_fin x.
Proof.
  intros [n ->]. exists (inject_Z (Z.of_nat n)). split; [reflexivity|].
  change 0%Q with (inject_Z 0). rewrite <- Zle_Qle. lia.
Qed.

Lemma nonneg_fin_max (y : number) :
  isNaN y = false -> (y <? PInf) = true -> nonneg_fin (Math_max 0 y).
Proof.
  destruct y as [| | |q]; cbn [isNaN lt]; try discriminate; intros _ _.
  - exists 0%Q. split; [reflexivity | lra].
  - unfold Math_max. destruct (0 <? Fin q) eqn:E.
    + exists q. split; [reflexivity|].
      apply lt_le_num in E. now apply le_Fin in E.
    + exists 0%Q. split; [reflexivity | lra].
Qed.

Lemma farRisk_nonneg (x : number) (c k : Q) :
  (0 < k)%Q -> (NInf <? x) = true ->
  nonneg_fin (Math_max 0 (Fin c - x / Fin k)).
Proof.
  intros Hk. destruct x as [| | |q]; cbn [lt]; try discriminate; intros _.
  - rewrite div_PInf_pos by lra. exists 0%Q. split; [reflexivity | lra].
  - rewrite div_Fin_pos by lra. apply nonneg_fin_max; reflexivity.
Qed.

Lemma farRisk_at_most (x : number) (c k : Q) :
  (0 < k)%Q -> (0 <= c)%Q -> (0 <=? x) = true ->
  exists r : Q, Math_max 0 (Fin c - x / Fin k) = Fin r /\ (0 <= r <= c)%Q.
Proof.
  intros Hk Hc. destruct x as [| | |q]; cbn [le]; try discriminate; intros H.
  - rewrite div_PInf_pos by lra. exists 0%Q. split; [reflexivity | lra].
  - rewrite div_Fin_pos by lra. apply Qle_bool_iff in H.
    assert (0 <= q / k)%Q by (apply Qle_shift_div_l; lra).
    unfold sub. cbn [neg add]. unfold Math_max.
    destruct (0 <? Fin (c + - (q / k))) eqn:E.
    + exists (c + - (q / k))%Q. split; [reflexivity|].
      apply lt_le_num in E. apply le_Fin in E. lra.
    + exists 0%Q. split; [reflexivity | lra].
Qed.

Lemma sizeRisk_nonneg (D : number) :
  (0 <=? D) = true -> nonneg_fin (Math_min 5 (D / 100)).
Proof.
  destruct D as [| | |q]; cbn [le]; try discriminate; intros H.
  - rewrite div_PInf_pos by lra. exists 5%Q. split; [reflexivity | lra].
  - rewrite div_Fin_pos by lra. apply Qle_bool_iff in H.
    assert (0 <= q / 100)%Q by (apply Qle_shift_div_l; lra).
    unfold Math_min. destruct (Fin (q / 100) <? 5).
    + now exists (q / 100)%Q.
    + exists 5%Q. split; [reflexivity | lra].
Qed.

Lemma round_nonneg (x : number) :
  nonneg_fin x -> exists n : Z, (0 <= n)%Z /\ Math_round x = of_Z n.
Proof.
  intros (q & -> & Hq). exists (Qfloor (q + (1 # 2))). split; [|reflexivity].
  change 0%Z with (Qfloor 0). apply Qfloor_resp_le. lra.
Qed.





End ScoreFacts.

(** ** More on the run *)

Section RunFacts.
Import Cli Threat Neo Pipeline PipelineMore.
Local Open Scope string_scope.
Local Open Scope Z_scope.

Variable haversineKm : number -> number -> number -> number -> number.

(** *** The geocoding adapter *)

(** What a returned location comes from. *)
Lemma getCityLocation_returns (env : Env) (city : string) (loc : Location) :
  outcome (getCityLocation env city) = Ok loc ->
  exists status first rest,
    nominatim_search env city = Responds status (Some (first :: rest)) /\
    status < 400 /\
    loc = {| loc_city := city;
             displayName := display_name first;
             latitude := Number_of_string (lat first);
             longitude := Number_of_string (lon first) |} /\
    isNaN (latitude loc) = false /\ isNaN (longitude loc) = false.
Proof.
  unfold outcome, getCityLocation, bind, timed, http_get, throw, ret.
  destruct (nominatim_search env city) as [|status data]; cbn [fst snd];
    [discriminate|].
  destruct (status >=? 400) eqn:Es; [discriminate|].
  destruct data as [[|first rest]|]; try discriminate.
  destruct (isNaN (Number_of_string (lat first))) eqn:Ea; [discriminate|].
  destruct (isNaN (Number_of_string (lon first))) eqn:Eo; [discriminate|].
  cbn [orb fst]. intros [= <-].
  exists status, first, rest. cbn [latitude longitude].
  repeat split; auto. unfold Z.geb in Es.
  destruct (status ?= 400) eqn:Ec; try discriminate.
  now apply Z.compare_lt_iff.
Qed.

(** The messages [getCityLocation] can fail with. *)
Lemma getCityLocation_throws (env : Env) (city msg : string) :
  outcome (getCityLocation env city) = Throw msg ->
  (nominatim_search env city = Rejects /\ msg = "Nominatim search failed") \/
  exists status data,
    nominatim_search env city = Responds status data /\
    ((400 <= status /\ msg = "Nominatim HTTP " ++ pretty status) \/
     (status < 400 /\ (data = None \/ data = Some []) /\
      msg = "City not found: " ++ city) \/
     (status < 400 /\ msg = "Invalid coordinates for: " ++ city /\
      exists first rest,
        data = Some (first :: rest) /\
        (isNaN (Number_of_string (lat first)) = true \/
         isNaN (Number_of_string (lon first)) = true))).
Proof.
  unfold outcome, getCityLocation, bind, timed, http_get, throw, ret.
  destruct (nominatim_search env city) as [|status data]; cbn [fst snd].
  - intros [= <-]. now left.
  - intros H. right. exists status, data. split; [reflexivity|].
    assert (Hs : (status >=? 400) = true /\ 400 <= status \/
                 (status >=? 400) = false /\ status < 400).
    { unfold Z.geb. destruct (status ?= 400) eqn:Ec.
      - left. split; [reflexivity|]. apply Z.compare_eq_iff in Ec. lia.
      - right. split; [reflexivity|]. now apply Z.compare_lt_iff.
      - left. split; [reflexivity|]. apply Z.compare_gt_iff in Ec. lia. }
    destruct Hs as [[E Hs]|[E Hs]]; rewrite E in H.
    + injection H as <-. left. now split.
    + right. destruct data as [[|first rest]|].
      * left. injection H as <-. repeat split; auto.
      * right. revert H.
        destruct (isNaN (Number_of_string (lat first))) eqn:Ea;
          destruct (isNaN (Number_of_string (lon first))) eqn:Eo;
          cbn [orb fst]; try discriminate; intros [= <-];
          (split; [exact Hs|]); (split; [reflexivity|]);
          exists first, rest; auto.
      * left. injection H as <-. repeat split; auto.
Qed.

(** X18. What [getCityLocation] ends with.  A location it returns comes
    from the first candidate of an answer with a status below 400, carries
    the city as it was asked for, and has coordinates that are not [NaN].
    When it throws, a failed request is reported by the name of the call, a
    status from 400 on by that status whatever the body holds, and only an
    answer with a status below 400 is looked into for a missing candidate
    or a coordinate that is no number. *)
Theorem getCityLocation_outcomes (env : Env) (city : string) :
  (forall loc,
     outcome (getCityLocation env city) = Ok loc ->
     exists status first rest,
       nominatim_search env city = Responds status (Some (first :: rest)) /\
       status < 400 /\
       loc = {| loc_city := city;
                displayName := display_name first;
                latitude := Number_of_string (lat first);
                longitude := Number_of_string (lon first) |} /\
       isNaN (latitude loc) = false /\ isNaN (longitude loc) = false) /\
  (forall msg,
     outcome (getCityLocation env city) = Throw msg ->
     (nominatim_search env city = Rejects /\ msg = "Nominatim search failed") \/
     exists status data,
       nominatim_search env city = Responds status data /\
       ((400 <= status /\ msg = "Nominatim HTTP " ++ pretty status) \/
        (status < 400 /\ (data = None \/ data = Some []) /\
         msg = "City not found: " ++ city) \/
        (status < 400 /\ msg = "Invalid coordinates for: " ++ city /\
         exists first rest,
           data = Some (first :: rest) /\
           (isNaN (Number_of_string (lat first)) = true \/
            isNaN (Number_of_string (lon first)) = true)))).
Proof.
  split.
  - intros loc. apply getCityLocation_returns.
  - intros msg. apply getCityLocation_throws.
Qed.

(** *** The join of the four calls *)

Lemma find_app_false {A : Type} (f : A -> bool) (l1 l2 : list A) :
  (forall x, In x l1 -> f x = false) -> find f (l1 ++ l2) = find f l2.
Proof.
  induction l1 as [|x l1 IH]; intros H; [reflexivity|].
  cbn [app find]. rewrite (H x) by now left.
  apply IH. intros y Hy. apply H. now right.
Qed.

Lemma first_rejection_member
    (order : list Adapter) (outcomes : list (Adapter * option string)) :
  (exists a m, In (a, Some m) outcomes) ->
  exists a m, first_rejection order outcomes = Some m /\ In (a, Some m) outcomes.
Proof.
  intros (a0 & m0 & Hin). unfold first_rejection.
  match goal with
  | |- context [find ?p order] => destruct (find p order) as [a|] eqn:E
  end.
  - apply find_some in E. destruct E as [_ E].
    destruct (find (fun o => adapter_eqb (fst o) a) outcomes) as [[a' [m|]]|] eqn:F;
      try discriminate.
    apply find_some in F. destruct F as [F _]. eauto.
  - match goal with
    | |- context [find ?p outcomes] => destruct (find p outcomes) as [[a r]|] eqn:F
    end.
    + apply find_some in F. destruct F as [F Hr]. cbn [snd] in Hr.
      destruct r as [m|]; [eauto | discriminate].
    + apply (find_none _ _ F) in Hin. discriminate.
Qed.

Lemma adapter_eqb_eq (a b : Adapter) : adapter_eqb a b = true <-> a = b.
Proof. destruct a, b; cbn; split; congruence. Qed.

Lemma rejections_find (env : Env) (nasaKey date endDate : string)
    (a : Adapter) (r : option string) :
  In (a, r) (rejections env nasaKey date endDate) ->
  find (fun o => adapter_eqb (fst o) a) (rejections env nasaKey date endDate)
    = Some (a, r).
Proof.
  unfold rejections.
  intros [H|[H|[H|[H|[]]]]]; inversion H; subst; reflexivity.
Qed.

(** The call that settles first among the failed ones gives the message. *)
Lemma first_rejection_settles_first
    (env : Env) (nasaKey date endDate : string)
    (pre post : list Adapter) (a : Adapter) (m : string) :
  (forall x m', In x pre -> ~ In (x, Some m') (rejections env nasaKey date endDate)) ->
  In (a, Some m) (rejections env nasaKey date endDate) ->
  first_rejection (pre ++ a :: post) (rejections env nasaKey date endDate) = Some m.
Proof.
  intros Hpre Hin. unfold first_rejection.
  rewrite find_app_false.
  - pose proof (rejections_find _ _ _ _ _ _ Hin) as F.
    cbn [find]. rewrite F. cbv beta iota. rewrite F. reflexivity.
  - intros x Hx.
    destruct (find (fun o => adapter_eqb (fst o) x)
                (rejections env nasaKey date endDate)) as [[x' [m'|]]|] eqn:F;
      try reflexivity.
    exfalso. apply find_some in F. destruct F as [F Hx'].
    cbn [fst] in Hx'. apply adapter_eqb_eq in Hx'. subst x'.
    exact (Hpre x m' Hx F).
Qed.

Lemma join_runs (env : Env) (nasaKey date endDate : string) (w : World) :
  all4 (settle_order env) (getIssNow env) (getSpaceXNext env)
    (getApod env nasaKey date) (getNeoFeed env nasaKey date endDate)
    (sent NominatimSearch w) =
  (match outcome (getIssNow env), outcome (getSpaceXNext env),
         outcome (getApod env nasaKey date),
         outcome (getNeoFeed env nasaKey date endDate) with
   | Ok x, Ok y, Ok z, Ok u => Ok (x, y, z, u)
   | _, _, _, _ =>
       Throw (nullish (first_rejection (settle_order env)
                         (rejections env nasaKey date endDate)) EmptyString)
   end, all_sent w).
Proof.
  unfold all4, bind, settle, rejections.
  rewrite getIssNow_runs, getSpaceXNext_runs, getApod_runs, getNeoFeed_runs.
  destruct (outcome (getIssNow env)), (outcome (getSpaceXNext env)),
    (outcome (getApod env nasaKey date)),
    (outcome (getNeoFeed env nasaKey date endDate)); reflexivity.
Qed.

(** [main] once the arguments, the end date and the location are there. *)
Lemma main_after_geocoding
    (env : Env) (argv : list string) (w : World)
    (args : Args) (endDate : string) (loc : Location) :
  parseArgs (clock_args env) argv = Ok args ->
  snd (feed_range (date args) (Cli.days args)) = Some endDate ->
  outcome (getCityLocation env (city args)) = Ok loc ->
  let nasaKey := nullish (NASA_API_KEY env) "DEMO_KEY" in
  main haversineKm env argv w =
  match outcome (getIssNow env), outcome (getSpaceXNext env),
        outcome (getApod env nasaKey (date args)),
        outcome (getNeoFeed env nasaKey (date args) endDate) with
  | Ok issNow, Ok launch, Ok apod, Ok feed =>
      let issDistanceKm :=
        haversineKm (latitude loc) (longitude loc)
          (now_latitude issNow) (now_longitude issNow) in
      let hours := hoursToLaunch (date_utc launch) (clock_launch env) in
      let neoSummary := summarizeNeos feed (neoDays (Cli.days args)) in
      writeFile env "briefing.json"
        {| generatedAt := toISOString (clock_generated env);
           input := {| in_city := city args; in_days := Cli.days args;
                       in_date := date args; in_mode := mode args |};
           location := loc;
           iss := {| b_latitude := now_latitude issNow;
                     b_longitude := now_longitude issNow;
                     distanceKm := issDistanceKm;
                     b_timestamp := now_timestamp issNow |};
           nextLaunch := {| b_name := launch_name launch;
                            dateUtc := date_utc launch;
                            b_hoursToLaunch := hours;
                            webcast := links_webcast launch |};
           apod := {| b_date := apod_date apod; b_title := apod_title apod;
                      mediaType := media_type apod; b_url := apod_url apod |};
           neo := neoSummary;
           threat := computeThreat neoSummary issDistanceKm hours |}
        (all_sent w)
  | _, _, _, _ =>
      (Throw (nullish (first_rejection (settle_order env)
                         (rejections env nasaKey (date args) endDate))
                EmptyString),
       all_sent w)
  end.
Proof.
  intros Hp He Hl nasaKey. unfold main, bind, lift.
  rewrite Hp.
  change (fst (feed_range (date args) (Cli.days args))) with (date args).
  rewrite He. rewrite getCityLocation_runs, Hl.
  fold nasaKey. rewrite join_runs.
  destruct (outcome (getIssNow env)), (outcome (getSpaceXNext env)),
    (outcome (getApod env nasaKey (date args))),
    (outcome (getNeoFeed env nasaKey (date args) endDate)); reflexivity.
Qed.

Lemma rejections_some (env : Env) (nasaKey date endDate : string) :
  (exists a m, In (a, Some m) (rejections env nasaKey date endDate)) \/
  exists x y z u,
    outcome (getIssNow env) = Ok x /\ outcome (getSpaceXNext env) = Ok y /\
    outcome (getApod env nasaKey date) = Ok z /\
    outcome (getNeoFeed env nasaKey date endDate) = Ok u.
Proof.
  unfold rejections.
  destruct (outcome (getIssNow env)) as [x|m];
    [|left; exists IssNowCall, m; cbn; auto].
  destruct (outcome (getSpaceXNext env)) as [y|m];
    [|left; exists SpaceXNext, m; cbn; auto].
  destruct (outcome (getApod env nasaKey date)) as [z|m];
    [|left; exists NasaApodCall, m; cbn; auto].
  destruct (outcome (getNeoFeed env nasaKey date endDate)) as [u|m];
    [|left; exists NasaNeoFeedCall, m; cbn; auto 6].
  right. exists x, y, z, u. auto.
Qed.

Lemma main_join_rejected
    (env : Env) (argv : list string) (w : World)
    (args : Args) (endDate : string) (loc : Location) (a : Adapter) (m : string) :
  parseArgs (clock_args env) argv = Ok args ->
  snd (feed_range (date args) (Cli.days args)) = Some endDate ->
  outcome (getCityLocation env (city args)) = Ok loc ->
  let nasaKey := nullish (NASA_API_KEY env) "DEMO_KEY" in
  In (a, Some m) (rejections env nasaKey (date args) endDate) ->
  main haversineKm env argv w =
  (Throw (nullish (first_rejection (settle_order env)
                     (rejections env nasaKey (date args) endDate)) EmptyString),
   all_sent w).
Proof.
  intros Hp He Hl nasaKey Hin.
  rewrite (main_after_geocoding env argv w args endDate loc Hp He Hl).
  fold nasaKey. revert Hin. unfold rejections.
  destruct (outcome (getIssNow env)), (outcome (getSpaceXNext env)),
    (outcome (getApod env nasaKey (date args))),
    (outcome (getNeoFeed env nasaKey (date args) endDate));
    try reflexivity.
  cbn. intros [H|[H|[H|[H|[]]]]]; discriminate.
Qed.

(** X19. When one or more of the four parallel calls fail, all five
    requests have gone out, the run ends with 1 and prints the message of
    one of the failed calls; it is the message of the failed call that
    settles first, not of the one that comes first in the array. *)
Theorem run_join_failure
    (env : Env) (argv : list string) (w : World)
    (args : Args) (endDate : string) (loc : Location) (a : Adapter) (m : string) :
  parseArgs (clock_args env) argv = Ok args ->
  snd (feed_range (date args) (Cli.days args)) = Some endDate ->
  outcome (getCityLocation env (city args)) = Ok loc ->
  let nasaKey := nullish (NASA_API_KEY env) "DEMO_KEY" in
  let failed := rejections env nasaKey (date args) endDate in
  let out := run haversineKm env argv w in
  In (a, Some m) failed ->
  exit_code out = 1 /\
  requests (world out) = (requests w ++ five_requests)%list /\
  files (world out) = files w /\
  (exists a' m', In (a', Some m') failed /\ stderr out = ["Error: " ++ m']) /\
  (forall pre post,
     settle_order env = (pre ++ a :: post)%list ->
     (forall x m', In x pre -> ~ In (x, Some m') failed) ->
     stderr out = ["Error: " ++ m]).
Proof.
  intros Hp He Hl nasaKey failed out Hin.
  unfold out, run.
  rewrite (main_join_rejected env argv w args endDate loc a m Hp He Hl Hin).
  fold nasaKey. fold failed. cbn [exit_code world stderr].
  split; [reflexivity|]. split; [apply requests_all_sent|].
  split; [reflexivity|]. split.
  - destruct (first_rejection_member (settle_order env) failed) as (a' & m' & -> & Hin');
      [eauto|].
    exists a', m'. split; [exact Hin' | reflexivity].
  - intros pre post Ho Hpre. rewrite Ho.
    unfold failed.
    rewrite (first_rejection_settles_first env nasaKey (date args) endDate
               pre post a m Hpre Hin).
    reflexivity.
Qed.

(** X20. A run that ends with 0 has sent the five requests in order and
    has written one briefing that hangs together: it repeats the accepted
    arguments, holds the location the geocoder gave, a summary over
    [min(days, 7)] days of the feed that was fetched, the distance between
    the location and the ISS position it records, and the threat computed
    from exactly the summary, distance and hours it records. *)
Theorem run_success_briefing (env : Env) (argv : list string) (w : World) :
  let out := run haversineKm env argv w in
  exit_code out = 0 ->
  exists (args : Args) (endDate : string) (feed : NasaNeoFeed) (b : Briefing),
    parseArgs (clock_args env) argv = Ok args /\
    addDays (date args) (Math_min (Cli.days args) 7 - 1)%num = Some endDate /\
    outcome (getNeoFeed env (nullish (NASA_API_KEY env) "DEMO_KEY")
               (date args) endDate) = Ok feed /\
    stderr out = [] /\
    requests (world out) = (requests w ++ five_requests)%list /\
    files (world out) = <["briefing.json" := b]> (files w) /\
    input b = {| in_city := city args; in_days := Cli.days args;
                 in_date := date args; in_mode := mode args |} /\
    outcome (getCityLocation env (city args)) = Ok (location b) /\
    neo b = summarizeNeos feed (Math_min (Cli.days args) 7) /\
    distanceKm (iss b) =
      haversineKm (latitude (location b)) (longitude (location b))
        (b_latitude (iss b)) (b_longitude (iss b)) /\
    threat b =
      computeThreat (neo b) (distanceKm (iss b)) (b_hoursToLaunch (nextLaunch b)) /\
    generatedAt b = toISOString (clock_generated env).
Proof.
  intros out. unfold out, run.
  pose proof (main_stages haversineKm env argv w) as H. cbv zeta in H.
  destruct (parseArgs (clock_args env) argv) as [args|msg] eqn:Hp;
    [|rewrite H; discriminate].
  destruct (snd (feed_range (date args) (Cli.days args))) as [endDate|] eqn:He;
    [|rewrite H; discriminate].
  destruct (outcome (getCityLocation env (city args))) as [loc|msg] eqn:Hl;
    [|rewrite H; discriminate].
  clear H.
  rewrite (main_after_geocoding env argv w args endDate loc Hp He Hl).
  cbv zeta.
  destruct (outcome (getIssNow env)) as [issNow|]; [|discriminate].
  destruct (outcome (getSpaceXNext env)) as [launch|]; [|discriminate].
  destruct (outcome (getApod env _ (date args))) as [apod|]; [|discriminate].
  destruct (outcome (getNeoFeed env _ (date args) endDate)) as [feed|] eqn:Hf;
    [|discriminate].
  unfold writeFile.
  destruct (write_error env); [discriminate|].
  intros _. cbn [world stderr requests files].
  exists args, endDate, feed. eexists.
  split; [reflexivity|]. split; [exact He|]. split; [exact Hf|].
  split; [reflexivity|]. split; [apply requests_all_sent|].
  split; [reflexivity|].
  cbn [input location neo iss distanceKm threat generatedAt nextLaunch
       b_hoursToLaunch b_latitude b_longitude].
  repeat split. exact Hl.
Qed.

(** X21. A run sends no request, the geocoding request alone, or all
    five; it ends with 0 and an empty error output, or with 1, one
    [Error:] line and the files as they were. Arguments that are rejected
    and a date without an end date stop it before any request. *)
Theorem run_requests_shape (env : Env) (argv : list string) (w : World) :
  let out := run haversineKm env argv w in
  ((exit_code out = 0 /\ stderr out = [] /\
    requests (world out) = (requests w ++ five_requests)%list) \/
   (exit_code out = 1 /\ files (world out) = files w /\
    (exists msg, stderr out = ["Error: " ++ msg]) /\
    (requests (world out) = requests w \/
     requests (world out) = (requests w ++ [NominatimSearch])%list \/
     requests (world out) = (requests w ++ five_requests)%list))) /\
  (forall msg, parseArgs (clock_args env) argv = Throw msg ->
     world out = w /\ stderr out = ["Error: " ++ msg]) /\
  (forall args, parseArgs (clock_args env) argv = Ok args ->
     addDays (date args) (Math_min (Cli.days args) 7 - 1)%num = None ->
     world out = w /\ stderr out = ["Error: Invalid time value"]).
Proof.
  intros out. unfold out, run.
  pose proof (main_stages haversineKm env argv w) as H. cbv zeta in H.
  pose proof (requests_all_sent w) as Hr.
  split; [|split].
  - destruct (parseArgs (clock_args env) argv) as [args|msg];
      [|rewrite H; right; cbn; eauto 8].
    destruct (snd (feed_range (date args) (Cli.days args))) as [endDate|];
      [|rewrite H; right; cbn; eauto 8].
    destruct (outcome (getCityLocation env (city args))) as [loc|msg];
      [|rewrite H; right; cbn; eauto 8].
    destruct (outcome (getIssNow env));
      [|destruct H as [msg ->]; right; cbn; eauto 8].
    destruct (outcome (getSpaceXNext env));
      [|destruct H as [msg ->]; right; cbn; eauto 8].
    destruct (outcome (getApod env _ (date args)));
      [|destruct H as [msg ->]; right; cbn; eauto 8].
    destruct (outcome (getNeoFeed env _ (date args) _));
      [|destruct H as [msg ->]; right; cbn; eauto 8].
    destruct (write_error env); [rewrite H; right; cbn; eauto 8|].
    destruct H as (b & -> & _). left. cbn. auto.
  - intros msg Hp. rewrite Hp in H. rewrite H. split; reflexivity.
  - intros args Hp He. rewrite Hp in H.
    change (addDays (date args) (Math_min (Cli.days args) 7 - 1)%num)
      with (snd (feed_range (date args) (Cli.days args))) in He.
    rewrite He in H. rewrite H. split; reflexivity.
Qed.

(** X22. A date with a month outside 01-12 gets through [parseArgs] and
    stops the run before any request, with the message of the RangeError. *)
Theorem run_invalid_calendar_date
    (env : Env) (argv : list string) (w : World) (args : Args) (y m d : Z) :
  parseArgs (clock_args env) argv = Ok args ->
  date args = format_date (y, m, d) ->
  0 <= y <= 9999 -> 0 <= d <= 99 -> m = 0 \/ 13 <= m <= 99 ->
  let out := run haversineKm env argv w in
  exit_code out = 1 /\ world out = w /\
  stderr out = ["Error: Invalid time value"].
Proof.
  intros Hp Hd Hy Hdd Hm out. unfold out, run.
  pose proof (main_stages haversineKm env argv w) as H. cbv zeta in H.
  rewrite Hp in H. unfold feed_range in H. cbn [snd] in H.
  rewrite Hd, (addDays_bad_month _ y m d Hy Hdd Hm) in H.
  rewrite H. repeat split.
Qed.

End RunFacts.

Section RunWitnesses.
Import Cli Pipeline PipelineMore.
Local Open Scope string_scope.
Local Open Scope Z_scope.

Lemma getCityLocation_outcomes_witness :
  exists status data,
    nominatim_search Fixtures.env_no_city "Pune" = Responds status data /\
    status < 400 /\ (data = None \/ data = Some []).
Proof.
  destruct (getCityLocation_outcomes Fixtures.env_no_city "Pune") as [_ H].
  destruct (H "City not found: Pune" eq_refl)
    as [[H1 _]|(status & data & H1 & [[_ Hm]|[(Hs & Hd & _)|(_ & Hm & _)]])];
    try discriminate.
  exists status, data. auto.
Defined.

Lemma run_join_failure_witness :
  stderr (run Fixtures.no_distance FixturesMore.env_feeds_down
            Fixtures.argv_pune world0) = ["Error: NEO HTTP 503"].
Proof.
  destruct (parseArgs (clock_args FixturesMore.env_feeds_down) Fixtures.argv_pune)
    as [args|] eqn:Hp; [|discriminate].
  injection Hp as <-.
  destruct (run_join_failure Fixtures.no_distance FixturesMore.env_feeds_down
              Fixtures.argv_pune world0 _ "2024-01-07"
              {| loc_city := "Pune";
                 displayName := "Pune, Maharashtra, India";
                 latitude := Number_of_string "18.5204";
                 longitude := Number_of_string "73.8567" |}
              NasaNeoFeedCall "NEO HTTP 503" eq_refl eq_refl eq_refl)
    as (_ & _ & _ & _ & H).
  - cbn. auto.
  - apply (H [] [IssNowCall; SpaceXNext; NasaApodCall]); [reflexivity|].
    intros x m' [].
Defined.

Lemma run_success_briefing_witness :
  exists b : Briefing,
    files (world (run Fixtures.no_distance Fixtures.env_ok Fixtures.argv_pune world0))
      = <["briefing.json" := b]> (files world0) /\
    threat b =
      Threat.computeThreat (neo b) (distanceKm (iss b))
        (b_hoursToLaunch (nextLaunch b)).
Proof.
  destruct (run_success_briefing Fixtures.no_distance Fixtures.env_ok
              Fixtures.argv_pune world0 eq_refl)
    as (args & endDate & feed & b & _ & _ & _ & _ & _ & Hf & _ & _ & _ & _ & Ht & _).
  exists b. split; assumption.
Defined.

Lemma run_requests_shape_witness :
  let out := run Fixtures.no_distance Fixtures.env_ok
               FixturesMore.argv_no_city world0 in
  world out = world0 /\ stderr out = ["Error: " ++ missing_city].
Proof.
  destruct (run_requests_shape Fixtures.no_distance Fixtures.env_ok
              FixturesMore.argv_no_city world0) as (_ & H & _).
  apply (H missing_city). reflexivity.
Defined.

Lemma run_invalid_calendar_date_witness :
  let out := run Fixtures.no_distance Fixtures.env_ok
               FixturesMore.argv_month_13 world0 in
  exit_code out = 1 /\ world out = world0 /\
  stderr out = ["Error: Invalid time value"].
Proof.
  eapply (run_invalid_calendar_date Fixtures.no_distance Fixtures.env_ok
            FixturesMore.argv_month_13 world0 _ 2024 13 1);
    [reflexivity | reflexivity | lia | lia | lia].
Defined.

End RunWitnesses.

(** ** More on the great-circle distance *)

Section DistanceFacts.
Import Geo GeoMore.
Local Open Scope R_scope.

Lemma haversineKm_hav (lat1 lon1 lat2 lon2 : R) :
  haversineKm lat1 lon1 lat2 lon2 =
  6371 * (2 * atan2 (sqrt (hav lat1 lon1 lat2 lon2))
                    (sqrt (1 - hav lat1 lon1 lat2 lon2))).
Proof. reflexivity. Qed.

(** The angle is recovered from its sine, up to a right angle. *)
Lemma arc_quarter (x : R) :
  0 <= x <= PI / 2 ->
  atan2 (sqrt (sin x * sin x)) (sqrt (1 - sin x * sin x)) = x.
Proof.
  intros [H0 H1]. pose proof PI_RGT_0 as Hpi.
  assert (Hs : 0 <= sin x) by (apply sin_ge_0; Lra.lra).
  assert (Hc : 0 <= cos x) by (apply cos_ge_0; Lra.lra).
  rewrite (sqrt_square _ Hs).
  replace (1 - sin x * sin x) with (cos x * cos x)
    by (pose proof (sin2_cos2 x) as E; unfold Rsqr in E; Lra.lra).
  rewrite (sqrt_square _ Hc).
  destruct H1 as [H1 | ->].
  - assert (Hc' : 0 < cos x) by (apply cos_gt_0; Lra.lra).
    unfold atan2. destruct (Rlt_dec 0 (cos x)); [|contradiction].
    change (sin x / cos x) with (tan x). apply atan_tan. split; Lra.lra.
  - rewrite sin_PI2, cos_PI2. unfold atan2.
    destruct (Rlt_dec 0 0); [exfalso; Lra.lra|].
    destruct (Rlt_dec 0 1); [reflexivity | exfalso; Lra.lra].
Qed.

Lemma arc_half (x : R) :
  - (PI / 2) <= x <= PI / 2 ->
  atan2 (sqrt (sin x * sin x)) (sqrt (1 - sin x * sin x)) = Rabs x.
Proof.
  intros [H0 H1]. destruct (Rle_dec 0 x) as [H|H].
  - rewrite Rabs_right by Lra.lra. apply arc_quarter. Lra.lra.
  - rewrite Rabs_left by Lra.lra.
    replace (sin x * sin x) with (sin (- x) * sin (- x))
      by (rewrite sin_neg; ring).
    apply arc_quarter. Lra.lra.
Qed.

Lemma toRad_Rabs (x : R) : toRad (Rabs x) = Rabs (toRad x).
Proof.
  pose proof PI_RGT_0 as Hpi. unfold toRad.
  destruct (Rle_dec 0 x) as [H|H].
  - rewrite !Rabs_right; [reflexivity | Lra.nra | Lra.lra].
  - rewrite !Rabs_left; [field | Lra.nra | Lra.lra].
Qed.

Lemma half_Rabs (x : R) : 2 * Rabs (x / 2) = Rabs x.
Proof.
  destruct (Rle_dec 0 x) as [H|H].
  - rewrite !Rabs_right; [field | Lra.lra | Lra.lra].
  - rewrite !Rabs_left; [field | Lra.lra | Lra.lra].
Qed.

Lemma toRad_half_bound (d : R) :
  -180 <= d <= 180 -> - (PI / 2) <= toRad d / 2 <= PI / 2.
Proof.
  intros H. pose proof PI_RGT_0 as Hpi. unfold toRad. split; Lra.nra.
Qed.

(** X24. Along a meridian, and along the equator for longitudes no more
    than 180 degrees apart, the formula gives the length of the arc: the
    radius 6371 km times the angle between the two points in radians (the
    formula read over the reals). *)
Theorem haversineKm_arc_length (lat1 lat2 lon1 lon2 : R) :
  (-90 <= lat1 <= 90 -> -90 <= lat2 <= 90 ->
   haversineKm lat1 lon1 lat2 lon1 = 6371 * toRad (Rabs (lat2 - lat1))) /\
  (-180 <= lon2 - lon1 <= 180 ->
   haversineKm 0 lon1 0 lon2 = 6371 * toRad (Rabs (lon2 - lon1))).
Proof.
  split.
  - intros H1 H2. rewrite haversineKm_hav. unfold hav. cbv zeta.
    replace (toRad (lon1 - lon1) / 2) with 0 by (unfold toRad; field).
    rewrite sin_0.
    replace (sin (toRad (lat2 - lat1) / 2) * sin (toRad (lat2 - lat1) / 2) +
             cos (toRad lat1) * cos (toRad lat2) * 0 * 0)
      with (sin (toRad (lat2 - lat1) / 2) * sin (toRad (lat2 - lat1) / 2))
      by ring.
    rewrite arc_half by (apply toRad_half_bound; Lra.lra).
    now rewrite half_Rabs, toRad_Rabs.
  - intros H. rewrite haversineKm_hav. unfold hav. cbv zeta.
    replace (toRad (0 - 0) / 2) with 0 by (unfold toRad; field).
    replace (toRad 0) with 0 by (unfold toRad; field).
    rewrite sin_0, cos_0.
    replace (0 * 0 + 1 * 1 * sin (toRad (lon2 - lon1) / 2) *
                     sin (toRad (lon2 - lon1) / 2))
      with (sin (toRad (lon2 - lon1) / 2) * sin (toRad (lon2 - lon1) / 2))
      by ring.
    rewrite arc_half by (apply toRad_half_bound; Lra.lra).
    now rewrite half_Rabs, toRad_Rabs.
Qed.

Lemma haversineKm_arc_length_witness :
  haversineKm (-90) 10 90 10 = 6371 * toRad (Rabs (90 - -90)).
Proof.
  destruct (haversineKm_arc_length (-90) 90 10 10) as [H _].
  apply H; Lra.lra.
Defined.

Lemma sin_shift_sq (x : R) : sin (x - PI) * sin (x - PI) = sin x * sin x.
Proof.
  replace (x - PI) with (- (PI - x)) by ring.
  rewrite sin_neg, sin_PI_x. ring.
Qed.

(** X25. A full turn in longitude changes nothing: adding 360 degrees to
    the longitude of either point leaves the distance as it is (the formula
    read over the reals). *)
Theorem haversineKm_full_turn (lat1 lon1 lat2 lon2 : R) :
  haversineKm lat1 (lon1 + 360) lat2 lon2 = haversineKm lat1 lon1 lat2 lon2 /\
  haversineKm lat1 lon1 lat2 (lon2 - 360) = haversineKm lat1 lon1 lat2 lon2.
Proof.
  assert (E : forall d, toRad (d - 360) / 2 = toRad d / 2 - PI)
    by (intros d; unfold toRad; field).
  assert (H : forall l1 l2 d,
            cos (toRad l1) * cos (toRad l2) *
              sin (toRad (d - 360) / 2) * sin (toRad (d - 360) / 2) =
            cos (toRad l1) * cos (toRad l2) *
              sin (toRad d / 2) * sin (toRad d / 2)).
  { intros l1 l2 d. rewrite E.
    rewrite !Rmult_assoc. now rewrite sin_shift_sq. }
  split; rewrite !haversineKm_hav; unfold hav; cbv zeta.
  - replace (lon2 - (lon1 + 360)) with (lon2 - lon1 - 360) by ring.
    now rewrite H.
  - replace (lon2 - 360 - lon1) with (lon2 - lon1 - 360) by ring.
    now rewrite H.
Qed.

End DistanceFacts.

(** ** The forecast script *)

Section WeatherFacts.
Import Cli Weather WeatherMore.
Local Open Scope string_scope.

Lemma weather_assign_lookup (key k : string) (value : option string)
    (parsed : gmap string (option string)) :
  k <> "__proto__" ->
  prop (Weather.assign key value parsed) k =
  if String.eqb key k then value else prop parsed k.
Proof.
  intros Hk. unfold prop, Weather.assign.
  destruct (String.eqb_spec key "__proto__") as [->|Hp].
  - destruct (String.eqb_spec "__proto__" k) as [E|_]; [congruence|reflexivity].
  - destruct (String.eqb_spec key k) as [->|Hne].
    + now rewrite lookup_insert_eq.
    + now rewrite lookup_insert_ne.
Qed.

Lemma pairs_flat_lookup (kvs : list (string * string)) :
  forall (parsed : gmap string (option string)) (k : string),
    k <> "__proto__" ->
    prop (pairs (flat kvs) parsed) k =
    match last_value kvs k with
    | Some v => Some v
    | None => prop parsed k
    end.
Proof.
  induction kvs as [|[key v] kvs IH]; intros parsed k Hk; [reflexivity|].
  cbn [flat flat_map app fst snd pairs]. fold (flat kvs).
  rewrite IH by exact Hk. cbn [last_value fst snd].
  destruct (last_value kvs k); [reflexivity|].
  rewrite weather_assign_lookup by exact Hk.
  now destruct (String.eqb (replace key "--" EmptyString) k).
Qed.

Lemma pairs_trailing_key (kvs : list (string * string)) (key : string) :
  replace key "--" EmptyString <> "__proto__" ->
  forall parsed : gmap string (option string),
    prop (pairs (flat kvs ++ [key]) parsed) (replace key "--" EmptyString) = None.
Proof.
  intros Hk. induction kvs as [|[k v] kvs IH]; intros parsed.
  - cbn [flat flat_map app pairs]. rewrite weather_assign_lookup by exact Hk.
    now rewrite String.eqb_refl.
  - cbn [flat flat_map app fst snd pairs]. fold (flat kvs). apply IH.
Qed.

(** X26. The forecast script reads its command line two tokens at a time:
    a token in key position counts as that key once its first ["--"] is
    taken out, the last pair for a key wins, and whatever comes second is
    the value.  A city that is not empty and a day count that is a number
    other than 0 are accepted - negative and fractional counts too; a key
    left without a value at the end of the line reads as missing. *)
Theorem weather_parseArgs_pairs
    (node script : string) (kvs : list (string * string)) :
  Weather.parseArgs (node :: script :: flat kvs) =
    match last_value kvs "city" with
    | None => Throw "Missing --city"
    | Some c =>
        if negb (nonempty c) then Throw "Missing --city"
        else
          let d := Number_of (last_value kvs "days") in
          if negb (truthy d) || isNaN d then Throw "Missing or invalid --days"
          else Ok {| city := c; days := d |}
    end /\
  (forall key,
     replace key "--" EmptyString = "city" ->
     Weather.parseArgs (node :: script :: flat kvs ++ [key]) =
       Throw "Missing --city").
Proof.
  split.
  - unfold Weather.parseArgs. cbv zeta.
    change (skipn 2 (node :: script :: flat kvs)) with (flat kvs).
    rewrite !pairs_flat_lookup by discriminate.
    unfold prop. rewrite !lookup_empty.
    destruct (last_value kvs "city") as [c|]; [|reflexivity].
    destruct (last_value kvs "days"); reflexivity.
  - intros key Hk. unfold Weather.parseArgs. cbv zeta.
    change (skipn 2 (node :: script :: flat kvs ++ [key]))
      with (flat kvs ++ [key])%list.
    assert (Hp : replace key "--" EmptyString <> "__proto__")
      by (rewrite Hk; discriminate).
    pose proof (pairs_trailing_key kvs key Hp ∅) as H. rewrite Hk in H.
    now rewrite H.
Qed.

Lemma weather_parseArgs_pairs_witness :
  Weather.parseArgs ["node"; "weather.ts"; "--city"; "Pune"; "--days"; "3"; "city"]
    = Throw "Missing --city".
Proof.
  destruct (weather_parseArgs_pairs "node" "weather.ts"
              [("--city", "Pune"); ("--days", "3")]) as [_ H].
  apply (H "city"). reflexivity.
Defined.

(** *** Averages *)

Lemma fold_add_NaN (arr : list number) : fold_left add arr NaN = NaN.
Proof. induction arr as [|x arr IH]; [reflexivity | exact IH]. Qed.

Lemma fold_add_has_NaN (arr : list number) :
  forall acc : number, In NaN arr -> fold_left add arr acc = NaN.
Proof.
  induction arr as [|x arr IH]; intros acc; [intros []|].
  intros [->|Hin]; cbn [fold_left].
  - replace (add acc NaN) with NaN by now destruct acc.
    apply fold_add_NaN.
  - now apply IH.
Qed.

(** Adding a value that is at least 0 to a sum that is at least 0 gives at
    least either of them. *)
Lemma add_nonneg (acc x : number) :
  le 0 acc = true -> le 0 x = true ->
  le 0 (add acc x) = true /\ le acc (add acc x) = true /\
  le x (add acc x) = true.
Proof.
  destruct acc as [| | |a], x as [| | |b]; cbn [le add]; try discriminate;
    intros Ha Hb; repeat split; try reflexivity;
    rewrite ?Qle_bool_iff in *; lra.
Qed.

Lemma fold_add_nonneg (arr : list number) :
  forall acc : number,
    le 0 acc = true -> Forall (fun x => le 0 x = true) arr ->
    le acc (fold_left add arr acc) = true /\
    forall x, In x arr -> le x (fold_left add arr acc) = true.
Proof.
  induction arr as [|y arr IH]; intros acc Ha Hall; cbn [fold_left].
  - split; [|intros x []].
    apply le_refl_num. now destruct acc.
  - inversion Hall as [|? ? Hy Hrest]; subst.
    destruct (add_nonneg acc y Ha Hy) as (H0 & H1 & H2).
    destruct (IH (add acc y) H0 Hrest) as [Hle Hin].
    split; [now apply (le_trans_num _ _ _ H1)|].
    intros x [<-|Hx]; [now apply (le_trans_num _ _ _ H2) | now apply Hin].
Qed.



(** *** The run *)

(** X28. The forecast script sends no request when the arguments are
    rejected, the geocoding request alone when no place is found, and
    otherwise the geocoding request followed by one forecast request for
    the coordinates of the first place and the day count as given.  It ends
    with 0 and a report about that place, or with 1 and one [Error:] line.
    Statuses are never looked at: the same bodies under any status give the
    same run. *)
Theorem weather_run_outcomes (env : Weather.Env) (argv : list string) :
  let out := Weather.run env argv in
  (forall msg, Weather.parseArgs argv = Throw msg ->
     out = {| sent := []; stdout := None;
              stderr := ["Error: " ++ msg]; exit_code := 1 |}) /\
  (forall args, Weather.parseArgs argv = Ok args ->
     match geo_search env (city args) with
     | Fails msg =>
         out = {| sent := [GeoSearch (city args)]; stdout := None;
                  stderr := ["Error: " ++ msg]; exit_code := 1 |}
     | Answers _ data =>
         match results data with
         | Some (place :: _) =>
             let call := Forecast (g_latitude place) (g_longitude place)
                           (days args) in
             sent out = [GeoSearch (city args); call] /\
             match forecast env (g_latitude place) (g_longitude place)
                     (days args) with
             | Answers _ {| daily := Some d |} =>
                 exit_code out = 0%Z /\ stderr out = [] /\
                 stdout out =
                   Some {| r_location :=
                             {| loc_city := g_name place;
                                country := g_country place;
                                latitude := g_latitude place;
                                longitude := g_longitude place |};
                           r_days := days args;
                           r_summary := computeSummary d |}
             | Answers _ {| daily := None |} =>
                 exit_code out = 1%Z /\ stdout out = None /\
                 stderr out = ["Error: Forecast data missing"]
             | Fails msg =>
                 exit_code out = 1%Z /\ stdout out = None /\
                 stderr out = ["Error: " ++ msg]
             end
         | _ =>
             out = {| sent := [GeoSearch (city args)]; stdout := None;
                      stderr := ["Error: City not found: " ++ city args];
                      exit_code := 1 |}
         end
     end) /\
  (forall s, Weather.run (with_status s env) argv = out).
Proof.
  intros out. unfold out, Weather.run, Weather.main, bind.
  split; [|split].
  - intros msg ->. reflexivity.
  - intros args ->.
    unfold getCityCoordinates, getForecast, bind, get.
    destruct (geo_search env (city args)) as [msg|status data]; [reflexivity|].
    destruct (results data) as [[|place rest]|]; try reflexivity.
    cbn [latitude longitude].
    destruct (forecast env (g_latitude place) (g_longitude place) (days args))
      as [msg|status' [[d|]]]; cbn; auto.
  - intros s.
    destruct (Weather.parseArgs argv) as [args|msg]; [|reflexivity].
    unfold getCityCoordinates, getForecast, bind, get, with_status.
    cbn [geo_search forecast].
    destruct (geo_search env (city args)) as [msg|status data]; [reflexivity|].
    destruct (results data) as [[|place rest]|]; try reflexivity.
    cbn [latitude longitude].
    destruct (forecast env (g_latitude place) (g_longitude place) (days args))
      as [msg|status' [[d|]]]; reflexivity.
Qed.

Lemma weather_run_outcomes_witness :
  let env := {| geo_search := fun _ => Answers 500 {| results := None |};
                forecast := fun _ _ _ => Fails "Network Error" |} in
  Weather.run env ["node"; "weather.ts"; "--city"; "Pune"; "--days"; "-2"] =
  {| sent := [GeoSearch "Pune"]; stdout := None;
     stderr := ["Error: City not found: Pune"]; exit_code := 1 |}.
Proof.
  intros env.
  destruct (weather_run_outcomes env
              ["node"; "weather.ts"; "--city"; "Pune"; "--days"; "-2"])
    as (_ & H & _).
  apply (H {| city := "Pune"; days := Number_of_string "-2" |}).
  reflexivity.
Defined.

End WeatherFacts.

(** ** The comment ranking *)

Section PostsFacts.
Import Posts PostsMore.
Local Open Scope Z_scope.

(** Loop invariant of the counting loop. *)
Lemma count_loop (comments : list Comment) :
  forall (m : gmap Z Z) (k : Z),
    default 0 (fold_left
                 (fun m comment =>
                    <[postId comment := default 0 (m !! postId comment) + 1]> m)
                 comments m !! k) =
    default 0 (m !! k) + comments_of comments k.
Proof.
  unfold comments_of.
  induction comments as [|c comments IH]; intros m k; cbn [fold_left filter].
  - cbn. lia.
  - rewrite IH. destruct (Z.eqb_spec (postId c) k) as [->|Hne].
    + rewrite lookup_insert_eq. cbn [default from_option Datatypes.id List.length]. lia.
    + rewrite lookup_insert_ne by exact Hne. lia.
Qed.

Lemma count_loop_keys (comments : list Comment) :
  forall (m : gmap Z Z) (k : Z),
    fold_left
      (fun m comment =>
         <[postId comment := default 0 (m !! postId comment) + 1]> m)
      comments m !! k = None <->
    m !! k = None /\ Forall (fun c => postId c <> k) comments.
Proof.
  induction comments as [|c comments IH]; intros m k; cbn [fold_left].
  - split; [intros H; split; [exact H | constructor] | now intros [H _]].
  - rewrite IH. split.
    + intros [Hm Hall]. destruct (Z.eq_dec (postId c) k) as [E|Hne].
      * rewrite E, lookup_insert_eq in Hm. discriminate.
      * rewrite lookup_insert_ne in Hm by exact Hne.
        split; [exact Hm | now constructor].
    + intros [Hm Hall]. inversion Hall as [|? ? Hc Hrest]; subst.
      split; [|exact Hrest]. now rewrite lookup_insert_ne.
Qed.

(** X29. The map built from the comments holds, for every post identifier
    that occurs among them, the number of comments with that identifier,
    and nothing else; the count attached to a post is the number of its
    comments, 0 when it has none, whatever other comments there are. *)
Theorem commentCountByPost_counts (posts : list Post) (comments : list Comment) :
  (forall k,
     commentCountByPost comments !! k =
       if comments_of comments k =? 0 then None
       else Some (comments_of comments k)) /\
  postsWithCounts posts comments =
    map (fun post => {| p_postId := id post; p_title := title post;
                        commentCount := comments_of comments (id post) |})
        posts.
Proof.
  assert (H : forall k,
             commentCountByPost comments !! k =
               if comments_of comments k =? 0 then None
               else Some (comments_of comments k)).
  { intros k. unfold commentCountByPost.
    pose proof (count_loop comments ∅ k) as Hc.
    pose proof (count_loop_keys comments ∅ k) as Hk.
    rewrite lookup_empty in Hc, Hk. cbn [default from_option Datatypes.id] in Hc.
    destruct (fold_left _ comments ∅ !! k) as [n|] eqn:E.
    - cbn [default from_option Datatypes.id] in Hc. subst n.
      destruct (Z.eqb_spec (0 + comments_of comments k) 0) as [H0|H0].
      + exfalso. unfold comments_of in H0.
        destruct (filter (fun c => postId c =? k) comments) as [|c l] eqn:F;
          [|cbn [List.length] in H0; lia].
        assert (Hall : Forall (fun c => postId c <> k) comments).
        { apply Forall_forall. intros c Hin Hck.
          assert (Hf : In c (filter (fun c => postId c =? k) comments))
            by (apply filter_In; split; [exact Hin | now apply Z.eqb_eq]).
          rewrite F in Hf. destruct Hf. }
        destruct Hk as [_ Hk]. specialize (Hk (conj eq_refl Hall)).
        discriminate.
      + replace (0 + comments_of comments k) with (comments_of comments k) in *
          by lia.
        destruct (Z.eqb_spec (comments_of comments k) 0); [contradiction|].
        reflexivity.
    - cbn [default from_option Datatypes.id] in Hc.
      replace (comments_of comments k) with 0 by lia. reflexivity. }
  split; [exact H|].
  unfold postsWithCounts. apply map_ext. intros post. f_equal.
  rewrite H. destruct (Z.eqb_spec (comments_of comments (id post)) 0) as [->|];
    reflexivity.
Qed.

(** *** The sort *)

Lemma place_perm {A : Type} (cmp : A -> A -> Z) (x : A) (l : list A) :
  Permutation (place cmp x l) (x :: l).
Proof.
  induction l as [|y l IH]; cbn [place]; [reflexivity|].
  destruct (cmp x y <=? 0); [reflexivity|].
  rewrite IH. apply perm_swap.
Qed.

Lemma sort_perm {A : Type} (cmp : A -> A -> Z) (l : list A) :
  Permutation (sort cmp l) l.
Proof.
  induction l as [|x l IH]; [reflexivity|].
  cbn [sort fold_right]. fold (sort cmp l).
  rewrite place_perm. now constructor.
Qed.

Lemma place_sorted (x : Counted) (l : list Counted) :
  StronglySorted (fun a b => commentCount b <= commentCount a) l ->
  StronglySorted (fun a b => commentCount b <= commentCount a)
    (place (fun a b => commentCount b - commentCount a) x l).
Proof.
  induction 1 as [|y l Hs IH Hy]; cbn [place].
  - constructor; constructor.
  - destruct (Z.leb_spec (commentCount y - commentCount x) 0) as [Hle|Hgt].
    + constructor; [now constructor|].
      constructor; [lia|].
      apply Forall_forall. intros z Hz.
      rewrite Forall_forall in Hy. specialize (Hy z Hz). lia.
    + constructor; [exact IH|].
      apply Forall_forall. intros z Hz.
      apply (Permutation_in _ (place_perm _ x l)) in Hz.
      destruct Hz as [<-|Hz]; [lia|].
      rewrite Forall_forall in Hy. now apply Hy.
Qed.

Lemma sort_sorted (l : list Counted) :
  StronglySorted (fun a b => commentCount b <= commentCount a)
    (sort (fun a b => commentCount b - commentCount a) l).
Proof.
  induction l as [|x l IH]; [constructor|].
  cbn [sort fold_right]. now apply place_sorted.
Qed.

Lemma place_stable (c : Z) (x : Counted) (l : list Counted) :
  filter (has_count c) (place (fun a b => commentCount b - commentCount a) x l) =
  filter (has_count c) (x :: l).
Proof.
  induction l as [|y l IH]; [reflexivity|].
  cbn [place].
  destruct (Z.leb_spec (commentCount y - commentCount x) 0) as [Hle|Hgt];
    [reflexivity|].
  cbn [filter] in *. rewrite IH. unfold has_count.
  destruct (Z.eqb_spec (commentCount x) c), (Z.eqb_spec (commentCount y) c);
    try reflexivity; lia.
Qed.

Lemma sort_stable (c : Z) (l : list Counted) :
  filter (has_count c) (sort (fun a b => commentCount b - commentCount a) l) =
  filter (has_count c) l.
Proof.
  induction l as [|x l IH]; [reflexivity|].
  cbn [sort fold_right]. fold (sort (fun a b => commentCount b - commentCount a) l).
  rewrite place_stable. cbn [filter]. now rewrite IH.
Qed.

(** X30. The posts printed are the first five - all of them when there
    are fewer - of the posts put in descending order of comment count:
    together with the posts left out they are the posts that came in, no
    post left out has more comments than a post printed, and posts with the
    same count stay in the order in which they came. *)
Theorem topPosts_ranking (posts : list Post) (comments : list Comment) :
  let top := topPosts posts comments in
  List.length top = Nat.min 5 (List.length posts) /\
  exists rest : list Counted,
    Permutation (top ++ rest) (postsWithCounts posts comments) /\
    StronglySorted (fun a b => commentCount b <= commentCount a) (top ++ rest) /\
    (forall p q, In p top -> In q rest -> commentCount q <= commentCount p) /\
    (forall c, filter (has_count c) (top ++ rest) =
               filter (has_count c) (postsWithCounts posts comments)).
Proof.
  intros top. unfold top, topPosts.
  set (cmp := fun a b : Counted => commentCount b - commentCount a).
  set (l := postsWithCounts posts comments).
  split.
  - rewrite length_firstn, (Permutation_length (sort_perm cmp l)).
    unfold l, postsWithCounts. now rewrite length_map.
  - exists (skipn 5 (sort cmp l)).
    pose proof (sort_sorted l) as Hs. fold cmp in Hs.
    rewrite firstn_skipn.
    split; [apply sort_perm|]. split; [exact Hs|]. split.
    + intros p q Hp Hq.
      rewrite <- (firstn_skipn 5 (sort cmp l)) in Hs.
      revert Hs Hp Hq.
      generalize (firstn 5 (sort cmp l)) (skipn 5 (sort cmp l)).
      intros a b. induction a as [|x a IH]; [intros _ []|].
      cbn [app]. intros Hs [<-|Hp] Hq.
      * inversion Hs as [|? ? _ Hall]; subst.
        rewrite Forall_forall in Hall. apply Hall, in_or_app. now right.
      * inversion Hs; subst. now apply IH.
    + intros c. apply sort_stable.
Qed.

End PostsFacts.

